(** * planesections: the mesh node registry of [builder.py]

    A shallow embedding of the classes [Node], [PointLoad], [EleLoad],
    [Beam] and [EulerBeam] of [planesections/builder.py], and the
    properties of the node registry: insertion and merge by coordinate,
    the resort with its renumbering and remapping, and the derived
    queries.

    Numbers.  A coordinate, a force and a fixity entry are Python numbers.
    The registry only compares them ([==], [<], set membership, [min],
    [max]) and subtracts two coordinates in [getLength]; they are modelled
    as integers of a fixed unit (the scenarios below count coordinates in
    tenths, so that 2.5 reads 25).  NaN is outside the model.

    Objects.  Every [Node] and [PointLoad] object is held by exactly one
    list of the beam, and no list or array is mutated through a second
    reference, so objects are modelled as values and the beam as a record
    that the methods pass along.  An exception leaves the beam as far as
    it had been mutated: a method is a function from the beam to an
    outcome and the beam afterwards. *)

From stdpp Require Import base gmap strings list sorting.

Local Open Scope Z_scope.

(** ** Data *)

Inductive Dimension := D2 | D3.

(** A label is a Python [str] or [None]. *)
Definition Label := option string.

(** Truth value of a label in [if label:]. *)
Definition truthy (label : Label) : bool :=
  match label with
  | Some EmptyString | None => false
  | Some _ => true
  end.

Definition zeros (n : nat) : list Z := replicate n 0.

(** [np.any(np.array(fixity) != np.array([0,0,0], int))].  A vector of
    length 3 is compared entry by entry and one of length 1 is broadcast.
    For any other length the shapes do not match, and the NumPy of this
    code (before 1.25) answers the comparison with the scalar [True]. *)
Definition any_ne_zeros3 (fixity : list Z) : bool :=
  match length fixity with
  | 1%nat | 3%nat => existsb (λ v, negb (v =? 0)) fixity
  | _ => true
  end.

(** A node.  [labelIsPlotted], [disp] and [rFrc] are left out: no method
    of the registry reads or writes them. *)
Module Node.
Record t := mk {
  dimension : Dimension;
  x : Z;
  fixity : list Z;
  ID : option nat;
  label : Label;
  pointLoadIDs : list nat;
  Fint : option (list Z);
  hasReaction : bool
}.

Definition _Nforce (n : t) : nat :=
  match dimension n with D2 => 3 | D3 => 6 end.

(** [Node.__init__], reached through [Node2D] and [Node3D]. *)
Definition init (d : Dimension) (x : Z) (fixity : list Z) (label : Label) : t :=
  {| dimension := d; x := x; fixity := fixity; ID := None; label := label;
     pointLoadIDs := []; Fint := None;
     hasReaction := any_ne_zeros3 fixity |}.

Definition _setID (newID : option nat) (n : t) : t :=
  {| dimension := dimension n; x := x n; fixity := fixity n; ID := newID;
     label := label n; pointLoadIDs := pointLoadIDs n; Fint := Fint n;
     hasReaction := hasReaction n |}.

Definition setLabel (l : Label) (n : t) : t :=
  {| dimension := dimension n; x := x n; fixity := fixity n; ID := ID n;
     label := l; pointLoadIDs := pointLoadIDs n; Fint := Fint n;
     hasReaction := hasReaction n |}.

Definition setFixity (f : list Z) (n : t) : t :=
  {| dimension := dimension n; x := x n; fixity := f; ID := ID n;
     label := label n; pointLoadIDs := pointLoadIDs n; Fint := Fint n;
     hasReaction := hasReaction n |}.

Definition setHasReaction (h : bool) (n : t) : t :=
  {| dimension := dimension n; x := x n; fixity := fixity n; ID := ID n;
     label := label n; pointLoadIDs := pointLoadIDs n; Fint := Fint n;
     hasReaction := h |}.

Definition setPointLoadIDs (l : list nat) (n : t) : t :=
  {| dimension := dimension n; x := x n; fixity := fixity n; ID := ID n;
     label := label n; pointLoadIDs := l; Fint := Fint n;
     hasReaction := hasReaction n |}.

Definition getLabel (n : t) : Label := label n.
Definition getPosition (n : t) : Z := x n.

(** [self.Fint[[ind, ind + self._Nforce]]] *)
Definition getInternalForces (ind : nat) (n : t) : option (Z * Z) :=
  F ← Fint n;
  F1 ← F !! ind;
  F2 ← F !! (ind + _Nforce n)%nat;
  Some (F1, F2).
End Node.

(** A point load, without [loadPattern], which the registry leaves at
    [None]. *)
Module PointLoad.
Record t := mk {
  P : list Z;
  x : Z;
  nodeID : nat;
  label : Label
}.

Definition _setID (newID : nat) (pl : t) : t :=
  {| P := P pl; x := x pl; nodeID := newID; label := label pl |}.

Definition getPosition (pl : t) : Z := x pl.
End PointLoad.

Module EleLoad.
Record t := mk {
  x1 : Z;
  x2 : Z;
  P : list Z;
  label : Label
}.
End EleLoad.

(** The attributes of a beam: [_initArrays], [_initDimensionVariables] and
    the [eleLoads] list of [EulerBeam.__init__]. *)
Record Beam := mkBeam {
  _dimension : Dimension;
  nodeLabels : gmap string nat;
  nodes : list Node.t;
  Nnodes : nat;
  pointLoads : list PointLoad.t;
  distLoads : list EleLoad.t;
  eleLoads : list EleLoad.t;
  nodeCoords : gset Z
}.

Definition _ndf (b : Beam) : nat :=
  match _dimension b with D2 => 3 | D3 => 6 end.

Definition getDOF (b : Beam) : nat := _ndf b.

Definition setNodeLabels (v : gmap string nat) (b : Beam) : Beam :=
  {| _dimension := _dimension b; nodeLabels := v; nodes := nodes b;
     Nnodes := Nnodes b; pointLoads := pointLoads b; distLoads := distLoads b;
     eleLoads := eleLoads b; nodeCoords := nodeCoords b |}.

Definition setNodes (v : list Node.t) (b : Beam) : Beam :=
  {| _dimension := _dimension b; nodeLabels := nodeLabels b; nodes := v;
     Nnodes := Nnodes b; pointLoads := pointLoads b; distLoads := distLoads b;
     eleLoads := eleLoads b; nodeCoords := nodeCoords b |}.

Definition setNnodes (v : nat) (b : Beam) : Beam :=
  {| _dimension := _dimension b; nodeLabels := nodeLabels b; nodes := nodes b;
     Nnodes := v; pointLoads := pointLoads b; distLoads := distLoads b;
     eleLoads := eleLoads b; nodeCoords := nodeCoords b |}.

Definition setPointLoads (v : list PointLoad.t) (b : Beam) : Beam :=
  {| _dimension := _dimension b; nodeLabels := nodeLabels b; nodes := nodes b;
     Nnodes := Nnodes b; pointLoads := v; distLoads := distLoads b;
     eleLoads := eleLoads b; nodeCoords := nodeCoords b |}.

Definition setEleLoads (v : list EleLoad.t) (b : Beam) : Beam :=
  {| _dimension := _dimension b; nodeLabels := nodeLabels b; nodes := nodes b;
     Nnodes := Nnodes b; pointLoads := pointLoads b; distLoads := distLoads b;
     eleLoads := v; nodeCoords := nodeCoords b |}.

Definition setNodeCoords (v : gset Z) (b : Beam) : Beam :=
  {| _dimension := _dimension b; nodeLabels := nodeLabels b; nodes := nodes b;
     Nnodes := Nnodes b; pointLoads := pointLoads b; distLoads := distLoads b;
     eleLoads := eleLoads b; nodeCoords := v |}.

(** ** Methods as state transformers with exceptions *)

Inductive exn := IndexError | TypeError | ValueError | Exception.

Inductive outcome (A : Type) :=
| Return (a : A)
| Raise (e : exn).
Arguments Return {A} a.
Arguments Raise {A} e.

Definition M (A : Type) : Type := Beam → outcome A * Beam.

Definition ret {A} (a : A) : M A := λ b, (Return a, b).
Definition raise {A} (e : exn) : M A := λ b, (Raise e, b).
Definition bind {A B} (m : M A) (k : A → M B) : M B :=
  λ b, match m b with
       | (Return a, b') => k a b'
       | (Raise e, b') => (Raise e, b')
       end.
Definition self : M Beam := λ b, (Return b, b).
Definition modify (f : Beam → Beam) : M unit := λ b, (Return tt, f b).

(** A lookup that raises [e] where Python does. *)
Definition orRaise {A} (e : exn) (o : option A) : M A :=
  match o with Some a => ret a | None => raise e end.

Declare Scope beam_scope.
Delimit Scope beam_scope with beam.
Notation "v <- m ;; k" := (bind m (λ v, k))
  (at level 100, m at next level, right associativity) : beam_scope.
Notation "m ;;; k" := (bind m (λ _, k))
  (at level 100, right associativity) : beam_scope.
Local Open Scope beam_scope.

(** ** The sort *)

(** [np.argsort]: the indices of [xs] in ascending order of their entries.
    NumPy does not fix the order of equal entries; where all entries differ,
    every sorting method returns the same array (see [argsort_unique]). *)
Definition key (xs : list Z) (i : nat) : Z := nth i xs 0.

Definition le_key (xs : list Z) : relation nat := λ i j, key xs i ≤ key xs j.

Global Instance le_key_dec xs : RelDecision (le_key xs).
Proof. intros i j. unfold le_key. apply _. Defined.

Definition argsort (xs : list Z) : list nat :=
  merge_sort (le_key xs) (seq 0 (length xs)).

(** An array of [n] cells filled from the front by a loop over [l]:
    the loop raises [IndexError] when [l] is longer than the array. *)
Definition filled {A} (n : nat) (fill : A) (l : list A) : M (list A) :=
  if decide (length l ≤ n)%nat
  then ret (l ++ replicate (n - length l) fill)
  else raise IndexError.

Definition getNodeIDs : M (list (option nat)) :=
  b <- self ;;
  filled (Nnodes b) None (Node.ID <$> nodes b).

Definition _resetNodeID : M unit :=
  modify (λ b, setNodes (imap (λ ii node, Node._setID (Some (S ii)) node) (nodes b)) b).

(** The loop of [_remapPointLoads]: loads before the first one that finds
    no node are already rewritten when [IndexError] is raised. *)
Fixpoint remapLoop (sortedIDs : list (option nat)) (pls : list PointLoad.t)
  : outcome unit * list PointLoad.t :=
  match pls with
  | [] => (Return tt, [])
  | pointLoad :: rest =>
      match list_find (λ o, o = Some (PointLoad.nodeID pointLoad)) sortedIDs with
      | None => (Raise IndexError, pointLoad :: rest)
      | Some (j, _) =>
          let '(o, rest') := remapLoop sortedIDs rest in
          (o, PointLoad._setID (S j) pointLoad :: rest')
      end
  end.

Definition _remapPointLoads (oldIDs : list (option nat)) (sortedInd : list nat) : M unit :=
  sortedIDs <- orRaise IndexError (mapM (λ i, oldIDs !! i) sortedInd) ;;
  λ b, let '(o, pls) := remapLoop sortedIDs (pointLoads b) in
       (o, setPointLoads pls b).

Definition _remapLabels (sortedInd : list nat) : M unit :=
  b <- self ;;
  newLabel <- orRaise IndexError
    (map_fold (λ label i (acc : option (gmap string nat)),
                 m ← acc; j ← sortedInd !! i; Some (<[label := j]> m))
              (Some ∅) (nodeLabels b)) ;;
  modify (setNodeLabels newLabel).

Definition _sortNodes : M unit :=
  b <- self ;;
  xcoords <- filled (Nnodes b) 0 (Node.x <$> nodes b) ;;
  oldInd <- getNodeIDs ;;
  let sortedInd := argsort xcoords in
  sortedNodes <- orRaise IndexError (mapM (λ i, nodes b !! i) sortedInd) ;;
  modify (setNodes sortedNodes) ;;;
  _resetNodeID ;;;
  _remapLabels sortedInd ;;;
  _remapPointLoads oldInd sortedInd.

(** ** Insertion and merge *)

(** [_findNode]: the index of the first node at [xInput], or [None]. *)
Definition _findNode (xInput : Z) (b : Beam) : option nat :=
  fst <$> list_find (λ node, xInput = Node.x node) (nodes b).

(** [self.nodes[index]] for the value returned by [_findNode]: indexing a
    list with [None] raises [TypeError]. *)
Definition nodeAt (index : option nat) : M (nat * Node.t) :=
  ii <- orRaise TypeError index ;;
  b <- self ;;
  node <- orRaise IndexError (nodes b !! ii) ;;
  ret (ii, node).

(** An assignment to an attribute of [self.nodes[index]]. *)
Definition setNodeAttr (index : option nat) (f : Node.t → Node.t) : M unit :=
  hit <- nodeAt index ;;
  modify (λ b, setNodes (alter f hit.1 (nodes b)) b).

Definition _addNewNode (newNode : Node.t) (sort : bool) : M unit :=
  modify (λ b, setNnodes (S (Nnodes b)) b) ;;;
  b <- self ;;
  let newNode := Node._setID (Some (Nnodes b)) newNode in
  modify (λ b, setNodes (nodes b ++ [newNode]) b) ;;;
  modify (λ b, setNodeCoords (nodeCoords b ∪ {[Node.x newNode]}) b) ;;;
  if sort then _sortNodes else ret tt.

Definition addNode (x : Z) (fixity : option (list Z)) (label : Label) (sort : bool) : M Z :=
  b <- self ;;
  let fixity := default (zeros (_ndf b)) fixity in
  let newNode := Node.init (_dimension b) x fixity label in
  if decide (x ∈ nodeCoords b) then
    hit <- nodeAt (_findNode x b) ;;
    let index := hit.1 in
    let nodeID := Node.ID hit.2 in
    let newNode := Node._setID nodeID newNode in
    let newNode := match label with
                   | Some _ => Node.setLabel label newNode
                   | None => newNode
                   end in
    modify (λ b, setNodes (<[index := newNode]> (nodes b)) b) ;;;
    ret 0
  else
    _addNewNode newNode sort ;;;
    ret 1.

Definition addLabel (x : Z) (label : Label) (sort : bool) : M Z :=
  b <- self ;;
  let fixity := zeros (_ndf b) in
  let newNode := Node.init (_dimension b) x fixity label in
  if decide (x ∈ nodeCoords b) then
    setNodeAttr (_findNode x b) (Node.setLabel label) ;;;
    ret 0
  else
    _addNewNode newNode sort ;;;
    ret 1.

(** The loop of [addNodes] over [range(newNoads)]. *)
Fixpoint addNodesLoop (xCoords : list Z) (fixities : list (option (list Z)))
    (labels : list Label) (iis : list nat) : M unit :=
  match iis with
  | [] => ret tt
  | ii :: rest =>
      x <- orRaise IndexError (xCoords !! ii) ;;
      fixity <- orRaise IndexError (fixities !! ii) ;;
      label <- orRaise IndexError (labels !! ii) ;;
      addNode x fixity label false ;;;
      addNodesLoop xCoords fixities labels rest
  end.

Definition addNodes (xCoords : list Z) (fixities : option (list (option (list Z))))
    (labels : option (list Label)) : M unit :=
  b <- self ;;
  let newNoads := length xCoords in
  let fixities := default (replicate newNoads (Some (zeros (_ndf b)))) fixities in
  let labels := default (replicate newNoads None) labels in
  addNodesLoop xCoords fixities labels (seq 0 newNoads) ;;;
  _sortNodes.

(** ** Supports *)

(** The fixity argument of [setFixity]: an [int] or a vector. *)
Inductive FixityInput :=
| FInt (v : Z)
| FVec (l : list Z).

Definition _convertFixityInput (fixity : FixityInput) : M (list Z) :=
  b <- self ;;
  match fixity with
  | FInt v => ret (replicate (_ndf b) v)
  | FVec l => ret l
  end.

Definition _checkfixityInput (fixity : list Z) : M unit :=
  b <- self ;;
  if negb (forallb (λ v, (v =? 0) || (v =? 1)) fixity) then raise ValueError
  else if (length fixity =? 2)%nat || (_ndf b <? length fixity)%nat then raise ValueError
  else ret tt.

Definition setFixity (x : Z) (fixity : FixityInput) (label : Label) : M unit :=
  fixity <- _convertFixityInput fixity ;;
  _checkfixityInput fixity ;;;
  b <- self ;;
  if decide (x ∈ nodeCoords b) then
    let index := _findNode x b in
    setNodeAttr index (Node.setFixity fixity) ;;;
    setNodeAttr index (Node.setHasReaction true) ;;;
    if truthy label then setNodeAttr index (Node.setLabel label) else ret tt
  else
    addNode x (Some fixity) label true ;;;
    ret tt.

(** ** Loads *)

(** The load argument of [addPointLoad]: a vector, or a value without
    [__iter__]. *)
Inductive LoadInput :=
| Scalar (v : Z)
| Vector (l : list Z).

Definition addPointLoad (x : Z) (pointLoad : LoadInput) (label : Label) : M unit :=
  match pointLoad with
  | Scalar _ => raise Exception
  | Vector P =>
      b <- self ;;
      let loadID := (length (pointLoads b) + 1)%nat in
      nodeIndex <- (if decide (x ∈ nodeCoords b) then ret (_findNode x b)
                    else addNode x None (Some EmptyString) true ;;;
                         b <- self ;;
                         ret (_findNode x b)) ;;
      setNodeAttr nodeIndex
        (λ node, Node.setPointLoadIDs (Node.pointLoadIDs node ++ [loadID]) node) ;;;
      (if truthy label then setNodeAttr nodeIndex (Node.setLabel label) else ret tt) ;;;
      hit <- nodeAt nodeIndex ;;
      let nodeID := (hit.1 + 1)%nat in
      let newLoad := PointLoad.mk P x nodeID (Some EmptyString) in
      modify (λ b, setPointLoads (pointLoads b ++ [newLoad]) b)
  end.

Definition addDistLoad (x1 x2 : Z) (distLoad : list Z) (label : Label) : M unit :=
  b <- self ;;
  let defaultFixity := zeros (_ndf b) in
  (if decide (x1 ∉ nodeCoords b)
   then addNode x1 (Some defaultFixity) (Some EmptyString) true ;;; ret tt
   else ret tt) ;;;
  b <- self ;;
  (if decide (x2 ∉ nodeCoords b)
   then addNode x2 (Some defaultFixity) (Some EmptyString) true ;;; ret tt
   else ret tt) ;;;
  let newEleLoad := EleLoad.mk x1 x2 distLoad label in
  modify (λ b, setEleLoads (eleLoads b ++ [newEleLoad]) b).

(** ** Queries *)

(** [self.nodes[-1].x - self.nodes[0].x] *)
Definition getLength (b : Beam) : outcome Z :=
  match last (nodes b), head (nodes b) with
  | Some rightmost, Some leftmost => Return (Node.x rightmost - Node.x leftmost)
  | _, _ => Raise IndexError
  end.

Definition getxLims (b : Beam) : outcome (Z * Z) :=
  match head (nodes b), last (nodes b) with
  | Some leftmost, Some rightmost => Return (Node.x leftmost, Node.x rightmost)
  | _, _ => Raise IndexError
  end.

(** One turn of the loop of [Fmax]; [acc] is [(Fmin, Fmax)]. *)
Definition FmaxStep (ndf index : nat) (acc : Z * Z) (node : Node.t) : outcome (Z * Z) :=
  match Node.Fint node with
  | None => Raise TypeError
  | Some Fint =>
      match Fint !! index, Fint !! (index + ndf)%nat with
      | Some F1, Some F2 =>
          let '(Fmin, Fmax) := acc in
          let Fmin := if (F1 <? Fmin) || (F2 <? Fmin) then Z.min F1 F2 else Fmin in
          let Fmax := if (Fmax <? F1) || (Fmax <? F2) then Z.max F1 F2 else Fmax in
          Return (Fmin, Fmax)
      | _, _ => Raise IndexError
      end
  end.

Fixpoint FmaxLoop (ndf index : nat) (acc : Z * Z) (ns : list Node.t) : outcome (Z * Z) :=
  match ns with
  | [] => Return acc
  | node :: rest =>
      match FmaxStep ndf index acc node with
      | Return acc' => FmaxLoop ndf index acc' rest
      | Raise e => Raise e
      end
  end.

Definition Fmax (index : nat) (b : Beam) : outcome (Z * Z) :=
  FmaxLoop (_ndf b) index (0, 0) (nodes b).

Definition getNodes (b : Beam) : list Node.t := nodes b.

(** ** Construction *)

(** The beam after [_initArrays], [_initDimensionVariables] and the two
    list assignments of [EulerBeam.__init__]. *)
Definition blank (dimension : Dimension) : Beam :=
  {| _dimension := dimension; nodeLabels := ∅; nodes := []; Nnodes := 0;
     pointLoads := []; distLoads := []; eleLoads := []; nodeCoords := ∅ |}.

Definition _initFixities (fixities : list (option (list Z))) (NnewNodes : nat)
  : M (list (option (list Z))) :=
  b <- self ;;
  let fixities := if (length fixities =? 0)%nat
                  then replicate NnewNodes (Some (zeros (_ndf b))) else fixities in
  if negb (length fixities =? NnewNodes)%nat then raise Exception else ret fixities.

(** [EulerBeam.__init__]; the section properties are not part of the
    registry. *)
Definition EulerBeam (xcoords : option (list Z)) (fixities : option (list (option (list Z))))
    (labels : option (list Label)) (dimension : Dimension) : outcome unit * Beam :=
  (let xcoords := default [] xcoords in
   let fixities := default [] fixities in
   let labels := default [] labels in
   let NnewNodes := length xcoords in
   fixities <- _initFixities fixities NnewNodes ;;
   let labels := if (length labels =? 0)%nat then replicate NnewNodes None else labels in
   if negb (length xcoords =? 0)%nat
   then addNodes xcoords (Some fixities) (Some labels)
   else ret tt) (blank dimension).

(** ** Directional loads *)

(** [addVerticalLoad], [addMoment] and [addHorizontalLoad] choose the
    vector by [_ndf], which is 3 on a planar and 6 on a spatial beam. *)
Definition addVerticalLoad (x Py : Z) (label : Label) : M unit :=
  b <- self ;;
  let pointLoad := match _dimension b with
                   | D2 => [0; Py; 0]
                   | D3 => [0; Py; 0; 0; 0; 0]
                   end in
  addPointLoad x (Vector pointLoad) label.

Definition addMoment (x M' : Z) (label : Label) : M unit :=
  b <- self ;;
  let pointLoad := match _dimension b with
                   | D2 => [0; 0; M']
                   | D3 => [0; 0; 0; 0; 0; M']
                   end in
  addPointLoad x (Vector pointLoad) label.

Definition addHorizontalLoad (x Px : Z) (label : Label) : M unit :=
  b <- self ;;
  let pointLoad := match _dimension b with
                   | D2 => [Px; 0; 0]
                   | D3 => [Px; 0; 0; 0; 0; 0]
                   end in
  addPointLoad x (Vector pointLoad) label.

Definition addDistLoadVertical (x1 x2 qy : Z) (label : Label) : M unit :=
  b <- self ;;
  let distLoad := match _dimension b with
                  | D2 => [0; qy]
                  | D3 => [0; qy; 0]
                  end in
  addDistLoad x1 x2 distLoad label.

Definition addDistLoadHorizontal (x1 x2 qx : Z) (label : Label) : M unit :=
  b <- self ;;
  let distLoad := match _dimension b with
                  | D2 => [qx; 0]
                  | D3 => [qx; 0; 0]
                  end in
  addDistLoad x1 x2 distLoad label.

(** ** Fixity types and force diagrams *)

(** [Node2D.getFixityType] and [Node3D.getFixityType]. *)
Definition getFixityType (n : Node.t) : outcome string :=
  match Node.dimension n with
  | D2 =>
      if decide (Node.fixity n = [0; 0; 0]) then Return "free"
      else if decide (Node.fixity n = [0; 1; 0]) then Return "roller"
      else if decide (Node.fixity n = [1; 1; 0]) then Return "pinned"
      else if decide (Node.fixity n = [1; 1; 1]) then Return "fixed"
      else Return "unsupported"
  | D3 => Raise Exception
  end.

(** The loop of [getInternalForce] over [enumerate(self.nodes)], from the
    node at index [ii] on.  The two arrays have [2 * N] cells.  A slice
    [a[2*ii : 2*ii+2]] beyond the end of an array is empty: the position
    is then assigned to no cell, and the pair of forces does not fit the
    slice ([ValueError]). *)
Fixpoint getInternalForceLoop (index N ii : nat) (ns : list Node.t)
    (xcoords force : list Z) : outcome (list Z * list Z) :=
  match ns with
  | [] => Return (xcoords, force)
  | node :: rest =>
      let ind1 := (2 * ii)%nat in
      let xcoords := <[S ind1 := Node.x node]> (<[ind1 := Node.x node]> xcoords) in
      match Node.Fint node with
      | None => Raise TypeError
      | Some _ =>
          match Node.getInternalForces index node with
          | None => Raise IndexError
          | Some (F1, F2) =>
              if (ii <? N)%nat
              then getInternalForceLoop index N (S ii) rest xcoords
                     (<[S ind1 := F2]> (<[ind1 := F1]> force))
              else Raise ValueError
          end
      end
  end.

Definition getInternalForce (index : nat) (b : Beam) : outcome (list Z * list Z) :=
  getInternalForceLoop index (Nnodes b) 0 (nodes b)
    (replicate (Nnodes b * 2) 0) (replicate (Nnodes b * 2) 0).

Definition getBMD (b : Beam) : outcome (list Z * list Z) :=
  match _dimension b with
  | D2 => getInternalForce 2 b
  | D3 => getInternalForce 5 b
  end.

Definition getSFD (b : Beam) : outcome (list Z * list Z) := getInternalForce 1 b.

Definition Mmax (b : Beam) : outcome (Z * Z) := Fmax 2 b.

Definition Vmax (b : Beam) : outcome (Z * Z) := Fmax 1 b.

(** ** Sequences of calls *)

Inductive call :=
| CaddNode (x : Z) (fixity : option (list Z)) (label : Label) (sort : bool)
| CaddLabel (x : Z) (label : Label) (sort : bool)
| CaddNodes (xCoords : list Z) (fixities : option (list (option (list Z))))
            (labels : option (list Label))
| CsetFixity (x : Z) (fixity : FixityInput) (label : Label)
| CaddPointLoad (x : Z) (pointLoad : LoadInput) (label : Label)
| CaddDistLoad (x1 x2 : Z) (distLoad : list Z) (label : Label)
| CsortNodes.

(** The beam after a call, whether it returned or raised. *)
Definition exec (c : call) (b : Beam) : Beam :=
  match c with
  | CaddNode x fixity label sort => snd (addNode x fixity label sort b)
  | CaddLabel x label sort => snd (addLabel x label sort b)
  | CaddNodes xCoords fixities labels => snd (addNodes xCoords fixities labels b)
  | CsetFixity x fixity label => snd (setFixity x fixity label b)
  | CaddPointLoad x pointLoad label => snd (addPointLoad x pointLoad label b)
  | CaddDistLoad x1 x2 distLoad label => snd (addDistLoad x1 x2 distLoad label b)
  | CsortNodes => snd (_sortNodes b)
  end.

Definition run (cs : list call) (b : Beam) : Beam := foldl (λ b c, exec c b) b cs.

(** ** Vocabulary of the properties *)

(** [node[i].position < node[i+1].position] for every index [i]. *)
Definition ascending (b : Beam) : Prop :=
  ∀ i n m, nodes b !! i = Some n → nodes b !! S i = Some m → Node.x n < Node.x m.

(** [node[i].identifier == i+1] for every index [i]. *)
Definition numbered (b : Beam) : Prop :=
  ∀ i n, nodes b !! i = Some n → Node.ID n = Some (S i).

(** The load refers, by identifier, to the node at the load's coordinate. *)
Definition anchored (b : Beam) (pl : PointLoad.t) : Prop :=
  ∃ i n, nodes b !! i = Some n ∧ Node.x n = PointLoad.x pl
         ∧ Node.ID n = Some (PointLoad.nodeID pl) ∧ PointLoad.nodeID pl = S i.

(** The invariant of the registry. *)
Record Inv (b : Beam) : Prop := {
  inv_count : Nnodes b = length (nodes b);
  inv_nodup : NoDup (Node.x <$> nodes b);
  inv_coords : ∀ z, z ∈ nodeCoords b ↔ z ∈ Node.x <$> nodes b;
  inv_ids : numbered b;
  inv_labels : nodeLabels b = ∅;
  inv_loads : Forall (anchored b) (pointLoads b)
}.

(** Two nodes that differ at most in their identifier. *)
Definition sameNode (n n' : Node.t) : Prop := n' = Node._setID (Node.ID n') n.

(** Two loads that differ at most in the identifier of their node. *)
Definition sameLoad (pl pl' : PointLoad.t) : Prop :=
  pl' = PointLoad._setID (PointLoad.nodeID pl') pl.

(** The nodes [ns] numbered from 1 in their order, as [_resetNodeID]
    leaves them. *)
Definition renumber (ns : list Node.t) : list Node.t :=
  imap (λ ii node, Node._setID (Some (S ii)) node) ns.

(** What a resort changes: the order of the nodes, their identifiers and
    the node identifiers of the loads. *)
Record resorted (b b' : Beam) : Prop := {
  rs_dimension : _dimension b' = _dimension b;
  rs_Nnodes : Nnodes b' = Nnodes b;
  rs_coords : nodeCoords b' = nodeCoords b;
  rs_labels : nodeLabels b' = nodeLabels b;
  rs_eleLoads : eleLoads b' = eleLoads b;
  rs_distLoads : distLoads b' = distLoads b;
  rs_nodes : ∃ ns, ns ≡ₚ nodes b ∧ nodes b' = renumber ns;
  rs_loads : Forall2 sameLoad (pointLoads b) (pointLoads b')
}.

(** The beam after the three assignments of [_addNewNode]: the new node
    takes the count as identifier and goes to the end of the list. *)
Definition appended (newNode : Node.t) (b : Beam) : Beam :=
  setNodeCoords (nodeCoords b ∪ {[Node.x newNode]})
    (setNodes (nodes b ++ [Node._setID (Some (S (Nnodes b))) newNode])
       (setNnodes (S (Nnodes b)) b)).

(** The node that [addNode] puts in the place of [node]. *)
Definition merged (b : Beam) (x : Z) (fixity : option (list Z)) (label : Label)
    (node : Node.t) : Node.t :=
  Node.setLabel label
    (Node._setID (Node.ID node)
       (Node.init (_dimension b) x (default (zeros (_ndf b)) fixity) label)).

(** The elementary changes of the registry.  Each leaves the nodes at
    coordinates outside [ts] as they are, up to a renumbering. *)
Inductive step (ts : list Z) (b : Beam) : Beam → Prop :=
| step_sort :
    step ts b (snd (_sortNodes b))
| step_append newNode :
    Node.x newNode ∈ ts → Node.x newNode ∉ nodeCoords b →
    step ts b (appended newNode b)
| step_replace index node node' :
    nodes b !! index = Some node → Node.x node ∈ ts →
    Node.x node' = Node.x node → Node.ID node' = Node.ID node →
    step ts b (setNodes (<[index := node']> (nodes b)) b)
| step_load pl :
    anchored b pl →
    step ts b (setPointLoads (pointLoads b ++ [pl]) b)
| step_eleLoad el :
    step ts b (setEleLoads (eleLoads b ++ [el]) b).

(** The coordinates a call names. *)
Definition targets (c : call) : list Z :=
  match c with
  | CaddNode x _ _ _ | CaddLabel x _ _ | CsetFixity x _ _ | CaddPointLoad x _ _ => [x]
  | CaddNodes xCoords _ _ => xCoords
  | CaddDistLoad x1 x2 _ _ => [x1; x2]
  | CsortNodes => []
  end.

(** The node at a coordinate. *)
Definition nodeOf (x : Z) (b : Beam) : option Node.t :=
  index ← _findNode x b; nodes b !! index.

(** The internal forces [Fmax] reads at a force index: the left and the
    right value of every node. *)
Definition forcesAt (ndf index : nat) (ns : list Node.t) : list Z :=
  ns ≫= λ node, match Node.Fint node with
                | Some Fint =>
                    match Fint !! index, Fint !! (index + ndf)%nat with
                    | Some F1, Some F2 => [F1; F2]
                    | _, _ => []
                    end
                | None => []
                end.

(** The node after [setFixity] has updated it in place. *)
Definition refixed (fixity : list Z) (label : Label) (node : Node.t) : Node.t :=
  let node := Node.setHasReaction true (Node.setFixity fixity node) in
  if truthy label then Node.setLabel label node else node.

(** The node after [addPointLoad] has attached the load [loadID] to it. *)
Definition attached (loadID : nat) (label : Label) (node : Node.t) : Node.t :=
  let node := Node.setPointLoadIDs (Node.pointLoadIDs node ++ [loadID]) node in
  if truthy label then Node.setLabel label node else node.

(** The beam after [addPointLoad] has attached a load with the vector [P]
    to the node at [index]. *)
Definition loaded (P : list Z) (label : Label) (index : nat) (node : Node.t)
    (b : Beam) : Beam :=
  setPointLoads
    (pointLoads b ++ [PointLoad.mk P (Node.x node) (index + 1) (Some EmptyString)])
    (setNodes (<[index := attached (length (pointLoads b) + 1) label node]> (nodes b)) b).

(** The changes of the registry, one for each thing a method does to a
    beam. *)
Inductive act (b : Beam) : Beam → Prop :=
| act_sort :
    act b (snd (_sortNodes b))
| act_new x fixity label :
    x ∉ nodeCoords b →
    act b (appended (Node.init (_dimension b) x fixity label) b)
| act_merge x fixity label index node :
    nodes b !! index = Some node → Node.x node = x →
    act b (setNodes (<[index := merged b x fixity label node]> (nodes b)) b)
| act_label label index node :
    nodes b !! index = Some node →
    act b (setNodes (<[index := Node.setLabel label node]> (nodes b)) b)
| act_fix fixity label index node :
    nodes b !! index = Some node →
    act b (setNodes (<[index := refixed fixity label node]> (nodes b)) b)
| act_attach P label index node :
    nodes b !! index = Some node →
    act b (loaded P label index node b)
| act_eleLoad el :
    act b (setEleLoads (eleLoads b ++ [el]) b).

(** Every identifier in the [pointLoadIDs] of a node is the place, counted
    from 1, of a point load at the coordinate of the node. *)
Definition attachedLoadsExist (b : Beam) : Prop :=
  ∀ n id, n ∈ nodes b → id ∈ Node.pointLoadIDs n →
    ∃ pl, (1 ≤ id)%nat ∧ pointLoads b !! (id - 1)%nat = Some pl
          ∧ PointLoad.x pl = Node.x n.

(** What the registry keeps of every node besides [Inv]. *)
Record Inv2 (b : Beam) : Prop := {
  inv_dimension : ∀ n, n ∈ nodes b → Node.dimension n = _dimension b;
  inv_Fint : ∀ n, n ∈ nodes b → Node.Fint n = None;
  inv_reaction : ∀ n, n ∈ nodes b →
    Node.hasReaction n = false → Forall (λ v, v = 0) (Node.fixity n);
  inv_attached : attachedLoadsExist b
}.

(** ** Scenarios of the specification and of [test_labeling.py] *)

Definition fix111 : option (list Z) := Some [1; 1; 1].

(** Scenario A: [EulerBeam2D([0, 5], fixities, labels=['A', 'B'])]. *)
Definition scenarioA : Beam :=
  snd (EulerBeam (Some [0; 50]) (Some [fix111; fix111]) (Some [Some "A"; Some "B"]) D2).

(** Scenario E before the insertion: nodes at 0, 2.5 and 5, and the load
    [[0, 10, 0]] at 2.5. *)
Definition scenarioE : Beam :=
  run [CaddPointLoad 25 (Vector [0; 10; 0]) (Some EmptyString)]
      (snd (EulerBeam (Some [0; 25; 50]) None None D2)).

(** * Properties *)

(** ** The index sort *)

Section argsort.
Context (xs : list Z).

Global Instance le_key_total : Total (le_key xs).
Proof. intros i j. unfold le_key. lia. Qed.

Global Instance le_key_trans : Transitive (le_key xs).
Proof. intros i j k. unfold le_key. lia. Qed.

Lemma argsort_Permutation : argsort xs ≡ₚ seq 0 (length xs).
Proof. apply merge_sort_Permutation. Qed.

Lemma argsort_sorted : StronglySorted (le_key xs) (argsort xs).
Proof. apply StronglySorted_merge_sort; apply _. Qed.

Lemma argsort_length : length (argsort xs) = length xs.
Proof. by rewrite argsort_Permutation, length_seq. Qed.

Lemma argsort_elem_of i : i ∈ argsort xs ↔ (i < length xs)%nat.
Proof. rewrite argsort_Permutation, elem_of_seq. lia. Qed.

Lemma argsort_NoDup : NoDup (argsort xs).
Proof. rewrite argsort_Permutation. apply NoDup_seq. Qed.

(** Where the entries differ, the sorted index array is unique: the
    result does not depend on the sorting method. *)
Lemma argsort_unique (inds : list nat) :
  NoDup xs → inds ≡ₚ seq 0 (length xs) → StronglySorted (le_key xs) inds →
  inds = argsort xs.
Proof.
  intros Hnd Hp Hs.
  apply (StronglySorted_unique_strong (le_key xs)); [|done|apply argsort_sorted|].
  - intros i j Hi Hj Hij Hji. rewrite Hp, elem_of_seq in Hi.
    apply argsort_elem_of in Hj. unfold le_key, key in *.
    destruct (lookup_lt_is_Some_2 xs i) as [a Ha]; [lia|].
    destruct (lookup_lt_is_Some_2 xs j) as [c Hc]; [lia|].
    rewrite (nth_lookup_Some _ _ _ _ Ha) in *. rewrite (nth_lookup_Some _ _ _ _ Hc) in *.
    assert (a = c) as -> by lia. by eapply NoDup_lookup.
  - by rewrite Hp, argsort_Permutation.
Qed.
End argsort.

(** Reading a list at a list of indices. *)
Lemma mapM_omap {A B} (f : A → option B) l k : mapM f l = Some k → omap f l = k.
Proof.
  rewrite mapM_Some. induction 1 as [|a y l k Hf _ IH]; [done|].
  cbn. rewrite Hf. cbn. by rewrite IH.
Qed.

Lemma omap_lookup_seq {A} (l : list A) : omap (λ i, l !! i) (seq 0 (length l)) = l.
Proof.
  induction l as [|a l IH] using rev_ind; [done|].
  rewrite length_app, Nat.add_1_r, seq_S, omap_app. cbn.
  rewrite lookup_app_r, Nat.sub_diag by lia. cbn.
  f_equal. rewrite <- IH at 2.
  apply list_omap_ext, Forall2_same_length_lookup. split; [done|].
  intros i j k Hj Hk. rewrite Hj in Hk. simplify_eq.
  apply lookup_seq in Hj as [-> ?]. by rewrite lookup_app_l.
Qed.

(** The nodes picked by an index array that is a permutation of the
    indices are a permutation of the nodes. *)
Lemma gather_Permutation {A} (l k : list A) (inds : list nat) :
  inds ≡ₚ seq 0 (length l) → mapM (λ i, l !! i) inds = Some k → k ≡ₚ l.
Proof.
  intros Hp Hk. apply mapM_omap in Hk as <-.
  rewrite Hp. by rewrite omap_lookup_seq.
Qed.

Lemma gather_is_Some {A} (l : list A) (inds : list nat) :
  (∀ i, i ∈ inds → (i < length l)%nat) → is_Some (mapM (λ i, l !! i) inds).
Proof.
  intros H. apply mapM_is_Some, Forall_forall. intros i Hi.
  apply lookup_lt_is_Some. auto.
Qed.

Lemma gather_lookup {A} (l k : list A) (inds : list nat) j i :
  mapM (λ i, l !! i) inds = Some k → inds !! j = Some i → k !! j = l !! i.
Proof.
  rewrite mapM_Some. intros HF Hj.
  destruct (Forall2_lookup_l _ _ _ _ _ HF Hj) as (y & Hy & Hl). by rewrite Hy, Hl.
Qed.

Lemma gather_length {A} (l k : list A) (inds : list nat) :
  mapM (λ i, l !! i) inds = Some k → length k = length inds.
Proof. rewrite mapM_Some. intros HF. symmetry. by eapply Forall2_length. Qed.

(** ** Laws of the monad *)

Lemma bind_ret {A B} (a : A) (k : A → M B) b : bind (ret a) k b = k a b.
Proof. done. Qed.
Lemma bind_self {B} (k : Beam → M B) b : bind self k b = k b b.
Proof. done. Qed.
Lemma bind_modify {B} f (k : unit → M B) b : bind (modify f) k b = k tt (f b).
Proof. done. Qed.
Lemma bind_raise {A B} e (k : A → M B) b : bind (raise e) k b = (Raise e, b).
Proof. done. Qed.
Lemma bind_orRaise_Some {A B} e (a : A) (k : A → M B) b :
  bind (orRaise e (Some a)) k b = k a b.
Proof. done. Qed.
Lemma bind_orRaise_None {A B} e (k : A → M B) b :
  bind (orRaise e None) k b = (Raise e, b).
Proof. done. Qed.
Lemma bind_eq {A B} (m : M A) (k : A → M B) b a b' :
  m b = (Return a, b') → bind m k b = k a b'.
Proof. unfold bind. by intros ->. Qed.
Lemma bind_eq_raise {A B} (m : M A) (k : A → M B) b e b' :
  m b = (Raise e, b') → bind m k b = (Raise e, b').
Proof. unfold bind. by intros ->. Qed.

Lemma filled_exact {A} (fill : A) (l : list A) b :
  filled (length l) fill l b = (Return l, b).
Proof.
  unfold filled. rewrite decide_True by done.
  by rewrite Nat.sub_diag, app_nil_r.
Qed.

Lemma remapLoop_spec (sortedInd : list nat) (n : nat) (pls : list PointLoad.t) :
  sortedInd ≡ₚ seq 0 n →
  Forall (λ pl, ∃ i, PointLoad.nodeID pl = S i ∧ (i < n)%nat) pls →
  ∃ pls', remapLoop ((λ i, Some (S i)) <$> sortedInd) pls = (Return tt, pls')
          ∧ Forall2 (λ pl pl', sameLoad pl pl' ∧
               ∃ i j, PointLoad.nodeID pl = S i ∧ PointLoad.nodeID pl' = S j
                      ∧ sortedInd !! j = Some i) pls pls'.
Proof.
  intros Hp. induction 1 as [|pl pls (i & Hi & Hlt) _ (pls' & IH & HF)].
  { by exists []. }
  cbn. rewrite list_find_fmap.
  assert (i ∈ sortedInd) as Hin by (rewrite Hp, elem_of_seq; lia).
  destruct (list_find_elem_of (λ i', Some (S i') = Some (PointLoad.nodeID pl)) sortedInd i Hin)
    as [[j i'] Hfind]; [by rewrite Hi|].
  change ((λ o : option nat, o = Some (PointLoad.nodeID pl)) ∘ (λ i0 : nat, Some (S i0)))
    with (λ i', Some (S i') = Some (PointLoad.nodeID pl)).
  rewrite Hfind. cbn. rewrite IH.
  eexists. split; [done|]. constructor; [|done].
  apply list_find_Some in Hfind as (Hj & Heq & _).
  split; [done|]. exists i, j. cbn. split_and!; [done..|].
  rewrite Hj. f_equal. congruence.
Qed.

(** ** The resort *)

Lemma remapLabels_empty sortedInd b :
  nodeLabels b = ∅ → _remapLabels sortedInd b = (Return tt, b).
Proof.
  intros Hl. unfold _remapLabels. rewrite bind_self, Hl, map_fold_empty.
  rewrite bind_orRaise_Some. unfold modify. f_equal.
  destruct b; cbn in *; by subst.
Qed.

Lemma getNodeIDs_eq b :
  Nnodes b = length (nodes b) → getNodeIDs b = (Return (Node.ID <$> nodes b), b).
Proof.
  intros Hc. unfold getNodeIDs. rewrite bind_self, Hc.
  replace (length (nodes b)) with (length (Node.ID <$> nodes b)) at 1
    by apply length_fmap.
  apply filled_exact.
Qed.

Lemma sortNodes_eq b :
  Inv b →
  ∃ ns pls,
    mapM (λ i, nodes b !! i) (argsort (Node.x <$> nodes b)) = Some ns
    ∧ Forall2 (λ pl pl', sameLoad pl pl' ∧
         ∃ i j, PointLoad.nodeID pl = S i ∧ PointLoad.nodeID pl' = S j
                ∧ argsort (Node.x <$> nodes b) !! j = Some i) (pointLoads b) pls
    ∧ _sortNodes b = (Return tt, setPointLoads pls (setNodes (renumber ns) b)).
Proof.
  intros [Hc Hnd Hco Hid Hlab Hld].
  set (xs := Node.x <$> nodes b). set (sortedInd := argsort xs).
  destruct (gather_is_Some (nodes b) sortedInd) as [ns Hns].
  { intros i Hi. apply argsort_elem_of in Hi. subst xs. by rewrite length_fmap in Hi. }
  assert (mapM (λ i, (Node.ID <$> nodes b) !! i) sortedInd
          = Some ((λ i, Some (S i)) <$> sortedInd)) as HIDs.
  { apply mapM_Some, Forall2_fmap_r, Forall_Forall2_diag, Forall_forall.
    intros i Hi. apply argsort_elem_of in Hi. subst xs. rewrite length_fmap in Hi.
    rewrite list_lookup_fmap.
    destruct (lookup_lt_is_Some_2 _ _ Hi) as [n Hn]. rewrite Hn. cbn.
    by rewrite (Hid _ _ Hn). }
  destruct (remapLoop_spec sortedInd (length (nodes b)) (pointLoads b)) as (pls & Hpls & HF).
  { subst sortedInd xs. by rewrite argsort_Permutation, length_fmap. }
  { eapply Forall_impl; [exact Hld|]. intros pl (i & n & Hn & _ & _ & Hi).
    exists i. split; [done|]. by eapply lookup_lt_Some. }
  exists ns, pls. split_and!; [done..|].
  unfold _sortNodes. rewrite bind_self.
  rewrite Hc. replace (length (nodes b)) with (length (Node.x <$> nodes b)) at 1
    by apply length_fmap.
  rewrite (bind_eq _ _ _ _ _ (filled_exact _ _ _)).
  rewrite (bind_eq _ _ _ _ _ (getNodeIDs_eq _ Hc)).
  fold xs sortedInd. rewrite Hns, bind_orRaise_Some, bind_modify.
  unfold _resetNodeID. rewrite bind_modify. cbn [nodes setNodes].
  erewrite bind_eq by (apply remapLabels_empty; exact Hlab).
  unfold _remapPointLoads. rewrite HIDs, bind_orRaise_Some.
  cbn [pointLoads setNodes]. by rewrite Hpls.
Qed.

Lemma StronglySorted_lookup {A} (R : relation A) l i j a c :
  StronglySorted R l → l !! i = Some a → l !! j = Some c → (i < j)%nat → R a c.
Proof.
  intros Hs. revert i j. induction Hs as [|y l _ IH Hall]; intros i j Hi Hj Hlt; [done|].
  destruct j as [|j]; [lia|]. destruct i as [|i]; simplify_eq/=.
  - eapply Forall_lookup_1; eauto.
  - eapply IH; eauto. lia.
Qed.

Lemma fmap_x_renumber ns : Node.x <$> renumber ns = Node.x <$> ns.
Proof. unfold renumber. rewrite fmap_imap. apply imap_const. Qed.

Lemma lookup_renumber ns i :
  renumber ns !! i = Node._setID (Some (S i)) <$> ns !! i.
Proof. unfold renumber. by rewrite list_lookup_imap. Qed.

Lemma sortNodes_spec b :
  Inv b → ∃ b', _sortNodes b = (Return tt, b') ∧ resorted b b' ∧ Inv b' ∧ ascending b'.
Proof.
  intros HI. destruct (sortNodes_eq b HI) as (ns & pls & Hns & HF & ->).
  destruct HI as [Hc Hnd Hco Hid Hlab Hld].
  set (xs := Node.x <$> nodes b) in *. set (sortedInd := argsort xs) in *.
  assert (ns ≡ₚ nodes b) as Hp.
  { eapply gather_Permutation; [|exact Hns].
    subst sortedInd xs. by rewrite argsort_Permutation, length_fmap. }
  eexists. split; [done|]. split_and!.
  - split; cbn; try done.
    + by exists ns.
    + eapply Forall2_impl; [exact HF|]. by intros ?? [? _].
  - split; cbn.
    + unfold renumber. by rewrite length_imap, Hp.
    + by rewrite fmap_x_renumber, Hp.
    + intros z. by rewrite fmap_x_renumber, Hp.
    + unfold numbered. cbn. intros i n. rewrite lookup_renumber.
      intros (n0 & _ & ->)%fmap_Some. done.
    + done.
    + apply Forall_lookup_2. intros k pl' Hk.
      destruct (Forall2_lookup_r _ _ _ _ _ HF Hk) as (pl & Hpl & Hsame & i & j & Hi & Hj & Hij).
      destruct (Forall_lookup_1 _ _ _ _ Hld Hpl) as (i0 & n & Hn & Hx & _ & Hi0).
      assert (i0 = i) as -> by congruence.
      exists j, (Node._setID (Some (S j)) n). cbn. split_and!.
      * rewrite lookup_renumber, (gather_lookup _ _ _ _ _ Hns Hij), Hn. done.
      * rewrite Hsame. done.
      * by rewrite Hj.
      * done.
  - unfold ascending. cbn. intros i n m. rewrite !lookup_renumber.
    intros (n0 & Hn0 & ->)%fmap_Some (m0 & Hm0 & ->)%fmap_Some. cbn.
    destruct (lookup_lt_is_Some_2 sortedInd i) as [a Ha].
    { rewrite <- (gather_length _ _ _ Hns). eapply lookup_lt_Some, Hn0. }
    destruct (lookup_lt_is_Some_2 sortedInd (S i)) as [c Hc'].
    { rewrite <- (gather_length _ _ _ Hns). eapply lookup_lt_Some, Hm0. }
    rewrite (gather_lookup _ _ _ _ _ Hns Ha) in Hn0.
    rewrite (gather_lookup _ _ _ _ _ Hns Hc') in Hm0.
    assert (le_key xs a c) as Hle.
    { eapply (StronglySorted_lookup _ sortedInd i (S i)); eauto using argsort_sorted. }
    assert (key xs a = Node.x n0) as Ha0.
    { unfold key, xs. erewrite nth_lookup_Some; [done|]. by rewrite list_lookup_fmap, Hn0. }
    assert (key xs c = Node.x m0) as Hc0.
    { unfold key, xs. erewrite nth_lookup_Some; [done|]. by rewrite list_lookup_fmap, Hm0. }
    unfold le_key in Hle. rewrite Ha0, Hc0 in Hle.
    assert (Node.x n0 ≠ Node.x m0); [|lia].
    intros Heq. assert (a = c) as ->.
    { eapply (NoDup_lookup xs); [done| |]; unfold xs; rewrite list_lookup_fmap.
      - by rewrite Hn0.
      - rewrite Hm0. cbn. by rewrite Heq. }
    pose proof (NoDup_lookup _ _ _ _ (argsort_NoDup xs) Ha Hc'). lia.
Qed.

(** Running the plain steps of a method. *)
Ltac mred :=
  repeat (first [ rewrite bind_ret | rewrite bind_self | rewrite bind_modify
                | rewrite bind_raise | rewrite bind_orRaise_Some
                | rewrite bind_orRaise_None ]; cbn beta).

(** ** Finding a node *)

Lemma findNode_Some x b index :
  _findNode x b = Some index ↔
  ∃ node, nodes b !! index = Some node ∧ Node.x node = x
          ∧ ∀ j m, nodes b !! j = Some m → (j < index)%nat → Node.x m ≠ x.
Proof.
  unfold _findNode. rewrite fmap_Some. split.
  - intros ([i n] & Hf & ->). apply list_find_Some in Hf as (Hn & Hx & Hlt).
    exists n. split_and!; [done..|]. intros j m Hm Hj Heq. by eapply Hlt.
  - intros (n & Hn & Hx & Hlt). exists (index, n). split; [|done].
    apply list_find_Some. split_and!; [done..|]. intros j m Hm Hj Heq. by eapply Hlt.
Qed.

Lemma findNode_None x b : _findNode x b = None ↔ x ∉ Node.x <$> nodes b.
Proof.
  unfold _findNode. rewrite fmap_None, list_find_None, Forall_forall.
  rewrite list_elem_of_fmap. split.
  - intros H (n & -> & Hn). by eapply H.
  - intros H n Hn Hx. apply H. eauto.
Qed.

Lemma findNode_elem_of x b :
  x ∈ Node.x <$> nodes b →
  ∃ index node, _findNode x b = Some index ∧ nodes b !! index = Some node ∧ Node.x node = x.
Proof.
  intros Hin. destruct (_findNode x b) as [index|] eqn:Hf.
  - apply findNode_Some in Hf as (n & ? & ? & _). eauto.
  - by apply findNode_None in Hf.
Qed.

Lemma findNode_Inv x b :
  Inv b → x ∈ nodeCoords b →
  ∃ index node, _findNode x b = Some index ∧ nodes b !! index = Some node ∧ Node.x node = x.
Proof. intros HI Hx. apply findNode_elem_of. by apply (inv_coords _ HI). Qed.

Lemma findNode_unique x b i n :
  NoDup (Node.x <$> nodes b) → nodes b !! i = Some n → Node.x n = x →
  _findNode x b = Some i.
Proof.
  intros Hnd Hn Hx. destruct (findNode_elem_of x b) as (j & m & Hf & Hm & Hxm).
  { apply list_elem_of_fmap. exists n. split; [done|]. by eapply list_elem_of_lookup_2. }
  rewrite Hf. f_equal.
  eapply (NoDup_lookup _ _ _ x Hnd); rewrite list_lookup_fmap.
  - by rewrite Hm; cbn; rewrite Hxm.
  - by rewrite Hn; cbn; rewrite Hx.
Qed.

Lemma nodeAt_Some index node b :
  nodes b !! index = Some node → nodeAt (Some index) b = (Return (index, node), b).
Proof.
  intros Hn. unfold nodeAt. mred. rewrite Hn. by mred.
Qed.

Lemma setNodeAttr_Some index node f b :
  nodes b !! index = Some node →
  setNodeAttr (Some index) f b = (Return tt, setNodes (<[index := f node]> (nodes b)) b).
Proof.
  intros Hn. unfold setNodeAttr. erewrite bind_eq by by apply nodeAt_Some.
  unfold modify. cbn. do 2 f_equal.
  apply list_eq. intros j. destruct (decide (index = j)) as [->|].
  - rewrite list_lookup_alter_eq, list_lookup_insert_eq by by eapply lookup_lt_Some.
    by rewrite Hn.
  - by rewrite list_lookup_alter_ne, list_lookup_insert_ne.
Qed.

(** ** [addNode], case by case *)

Lemma addNewNode_eq newNode sort b :
  _addNewNode newNode sort b
  = if sort then _sortNodes (appended newNode b) else (Return tt, appended newNode b).
Proof. unfold _addNewNode. mred. by destruct sort. Qed.

Lemma addNode_new x fixity label sort b :
  x ∉ nodeCoords b →
  let newNode := Node.init (_dimension b) x (default (zeros (_ndf b)) fixity) label in
  addNode x fixity label sort b
  = if sort then (bind _sortNodes (λ _, ret 1)) (appended newNode b)
    else (Return 1, appended newNode b).
Proof.
  intros Hx. cbn. unfold addNode. mred. rewrite decide_False by done.
  unfold bind at 1. rewrite addNewNode_eq. by destruct sort.
Qed.

Lemma addNode_merge x fixity label sort b index node :
  x ∈ nodeCoords b → _findNode x b = Some index → nodes b !! index = Some node →
  addNode x fixity label sort b
  = (Return 0, setNodes (<[index := merged b x fixity label node]> (nodes b)) b).
Proof.
  intros Hx Hf Hn. unfold addNode. mred. rewrite decide_True by done.
  rewrite Hf. erewrite bind_eq by by apply nodeAt_Some.
  mred. cbn. unfold ret. do 3 f_equal.
  unfold merged. by destruct label.
Qed.

(** ** The elementary changes keep the invariant *)

Lemma sameNode_refl n : sameNode n n.
Proof. by destruct n. Qed.

Lemma sameNode_trans n1 n2 n3 : sameNode n1 n2 → sameNode n2 n3 → sameNode n1 n3.
Proof. unfold sameNode. intros H1 H2. rewrite H2 at 1. by rewrite H1. Qed.

Lemma sameNode_setID id n : sameNode n (Node._setID id n).
Proof. done. Qed.

Lemma sameLoad_refl pl : sameLoad pl pl.
Proof. by destruct pl. Qed.

Lemma sameLoad_trans p1 p2 p3 : sameLoad p1 p2 → sameLoad p2 p3 → sameLoad p1 p3.
Proof. unfold sameLoad. intros H1 H2. rewrite H2 at 1. by rewrite H1. Qed.

Lemma Inv_appended newNode b :
  Inv b → Node.x newNode ∉ nodeCoords b → Inv (appended newNode b).
Proof.
  intros [Hc Hnd Hco Hid Hlab Hld] Hx. split; cbn.
  - rewrite length_app. cbn. lia.
  - rewrite fmap_app. cbn. apply NoDup_app. split_and!; [done| |apply NoDup_singleton].
    intros z Hz ->%list_elem_of_singleton. by apply Hx, Hco.
  - intros z. rewrite fmap_app, elem_of_app, elem_of_union, Hco. cbn.
    by rewrite elem_of_singleton, list_elem_of_singleton.
  - unfold numbered. cbn. intros i n [Hn|[Hle Hn]]%lookup_app_Some.
    + by apply Hid.
    + destruct (i - length (nodes b))%nat eqn:E; simplify_eq/=.
      rewrite Hc. do 2 f_equal. lia.
  - done.
  - eapply Forall_impl; [exact Hld|]. intros pl (i & n & Hn & ?). exists i, n.
    split; [|done]. cbn. by apply lookup_app_l_Some.
Qed.

Lemma Inv_replace b index node node' :
  Inv b → nodes b !! index = Some node →
  Node.x node' = Node.x node → Node.ID node' = Node.ID node →
  Inv (setNodes (<[index := node']> (nodes b)) b).
Proof.
  intros [Hc Hnd Hco Hid Hlab Hld] Hn Hx HID.
  assert (Node.x <$> <[index := node']> (nodes b) = Node.x <$> nodes b) as Hxs.
  { rewrite list_fmap_insert, Hx. apply list_insert_id. by rewrite list_lookup_fmap, Hn. }
  split; cbn.
  - by rewrite length_insert.
  - by rewrite Hxs.
  - intros z. by rewrite Hxs.
  - unfold numbered. cbn. intros i n. destruct (decide (index = i)) as [->|].
    + rewrite list_lookup_insert_eq by by eapply lookup_lt_Some.
      intros [= <-]. rewrite HID. by apply Hid.
    + rewrite list_lookup_insert_ne by done. apply Hid.
  - done.
  - eapply Forall_impl; [exact Hld|]. intros pl (i & n & Hi & Hxn & HIDn & Hpl).
    unfold anchored. cbn. destruct (decide (index = i)) as [->|].
    + exists i, node'. rewrite list_lookup_insert_eq by by eapply lookup_lt_Some.
      simplify_eq. split_and!; congruence.
    + exists i, n. by rewrite list_lookup_insert_ne.
Qed.

Lemma step_Inv ts b b' : Inv b → step ts b b' → Inv b'.
Proof.
  intros HI [|n ? ?|index node node' ? ? ? ?|pl Hpl|el].
  - destruct (sortNodes_spec b HI) as (b'' & -> & _ & ? & _). done.
  - by apply Inv_appended.
  - by eapply Inv_replace.
  - destruct HI. split; try done. cbn. apply Forall_app. split; [done|].
    by apply Forall_singleton.
  - by destruct HI.
Qed.

Lemma step_frame ts b b' n :
  Inv b → step ts b b' → n ∈ nodes b → Node.x n ∉ ts →
  ∃ n', n' ∈ nodes b' ∧ sameNode n n'.
Proof.
  intros HI Hs Hn Hx. destruct Hs as [|m ? ?|index node node' Hnode Hts ? ?|pl Hpl|el].
  - destruct (sortNodes_spec b HI) as (b'' & -> & Hr & _ & _). cbn.
    destruct (rs_nodes _ _ Hr) as (ns & Hp & ->).
    rewrite <- Hp in Hn. apply list_elem_of_lookup in Hn as [j Hj].
    exists (Node._setID (Some (S j)) n). split; [|done].
    apply list_elem_of_lookup. exists j. by rewrite lookup_renumber, Hj.
  - exists n. split; [|apply sameNode_refl]. cbn. apply elem_of_app. by left.
  - exists n. split; [|apply sameNode_refl]. cbn.
    apply list_elem_of_lookup in Hn as [j Hj]. apply list_elem_of_lookup. exists j.
    rewrite list_lookup_insert_ne; [done|]. intros ->. simplify_eq. done.
  - exists n. split; [done|apply sameNode_refl].
  - exists n. split; [done|apply sameNode_refl].
Qed.

Lemma step_loads ts b b' k pl :
  Inv b → step ts b b' → pointLoads b !! k = Some pl →
  ∃ pl', pointLoads b' !! k = Some pl' ∧ sameLoad pl pl'.
Proof.
  intros HI Hs Hk. destruct Hs as [|m ? ?|index node node' Hnode Hts ? ?|pl0 Hpl|el].
  - destruct (sortNodes_spec b HI) as (b'' & -> & Hr & _ & _). cbn.
    destruct (Forall2_lookup_l _ _ _ _ _ (rs_loads _ _ Hr) Hk) as (pl' & ? & ?). eauto.
  - exists pl. split; [done|apply sameLoad_refl].
  - exists pl. split; [done|apply sameLoad_refl].
  - exists pl. split; [|apply sameLoad_refl]. cbn. by apply lookup_app_l_Some.
  - exists pl. split; [done|apply sameLoad_refl].
Qed.

Lemma step_mono ts ts' b b' : ts ⊆ ts' → step ts b b' → step ts' b b'.
Proof.
  intros Hsub [|n ? ?|index node node' ? ? ? ?|pl Hpl|el].
  - apply step_sort.
  - apply step_append; auto.
  - eapply step_replace; eauto.
  - by apply step_load.
  - apply step_eleLoad.
Qed.

(** Sequences of elementary changes. *)
Lemma steps_Inv ts b b' : Inv b → rtc (step ts) b b' → Inv b'.
Proof. intros HI Hs. induction Hs; eauto using step_Inv. Qed.

Lemma steps_frame ts b b' n :
  Inv b → rtc (step ts) b b' → n ∈ nodes b → Node.x n ∉ ts →
  ∃ n', n' ∈ nodes b' ∧ sameNode n n'.
Proof.
  intros HI Hs. revert n. induction Hs as [b|b b1 b' H1 _ IH]; intros n Hn Hx.
  - exists n. split; [done|apply sameNode_refl].
  - destruct (step_frame _ _ _ _ HI H1 Hn Hx) as (n1 & Hn1 & Hs1).
    destruct (IH (step_Inv _ _ _ HI H1) n1 Hn1) as (n' & ? & ?).
    { rewrite Hs1. done. }
    exists n'. split; [done|]. by eapply sameNode_trans.
Qed.

Lemma steps_loads ts b b' k pl :
  Inv b → rtc (step ts) b b' → pointLoads b !! k = Some pl →
  ∃ pl', pointLoads b' !! k = Some pl' ∧ sameLoad pl pl'.
Proof.
  intros HI Hs. revert pl. induction Hs as [b|b b1 b' H1 _ IH]; intros pl Hk.
  - exists pl. split; [done|apply sameLoad_refl].
  - destruct (step_loads _ _ _ _ _ HI H1 Hk) as (p1 & Hp1 & Hs1).
    destruct (IH (step_Inv _ _ _ HI H1) p1 Hp1) as (pl' & ? & ?).
    exists pl'. split; [done|]. by eapply sameLoad_trans.
Qed.

Lemma steps_mono ts ts' b b' : ts ⊆ ts' → rtc (step ts) b b' → rtc (step ts') b b'.
Proof. intros Hsub. apply rtc_subrel. intros ??. by apply step_mono. Qed.

(** ** Every method is a sequence of elementary changes *)

Lemma addNewNode_run ts newNode sort b :
  Inv b → Node.x newNode ∈ ts → Node.x newNode ∉ nodeCoords b →
  ∃ b', _addNewNode newNode sort b = (Return tt, b') ∧ rtc (step ts) b b'
        ∧ Forall2 sameLoad (pointLoads b) (pointLoads b')
        ∧ (if sort then resorted (appended newNode b) b' ∧ ascending b'
           else b' = appended newNode b).
Proof.
  intros HI Hts Hx. rewrite addNewNode_eq.
  pose proof (Inv_appended _ _ HI Hx) as HI1.
  assert (step ts b (appended newNode b)) as H1 by by apply step_append.
  destruct sort.
  - destruct (sortNodes_spec _ HI1) as (b' & Hs & Hr & _ & Ha).
    exists b'. split_and!; [done| |apply (rs_loads _ _ Hr)|done..].
    eapply rtc_l; [exact H1|]. apply rtc_once.
    replace b' with (snd (_sortNodes (appended newNode b))) by by rewrite Hs.
    apply step_sort.
  - eexists. split_and!; [done| | |done].
    + by apply rtc_once.
    + apply Forall_Forall2_diag, Forall_forall. intros ? _. apply sameLoad_refl.
Qed.

Lemma addNode_run x fixity label sort b :
  Inv b →
  ∃ b', addNode x fixity label sort b
        = (Return (if decide (x ∈ nodeCoords b) then 0 else 1), b')
        ∧ rtc (step [x]) b b'
        ∧ Forall2 sameLoad (pointLoads b) (pointLoads b').
Proof.
  intros HI. destruct (decide (x ∈ nodeCoords b)) as [Hx|Hx].
  - destruct (findNode_Inv _ _ HI Hx) as (index & node & Hf & Hn & Hxn).
    rewrite (addNode_merge _ _ _ _ _ _ _ Hx Hf Hn). eexists. split_and!; [done| |].
    + apply rtc_once. eapply step_replace; [done| |done..].
      rewrite Hxn. by apply list_elem_of_singleton.
    + apply Forall_Forall2_diag, Forall_forall. intros ? _. apply sameLoad_refl.
  - unfold addNode. mred. rewrite decide_False by done.
    destruct (addNewNode_run [x] (Node.init (_dimension b) x (default (zeros (_ndf b)) fixity) label)
                sort b HI) as (b' & Hb' & Hs & Hl & _);
      [by apply list_elem_of_singleton|done|].
    erewrite bind_eq by exact Hb'. by exists b'.
Qed.

Lemma addLabel_run x label sort b :
  Inv b →
  ∃ b', addLabel x label sort b
        = (Return (if decide (x ∈ nodeCoords b) then 0 else 1), b')
        ∧ rtc (step [x]) b b'.
Proof.
  intros HI. unfold addLabel. mred. destruct (decide (x ∈ nodeCoords b)) as [Hx|Hx].
  - destruct (findNode_Inv _ _ HI Hx) as (index & node & Hf & Hn & Hxn).
    rewrite Hf. erewrite bind_eq by by apply setNodeAttr_Some.
    eexists. split; [done|].
    apply rtc_once. eapply step_replace; [done| |done..].
    rewrite Hxn. by apply list_elem_of_singleton.
  - destruct (addNewNode_run [x] (Node.init (_dimension b) x (zeros (_ndf b)) label)
                sort b HI) as (b' & Hb' & Hs & _); [by apply list_elem_of_singleton|done|].
    erewrite bind_eq by exact Hb'. by exists b'.
Qed.

Lemma sortNodes_run ts b : Inv b → rtc (step ts) b (snd (_sortNodes b)).
Proof. intros _. apply rtc_once, step_sort. Qed.

Lemma setNodeAttr_run x f b index node :
  Inv b → nodes b !! index = Some node → Node.x node = x →
  (∀ n, Node.x (f n) = Node.x n ∧ Node.ID (f n) = Node.ID n) →
  ∃ b', setNodeAttr (Some index) f b = (Return tt, b') ∧ rtc (step [x]) b b'
        ∧ nodes b' = <[index := f node]> (nodes b).
Proof.
  intros HI Hn Hx Hkeep. rewrite (setNodeAttr_Some _ _ _ _ Hn). eexists. split_and!; [done| |done].
  destruct (Hkeep node) as [Hkx Hkid].
  apply rtc_once.
  eapply step_replace; [done|rewrite Hx; by apply list_elem_of_singleton|done..].
Qed.

Lemma convertFixityInput_eq fixity b :
  _convertFixityInput fixity b
  = (Return match fixity with FInt v => replicate (_ndf b) v | FVec l => l end, b).
Proof. unfold _convertFixityInput. mred. by destruct fixity. Qed.

Lemma checkfixityInput_eq fixity b :
  _checkfixityInput fixity b
  = (if negb (forallb (λ v, (v =? 0) || (v =? 1)) fixity) then Raise ValueError
     else if (length fixity =? 2)%nat || (_ndf b <? length fixity)%nat
          then Raise ValueError else Return tt, b).
Proof.
  unfold _checkfixityInput. mred.
  destruct (negb _); [done|]. by destruct (_ || _).
Qed.

Lemma setFixity_run x fixity label b :
  Inv b → rtc (step [x]) b (snd (setFixity x fixity label b)).
Proof.
  intros HI. unfold setFixity.
  erewrite bind_eq by apply convertFixityInput_eq.
  set (f := match fixity with FInt v => replicate (_ndf b) v | FVec l => l end).
  unfold bind at 1. rewrite checkfixityInput_eq.
  destruct (negb _); [done|]. destruct (_ || _); [done|]. mred.
  destruct (decide (x ∈ nodeCoords b)) as [Hx|Hx].
  - cbv zeta. destruct (findNode_Inv _ _ HI Hx) as (index & node & -> & Hn & Hxn).
    destruct (setNodeAttr_run x (Node.setFixity f) b index node HI Hn Hxn)
      as (b1 & Hb1 & Hs1 & Hn1); [done|].
    erewrite bind_eq by exact Hb1.
    pose proof (steps_Inv _ _ _ HI Hs1) as HI1.
    assert (nodes b1 !! index = Some (Node.setFixity f node)) as Hn1'.
    { rewrite Hn1. apply list_lookup_insert_eq. by eapply lookup_lt_Some. }
    destruct (setNodeAttr_run x (Node.setHasReaction true) b1 index _ HI1 Hn1' Hxn)
      as (b2 & Hb2 & Hs2 & Hn2); [done|].
    erewrite bind_eq by exact Hb2.
    pose proof (steps_Inv _ _ _ HI1 Hs2) as HI2.
    destruct (truthy label).
    + assert (nodes b2 !! index = Some (Node.setHasReaction true (Node.setFixity f node))) as Hn2'.
      { rewrite Hn2. apply list_lookup_insert_eq. by eapply lookup_lt_Some. }
      destruct (setNodeAttr_run x (Node.setLabel label) b2 index _ HI2 Hn2' Hxn)
        as (b3 & -> & Hs3 & _); [done|]. cbn. by do 2 (etrans; [eassumption|]).
    + cbn. by etrans.
  - destruct (addNode_run x (Some f) label true b HI) as (b' & Hb' & Hs & _).
    erewrite bind_eq by exact Hb'. done.
Qed.

Lemma addPointLoad_run x pointLoad label b :
  Inv b →
  rtc (step [x]) b (snd (addPointLoad x pointLoad label b))
  ∧ ∀ P, pointLoad = Vector P →
      ∃ b' pls pl, addPointLoad x pointLoad label b = (Return tt, b')
        ∧ pointLoads b' = pls ++ [pl] ∧ length pls = length (pointLoads b)
        ∧ PointLoad.x pl = x ∧ PointLoad.P pl = P.
Proof.
  intros HI. destruct pointLoad as [v|P]; [by split|].
  unfold addPointLoad. mred.
  assert (∃ b1 index node,
    (if decide (x ∈ nodeCoords b) then ret (_findNode x b)
     else addNode x None (Some EmptyString) true ;;;
          b0 <- self ;; ret (_findNode x b0)) b = (Return (Some index), b1)
    ∧ rtc (step [x]) b b1 ∧ nodes b1 !! index = Some node ∧ Node.x node = x
    ∧ length (pointLoads b1) = length (pointLoads b))
    as (b1 & index & node & Hb1 & Hs1 & Hn & Hxn & Hlen).
  { destruct (decide (x ∈ nodeCoords b)) as [Hx|Hx].
    - destruct (findNode_Inv _ _ HI Hx) as (index & node & -> & Hn & Hxn).
      by exists b, index, node.
    - destruct (addNode_run x None (Some EmptyString) true b HI) as (b1 & Hb1 & Hs1 & Hl).
      rewrite decide_False in Hb1 by done.
      pose proof (steps_Inv _ _ _ HI Hs1) as HI1.
      assert (x ∈ nodeCoords b1) as Hx1.
      { unfold addNode in Hb1. revert Hb1. mred. rewrite decide_False by done.
        destruct (addNewNode_run [x] (Node.init (_dimension b) x (zeros (_ndf b)) (Some EmptyString))
                    true b HI) as (b' & Hb' & _ & _ & Hr & _);
          [by apply list_elem_of_singleton|done|].
        erewrite bind_eq by exact Hb'. intros [= <-].
        rewrite (rs_coords _ _ Hr). cbn. apply elem_of_union_r. by apply elem_of_singleton. }
      destruct (findNode_Inv _ _ HI1 Hx1) as (index & node & Hf & Hn & Hxn).
      exists b1, index, node. erewrite bind_eq by exact Hb1. mred. rewrite Hf.
      split_and!; [done..|]. symmetry. by eapply Forall2_length. }
  erewrite bind_eq by exact Hb1.
  pose proof (steps_Inv _ _ _ HI Hs1) as HI1.
  destruct (setNodeAttr_run x
    (λ node, Node.setPointLoadIDs (Node.pointLoadIDs node ++ [(length (pointLoads b) + 1)%nat]) node)
    b1 index node HI1 Hn Hxn) as (b2 & Hb2 & Hs2 & Hn2); [done|].
  erewrite bind_eq by exact Hb2.
  pose proof (steps_Inv _ _ _ HI1 Hs2) as HI2.
  assert (∃ b3 node3, (if truthy label then setNodeAttr (Some index) (Node.setLabel label)
                       else ret tt) b2 = (Return tt, b3)
          ∧ rtc (step [x]) b2 b3 ∧ nodes b3 !! index = Some node3 ∧ Node.x node3 = x
          ∧ pointLoads b3 = pointLoads b1)
    as (b3 & node3 & Hb3 & Hs3 & Hn3 & Hxn3 & Hpl3).
  { assert (nodes b2 !! index = Some
       (Node.setPointLoadIDs (Node.pointLoadIDs node ++ [(length (pointLoads b) + 1)%nat]) node))
      as Hn2'.
    { rewrite Hn2. apply list_lookup_insert_eq. by eapply lookup_lt_Some. }
    assert (pointLoads b2 = pointLoads b1) as Hp2.
    { rewrite (setNodeAttr_Some _ _ _ _ Hn) in Hb2. by injection Hb2 as <-. }
    destruct (truthy label).
    - destruct (setNodeAttr_run x (Node.setLabel label) b2 index _ HI2 Hn2' Hxn)
        as (b3 & Hb3 & Hs3 & Hn3); [done|].
      exists b3, (Node.setLabel label
        (Node.setPointLoadIDs (Node.pointLoadIDs node ++ [(length (pointLoads b) + 1)%nat]) node)).
      split_and!; [done..| |done|].
      + rewrite Hn3. apply list_lookup_insert_eq. by eapply lookup_lt_Some.
      + rewrite (setNodeAttr_Some _ _ _ _ Hn2') in Hb3. by injection Hb3 as <-.
    - by eexists b2, _. }
  erewrite bind_eq by exact Hb3.
  erewrite bind_eq by by apply nodeAt_Some. mred.
  pose proof (steps_Inv _ _ _ HI2 Hs3) as HI3.
  split.
  - cbn. etrans; [exact Hs1|]. etrans; [exact Hs2|]. etrans; [exact Hs3|].
    apply rtc_once, step_load. exists index, node3. cbn.
    split_and!; [done..| |lia]. rewrite (inv_ids _ HI3 _ _ Hn3). f_equal. lia.
  - intros P' [= <-]. eexists _, _, _. cbn. split_and!; [done..| |done|done].
    by rewrite Hpl3.
Qed.

Lemma addDistLoad_run x1 x2 distLoad label b :
  Inv b → rtc (step [x1; x2]) b (snd (addDistLoad x1 x2 distLoad label b)).
Proof.
  intros HI. unfold addDistLoad. mred.
  assert (∃ b1, (if decide (x1 ∉ nodeCoords b)
                 then addNode x1 (Some (zeros (_ndf b))) (Some EmptyString) true ;;; ret tt
                 else ret tt) b = (Return tt, b1) ∧ rtc (step [x1; x2]) b b1)
    as (b1 & Hb1 & Hs1).
  { destruct (decide (x1 ∉ nodeCoords b)); [|by exists b].
    destruct (addNode_run x1 (Some (zeros (_ndf b))) (Some EmptyString) true b HI)
      as (b1 & Hb1 & Hs1 & _).
    exists b1. erewrite bind_eq by exact Hb1. split; [done|].
    eapply steps_mono; [|exact Hs1].
    intros z ->%list_elem_of_singleton. apply list_elem_of_here. }
  erewrite bind_eq by exact Hb1. mred.
  pose proof (steps_Inv _ _ _ HI Hs1) as HI1.
  assert (∃ b2, (if decide (x2 ∉ nodeCoords b1)
                 then addNode x2 (Some (zeros (_ndf b))) (Some EmptyString) true ;;; ret tt
                 else ret tt) b1 = (Return tt, b2) ∧ rtc (step [x1; x2]) b1 b2)
    as (b2 & Hb2 & Hs2).
  { destruct (decide (x2 ∉ nodeCoords b1)); [|by exists b1].
    destruct (addNode_run x2 (Some (zeros (_ndf b))) (Some EmptyString) true b1 HI1)
      as (b2 & Hb2 & Hs2 & _).
    exists b2. erewrite bind_eq by exact Hb2. split; [done|].
    eapply steps_mono; [|exact Hs2].
    intros z ->%list_elem_of_singleton. apply list_elem_of_further, list_elem_of_here. }
  erewrite bind_eq by exact Hb2. cbn.
  etrans; [exact Hs1|]. etrans; [exact Hs2|]. apply rtc_once, step_eleLoad.
Qed.

Lemma addNodesLoop_run xCoords fixities labels iis b :
  Inv b →
  ∃ o b', addNodesLoop xCoords fixities labels iis b = (o, b')
          ∧ rtc (step xCoords) b b'
          ∧ (Forall (λ ii, (ii < length xCoords)%nat ∧ (ii < length fixities)%nat
                           ∧ (ii < length labels)%nat) iis → o = Return tt).
Proof.
  revert b. induction iis as [|ii iis IH]; intros b HI.
  { exists (Return tt), b. by split_and!. }
  cbn [addNodesLoop].
  destruct (xCoords !! ii) as [x|] eqn:Hx; mred.
  2:{ eexists _, _. split_and!; [done..|]. intros [(Hlt & _) _]%Forall_cons.
      apply lookup_lt_is_Some_2 in Hlt as [? ?]. congruence. }
  destruct (fixities !! ii) as [fixity|] eqn:Hf; mred.
  2:{ eexists _, _. split_and!; [done..|]. intros [(_ & Hlt & _) _]%Forall_cons.
      apply lookup_lt_is_Some_2 in Hlt as [? ?]. congruence. }
  destruct (labels !! ii) as [label|] eqn:Hl; mred.
  2:{ eexists _, _. split_and!; [done..|]. intros [(_ & _ & Hlt) _]%Forall_cons.
      apply lookup_lt_is_Some_2 in Hlt as [? ?]. congruence. }
  destruct (addNode_run x fixity label false b HI) as (b1 & Hb1 & Hs1 & _).
  erewrite bind_eq by exact Hb1.
  destruct (IH b1 (steps_Inv _ _ _ HI Hs1)) as (o & b' & Hb' & Hs' & Hok).
  exists o, b'. split_and!; [done| |].
  - etrans; [|exact Hs']. eapply steps_mono; [|exact Hs1].
    intros z ->%list_elem_of_singleton. by eapply list_elem_of_lookup_2.
  - intros [_ ?]%Forall_cons. auto.
Qed.

Lemma addNodes_run xCoords fixities labels b :
  Inv b →
  ∃ o b', addNodes xCoords fixities labels b = (o, b')
          ∧ rtc (step xCoords) b b'
          ∧ (o = Return tt → ascending b')
          ∧ ((∀ fs, fixities = Some fs → (length xCoords ≤ length fs)%nat) →
             (∀ ls, labels = Some ls → (length xCoords ≤ length ls)%nat) →
             o = Return tt).
Proof.
  intros HI. unfold addNodes. mred.
  set (fs := default (replicate (length xCoords) (Some (zeros (_ndf b)))) fixities).
  set (ls := default (replicate (length xCoords) None) labels).
  destruct (addNodesLoop_run xCoords fs ls (seq 0 (length xCoords)) b HI)
    as (o & b1 & Hb1 & Hs1 & Hok).
  destruct o as [[]|e].
  - erewrite bind_eq by exact Hb1.
    destruct (sortNodes_spec b1 (steps_Inv _ _ _ HI Hs1)) as (b' & Hb' & _ & _ & Ha).
    exists (Return tt), b'. split_and!; [done| |done..].
    etrans; [exact Hs1|]. replace b' with (snd (_sortNodes b1)) by by rewrite Hb'.
    apply rtc_once, step_sort.
  - erewrite bind_eq_raise by exact Hb1. exists (Raise e), b1. split_and!; [done..|].
    intros Hlf Hll. apply Hok, Forall_forall. intros ii [_ Hii]%elem_of_seq.
    subst fs ls. destruct fixities as [fs|], labels as [ls|]; cbn;
      rewrite ?length_replicate;
      try specialize (Hlf _ eq_refl); try specialize (Hll _ eq_refl); lia.
Qed.

(** ** Reachable beams *)

Lemma exec_steps c b : Inv b → rtc (step (targets c)) b (exec c b).
Proof.
  intros HI. destruct c as [x f l s|x l s|xs fs ls|x f l|x p l|x1 x2 d l|]; cbn [exec targets].
  - destruct (addNode_run x f l s b HI) as (b' & -> & ? & _). done.
  - destruct (addLabel_run x l s b HI) as (b' & -> & ?). done.
  - destruct (addNodes_run xs fs ls b HI) as (o & b' & -> & ? & _). done.
  - by apply setFixity_run.
  - by apply addPointLoad_run.
  - by apply addDistLoad_run.
  - by apply sortNodes_run.
Qed.

Lemma exec_Inv c b : Inv b → Inv (exec c b).
Proof. intros HI. eapply steps_Inv; [done|]. by apply exec_steps. Qed.

Lemma Inv_blank dimension : Inv (blank dimension).
Proof.
  split; cbn; try done.
  - apply NoDup_nil_2.
  - intros z. by rewrite elem_of_empty, elem_of_nil.
Qed.

Lemma run_snoc cs c b : run (cs ++ [c]) b = exec c (run cs b).
Proof. unfold run. by rewrite foldl_snoc. Qed.

Lemma run_app cs1 cs2 b : run (cs1 ++ cs2) b = run cs2 (run cs1 b).
Proof. unfold run. by rewrite foldl_app. Qed.

Lemma run_Inv cs b : Inv b → Inv (run cs b).
Proof.
  revert b. induction cs as [|c cs IH]; intros b HI; [done|].
  cbn. apply IH. by apply exec_Inv.
Qed.

Lemma Inv_reachable dimension cs : Inv (run cs (blank dimension)).
Proof. apply run_Inv, Inv_blank. Qed.

Lemma run_steps_loads cs b k pl :
  Inv b → pointLoads b !! k = Some pl →
  ∃ pl', pointLoads (run cs b) !! k = Some pl' ∧ sameLoad pl pl'.
Proof.
  revert b pl. induction cs as [|c cs IH]; intros b pl HI Hk.
  { exists pl. split; [done|apply sameLoad_refl]. }
  destruct (steps_loads _ _ _ _ _ HI (exec_steps c b HI) Hk) as (p1 & Hp1 & Hs1).
  destruct (IH _ _ (exec_Inv c b HI) Hp1) as (pl' & ? & ?).
  exists pl'. split; [done|]. by eapply sameLoad_trans.
Qed.

Lemma run_frame cs b n :
  Inv b → n ∈ nodes b → Forall (λ c, Node.x n ∉ targets c) cs →
  ∃ n', n' ∈ nodes (run cs b) ∧ sameNode n n'.
Proof.
  revert b n. induction cs as [|c cs IH]; intros b n HI Hn Hts.
  { exists n. split; [done|apply sameNode_refl]. }
  apply Forall_cons in Hts as [Hc Hts].
  destruct (steps_frame _ _ _ _ HI (exec_steps c b HI) Hn Hc) as (n1 & Hn1 & Hs1).
  destruct (IH _ n1 (exec_Inv c b HI) Hn1) as (n' & ? & ?).
  { rewrite Hs1. done. }
  exists n'. split; [done|]. by eapply sameNode_trans.
Qed.

Lemma Inv_size b : Inv b → size (nodeCoords b) = length (nodes b).
Proof.
  intros HI. rewrite <- (length_fmap Node.x).
  rewrite <- (size_list_to_set (C := gset Z)) by apply (inv_nodup _ HI).
  f_equal. apply set_eq. intros z. rewrite elem_of_list_to_set. apply (inv_coords _ HI).
Qed.

Lemma Inv_node_unique b n m :
  Inv b → n ∈ nodes b → m ∈ nodes b → Node.x n = Node.x m → n = m.
Proof.
  intros HI [i Hi]%list_elem_of_lookup [j Hj]%list_elem_of_lookup Hx.
  assert (i = j) as ->; [|congruence].
  eapply (NoDup_lookup _ _ _ (Node.x n) (inv_nodup _ HI)); rewrite list_lookup_fmap.
  - by rewrite Hi.
  - rewrite Hj. cbn. by rewrite Hx.
Qed.

Lemma nodeOf_Some x b n :
  Inv b → nodeOf x b = Some n ↔ n ∈ nodes b ∧ Node.x n = x.
Proof.
  intros HI. unfold nodeOf. split.
  - intros (index & Hf & Hn)%bind_Some.
    apply findNode_Some in Hf as (m & Hm & Hx & _). simplify_eq.
    split; [|done]. by eapply list_elem_of_lookup_2.
  - intros [[i Hi]%list_elem_of_lookup Hx].
    rewrite (findNode_unique x b i n (inv_nodup _ HI) Hi Hx). done.
Qed.

Lemma initFixities_state fixities NnewNodes b :
  snd (_initFixities fixities NnewNodes b) = b.
Proof. unfold _initFixities. mred. by destruct (negb _). Qed.

Lemma EulerBeam_reachable xcoords fixities labels dimension :
  ∃ cs, snd (EulerBeam xcoords fixities labels dimension) = run cs (blank dimension).
Proof.
  unfold EulerBeam. cbv zeta. unfold bind at 1.
  pose proof (initFixities_state (default [] fixities) (length (default [] xcoords))
                (blank dimension)) as Hst.
  destruct (_initFixities _ _ _) as [[fs|e] b0]; cbn in Hst; subst b0.
  - destruct (negb _).
    + by eexists [CaddNodes _ _ _].
    + by exists [].
  - by exists [].
Qed.

Lemma Inv_EulerBeam xcoords fixities labels dimension :
  Inv (snd (EulerBeam xcoords fixities labels dimension)).
Proof.
  destruct (EulerBeam_reachable xcoords fixities labels dimension) as [cs ->].
  apply Inv_reachable.
Qed.

(** * The properties of the specification *)

(** C2, load remap invariant.  A point load added at coordinate [c] by
    [addPointLoad], after any calls before it and any calls after it, is
    still in its place in the list of loads with its coordinate and its
    force vector, and its [nodeID] is the identifier of the one node at
    position [c].  In scenario E (nodes at 0, 2.5 and 5, the load
    [[0, 10, 0]] at 2.5, then a node at 1.0) the load refers to node 3,
    the node at 2.5. *)
Theorem load_remap_invariant :
  (∀ (dimension : Dimension) (before after : list call) (c : Z) (P : list Z) (label : Label),
     let b0 := run before (blank dimension) in
     let b := run after (exec (CaddPointLoad c (Vector P) label) b0) in
     ∃ pl node,
       pointLoads b !! length (pointLoads b0) = Some pl
       ∧ PointLoad.x pl = c ∧ PointLoad.P pl = P
       ∧ nodeOf c b = Some node
       ∧ Node.ID node = Some (PointLoad.nodeID pl))
  ∧ (let b := run [CaddNode 10 None (Some EmptyString) true] scenarioE in
     Node.x <$> nodes b = [0; 10; 25; 50]
     ∧ Node.ID <$> nodes b = [Some 1; Some 2; Some 3; Some 4]%nat
     ∧ PointLoad.nodeID <$> pointLoads scenarioE = [2%nat]
     ∧ PointLoad.nodeID <$> pointLoads b = [3%nat]
     ∧ PointLoad.P <$> pointLoads b = [[0; 10; 0]]
     ∧ Node.ID <$> nodeOf 25 b = Some (Some 3%nat)).
Proof.
  split; [|by vm_compute].
  intros dimension before after c P label b0 b.
  pose proof (Inv_reachable dimension before) as HI0. fold b0 in HI0.
  destruct (addPointLoad_run c (Vector P) label b0 HI0) as [Hs Hret].
  destruct (Hret P eq_refl) as (b1 & pls & pl0 & Hb1 & Hpls & Hlen & Hx & HP).
  assert (exec (CaddPointLoad c (Vector P) label) b0 = b1) as Hexec
    by (cbn [exec]; by rewrite Hb1).
  subst b. rewrite Hexec.
  assert (Inv b1) as HI1 by (rewrite <- Hexec; by apply exec_Inv).
  assert (pointLoads b1 !! length (pointLoads b0) = Some pl0) as Hk.
  { rewrite Hpls, <- Hlen. by apply list_lookup_middle. }
  destruct (run_steps_loads after b1 _ _ HI1 Hk) as (pl & Hpl & Hsame).
  pose proof (run_Inv after b1 HI1) as HI.
  destruct (Forall_lookup_1 _ _ _ _ (inv_loads _ HI) Hpl) as (i & n & Hn & Hxn & HID & _).
  exists pl, n. rewrite Hsame. cbn. split_and!; [by rewrite <- Hsame|done..| |done].
  apply nodeOf_Some; [done|]. split.
  - by eapply list_elem_of_lookup_2.
  - rewrite Hxn, Hsame. done.
Qed.

(** C10, count consistency.  After any sequence of calls on an empty
    beam, [Nnodes] is the length of the node list and the size of the
    coordinate set, and [addNode] returns 0 when the coordinate is present
    and 1 when it is not: it never returns -1 and never raises. *)
Theorem count_consistency (dimension : Dimension) (cs : list call) :
  let b := run cs (blank dimension) in
  Nnodes b = length (nodes b)
  ∧ size (nodeCoords b) = length (nodes b)
  ∧ ∀ x fixity label sort,
      fst (addNode x fixity label sort b)
      = Return (if decide (x ∈ nodeCoords b) then 0 else 1).
Proof.
  intros b. pose proof (Inv_reachable dimension cs) as HI. fold b in HI.
  split_and!.
  - apply (inv_count _ HI).
  - by apply Inv_size.
  - intros x fixity label sort.
    destruct (addNode_run x fixity label sort b HI) as (b' & -> & _). done.
Qed.

(** C3, merge invariant: the code at the failing input.  In scenario E the
    node at 2.5 is node 2 and lists load 1.  [addNode(2.5)] returns 0 and
    keeps the count and the identifier of the node, as claimed, but the
    node at 2.5 then lists no load, while load 1 is still in the beam and
    still names node 2.  The other methods that meet a node at their
    coordinate keep its list: after [addLabel(2.5, 'L')] or
    [setFixity(2.5, [0, 1, 0])] in the place of [addNode(2.5)] the node
    still lists load 1. *)
Theorem merge_drops_attached_loads :
  let b := scenarioE in
  let r := addNode 25 None (Some EmptyString) true b in
  25 ∈ nodeCoords b
  ∧ Node.pointLoadIDs <$> nodeOf 25 b = Some [1%nat]
  ∧ Node.ID <$> nodeOf 25 b = Some (Some 2%nat)
  ∧ fst r = Return 0
  ∧ Nnodes (snd r) = Nnodes b
  ∧ Node.ID <$> nodeOf 25 (snd r) = Some (Some 2%nat)
  ∧ Node.pointLoadIDs <$> nodeOf 25 (snd r) = Some []
  ∧ PointLoad.nodeID <$> pointLoads (snd r) = [2%nat]
  ∧ Node.pointLoadIDs <$> nodeOf 25 (snd (addLabel 25 (Some "L") true b))
    = Some [1%nat]
  ∧ Node.pointLoadIDs <$> nodeOf 25 (snd (setFixity 25 (FVec [0; 1; 0]) None b))
    = Some [1%nat].
Proof. by vm_compute. Qed.

(** X23.  What [addNode] does at a coordinate that is already in the beam.
    After any sequence of calls on an empty beam it returns 0 and changes
    neither [Nnodes], nor the number of nodes, nor the coordinate set, nor
    the list of point loads.  The node at that coordinate is replaced by a
    new one, [merged], which has the identifier of the old node and an
    empty [pointLoadIDs], whatever the old node listed; every other node
    stays as it is. *)
Theorem merge_invariant (dimension : Dimension) (cs : list call)
    (x : Z) (fixity : option (list Z)) (label : Label) (sort : bool) :
  let b := run cs (blank dimension) in
  x ∈ nodeCoords b →
  ∃ b' index node,
    addNode x fixity label sort b = (Return 0, b')
    ∧ Nnodes b' = Nnodes b ∧ length (nodes b') = length (nodes b)
    ∧ nodeCoords b' = nodeCoords b ∧ pointLoads b' = pointLoads b
    ∧ nodeOf x b = Some node
    ∧ nodeOf x b' = Some (merged b x fixity label node)
    ∧ Node.ID (merged b x fixity label node) = Node.ID node
    ∧ Node.pointLoadIDs (merged b x fixity label node) = []
    ∧ nodes b !! index = Some node
    ∧ nodes b' = <[index := merged b x fixity label node]> (nodes b).
Proof.
  intros b Hx. pose proof (Inv_reachable dimension cs) as HI. fold b in HI.
  destruct (findNode_Inv _ _ HI Hx) as (index & node & Hf & Hn & Hxn).
  rewrite (addNode_merge _ _ _ _ _ _ _ Hx Hf Hn).
  eexists _, index, node. split_and!; try done.
  - cbn. by rewrite length_insert.
  - unfold nodeOf. by rewrite Hf.
  - apply nodeOf_Some.
    + eapply Inv_replace; [done..| |done]. by rewrite Hxn.
    + split; [|done]. cbn. eapply list_elem_of_lookup_2.
      apply list_lookup_insert_eq. by eapply lookup_lt_Some.
Qed.

(** X23 at scenario E, merging at 2.5. *)
Lemma merge_invariant_witness :
  let b := run [CaddNodes [0; 25; 50] None None;
                CaddPointLoad 25 (Vector [0; 10; 0]) (Some EmptyString)] (blank D2) in
  (25 ∈ nodeCoords b) ∧
  (∃ b' index node,
    addNode 25 None (Some EmptyString) true b = (Return 0, b')
    ∧ Nnodes b' = Nnodes b ∧ length (nodes b') = length (nodes b)
    ∧ nodeCoords b' = nodeCoords b ∧ pointLoads b' = pointLoads b
    ∧ nodeOf 25 b = Some node
    ∧ nodeOf 25 b' = Some (merged b 25 None (Some EmptyString) node)
    ∧ Node.ID (merged b 25 None (Some EmptyString) node) = Node.ID node
    ∧ Node.pointLoadIDs (merged b 25 None (Some EmptyString) node) = []
    ∧ nodes b !! index = Some node
    ∧ nodes b' = <[index := merged b 25 None (Some EmptyString) node]> (nodes b)).
Proof.
  split; [by vm_compute|].
  apply (merge_invariant D2
    [CaddNodes [0; 25; 50] None None;
     CaddPointLoad 25 (Vector [0; 10; 0]) (Some EmptyString)]).
  by vm_compute.
Defined.

(** C4 as stated fails: in scenario A the node at 0 has label 'A'; after
    the further insertion [addNode(0, fixity, label='C')] no node has
    label 'A' (scenario B, [test_labels_existing]). *)
Lemma label_overwritten_at_its_coordinate :
  let b := scenarioA in
  let b' := run [CaddNode 0 fix111 (Some "C") true] b in
  Node.label <$> nodeOf 0 b = Some (Some "A")
  ∧ Node.label <$> nodes b' = [Some "C"; Some "B"]
  ∧ Node.label <$> nodeOf 0 b' = Some (Some "C").
Proof. by vm_compute. Qed.

(** C4, label remap invariant as the code has it.  Let [b] be the beam
    after any sequence of calls on an empty beam, and [node] its node at
    coordinate [c].  After any further calls that name only coordinates
    other than [c], with all their resorts, the node at [c] is [node] up
    to its identifier: it has the label, the fixity and the attached
    loads of [node].  In scenario C (nodes at 0 and 5 labelled 'A' and
    'B', then nodes at 3 with 'D' and at 6 with 'C') the labels along the
    sorted nodes are 'A', 'D', 'B', 'C'. *)
Theorem label_follows_node :
  (∀ (dimension : Dimension) (before further : list call) (c : Z) (node : Node.t),
     let b := run before (blank dimension) in
     nodeOf c b = Some node →
     Forall (λ call, c ∉ targets call) further →
     ∃ node', nodeOf c (run further b) = Some node'
              ∧ sameNode node node'
              ∧ Node.label node' = Node.label node)
  ∧ (let b := run [CaddNode 30 None (Some "D") true;
                   CaddNode 60 None (Some "C") true] scenarioA in
     Node.label <$> nodes scenarioA = [Some "A"; Some "B"]
     ∧ Node.x <$> nodes b = [0; 30; 50; 60]
     ∧ Node.label <$> nodes b = [Some "A"; Some "D"; Some "B"; Some "C"]).
Proof.
  split; [|by vm_compute].
  intros dimension before further c node b Hnode Hts.
  pose proof (Inv_reachable dimension before) as HI. fold b in HI.
  apply (nodeOf_Some _ _ _ HI) in Hnode as [Hn Hx].
  destruct (run_frame further b node HI Hn) as (node' & Hn' & Hsame).
  { by rewrite Hx. }
  exists node'. split_and!; [|done|by rewrite Hsame].
  apply nodeOf_Some; [by apply run_Inv|]. split; [done|]. by rewrite Hsame.
Qed.

(** C4 at scenario A: the node at 0 keeps 'A' when nodes are added at 3
    and 6 and a support is set at 5. *)
Lemma label_follows_node_witness :
  let before := [CaddNodes [0; 50] (Some [fix111; fix111]) (Some [Some "A"; Some "B"])] in
  let further := [CaddNode 30 None (Some "D") true; CaddNode 60 None (Some "C") true;
                  CsetFixity 50 (FInt 1) None] in
  let b := run before (blank D2) in
  ∃ node, nodeOf 0 b = Some node ∧ Node.label node = Some "A"
    ∧ ∃ node', nodeOf 0 (run further b) = Some node'
               ∧ sameNode node node' ∧ Node.label node' = Node.label node.
Proof.
  intros before further b.
  eexists. split; [by vm_compute|]. split; [by vm_compute|].
  apply (proj1 label_follows_node D2 before further 0).
  - by vm_compute.
  - apply (bool_decide_unpack _). by vm_compute.
Defined.

(** What a merge does with the label: the node at the coordinate has the
    label of the call, whatever it is. *)
Lemma merged_label b x fixity label node :
  Node.label (merged b x fixity label node) = label.
Proof. done. Qed.

(** C5, merge label policy: the code at the failing input.  In scenario A
    the node at 0 has label 'A'.  [addNode(0)] with the empty label leaves
    it with the empty label, and with [None] leaves it with [None]: the
    label 'A' is lost in both.  A non-empty label overwrites, as the claim
    says. *)
Lemma merge_without_label_clears_label :
  let b := scenarioA in
  Node.label <$> nodes b = [Some "A"; Some "B"]
  ∧ Node.label <$> nodes (snd (addNode 0 None (Some EmptyString) true b))
    = [Some EmptyString; Some "B"]
  ∧ Node.label <$> nodes (snd (addNode 0 None None true b)) = [None; Some "B"]
  ∧ Node.label <$> nodes (snd (addNode 0 None (Some "C") true b)) = [Some "C"; Some "B"].
Proof. by vm_compute. Qed.

(** What [setFixity] does with a node that is there: whatever vector
    passes the check, the node has it as fixity and [hasReaction] true. *)
Lemma setFixity_existing x fixity label b :
  Inv b → x ∈ nodeCoords b →
  let f := match fixity with FInt v => replicate (_ndf b) v | FVec l => l end in
  forallb (λ v, (v =? 0) || (v =? 1)) f = true →
  length f ≠ 2%nat → (length f ≤ _ndf b)%nat →
  ∃ b' node', setFixity x fixity label b = (Return tt, b')
    ∧ nodeOf x b' = Some node'
    ∧ Node.fixity node' = f ∧ Node.hasReaction node' = true.
Proof.
  intros HI Hx f Hall H2 Hle. unfold setFixity.
  erewrite bind_eq by apply convertFixityInput_eq. fold f.
  unfold bind at 1. rewrite checkfixityInput_eq, Hall. cbn [negb].
  apply Nat.eqb_neq in H2. rewrite H2.
  assert ((_ndf b <? length f)%nat = false) as -> by (apply Nat.ltb_ge; lia).
  cbn [orb]. mred. rewrite decide_True by done. cbv zeta.
  destruct (findNode_Inv _ _ HI Hx) as (index & node & -> & Hn & Hxn).
  destruct (setNodeAttr_run x (Node.setFixity f) b index node HI Hn Hxn)
    as (b1 & Hb1 & Hs1 & Hn1); [done|].
  erewrite bind_eq by exact Hb1.
  pose proof (steps_Inv _ _ _ HI Hs1) as HI1.
  assert (nodes b1 !! index = Some (Node.setFixity f node)) as Hn1'.
  { rewrite Hn1. apply list_lookup_insert_eq. by eapply lookup_lt_Some. }
  destruct (setNodeAttr_run x (Node.setHasReaction true) b1 index _ HI1 Hn1' Hxn)
    as (b2 & Hb2 & Hs2 & Hn2); [done|].
  erewrite bind_eq by exact Hb2.
  pose proof (steps_Inv _ _ _ HI1 Hs2) as HI2.
  assert (nodes b2 !! index = Some (Node.setHasReaction true (Node.setFixity f node))) as Hn2'.
  { rewrite Hn2. apply list_lookup_insert_eq. by eapply lookup_lt_Some. }
  destruct (truthy label).
  - destruct (setNodeAttr_run x (Node.setLabel label) b2 index _ HI2 Hn2' Hxn)
      as (b3 & Hb3 & Hs3 & Hn3); [done|].
    exists b3, (Node.setLabel label (Node.setHasReaction true (Node.setFixity f node))).
    split_and!; [done| |done..].
    apply nodeOf_Some; [by eapply steps_Inv|]. split; [|done].
    eapply list_elem_of_lookup_2. rewrite Hn3.
    apply list_lookup_insert_eq. by eapply lookup_lt_Some.
  - exists b2, (Node.setHasReaction true (Node.setFixity f node)).
    split_and!; [done| |done..].
    apply nodeOf_Some; [done|]. split; [|done]. by eapply list_elem_of_lookup_2.
Qed.

(** C6, hasReaction: the code at the failing input.  On a beam with one
    free node at 0, [setFixity(0, [0, 0, 0])] returns and leaves the node
    with the fixity [[0, 0, 0]] and [hasReaction] true; [Node.__init__]
    gives the same fixity [hasReaction] false. *)
Lemma setFixity_free_sets_hasReaction :
  let b := run [CaddNode 0 None (Some EmptyString) true] (blank D2) in
  let r := setFixity 0 (FVec [0; 0; 0]) None b in
  Node.hasReaction <$> nodes b = [false]
  ∧ fst r = Return tt
  ∧ Node.fixity <$> nodes (snd r) = [[0; 0; 0]]
  ∧ Node.hasReaction <$> nodes (snd r) = [true]
  ∧ Node.hasReaction (Node.init D2 0 [0; 0; 0] None) = false.
Proof. by vm_compute. Qed.

(** The calls of [setFixity] that the check does reject leave the beam
    as it was. *)
Lemma setFixity_rejected x fixity label b :
  let f := match fixity with FInt v => replicate (_ndf b) v | FVec l => l end in
  (∃ v, v ∈ f ∧ v ≠ 0 ∧ v ≠ 1) ∨ length f = 2%nat ∨ (_ndf b < length f)%nat →
  setFixity x fixity label b = (Raise ValueError, b).
Proof.
  intros f Hbad. unfold setFixity.
  erewrite bind_eq by apply convertFixityInput_eq. fold f.
  erewrite bind_eq_raise; [done|]. rewrite checkfixityInput_eq.
  destruct (forallb _ f) eqn:Hall; [|done]. cbn [negb].
  destruct Hbad as [(v & Hv & H0 & H1)|[H2|Hgt]].
  - rewrite forallb_forall in Hall. apply list_elem_of_In, Hall in Hv. lia.
  - by rewrite H2.
  - apply Nat.ltb_lt in Hgt. rewrite Hgt. by rewrite orb_true_r.
Qed.

(** C7, invalid fixity rejection: the code at the failing input.  On an
    empty planar beam, whose nodes have 3 degrees of freedom,
    [setFixity(0, [1])] returns and adds a node with the fixity [[1]]; on
    a beam with a node at 0 it overwrites the fixity of that node with
    [[1]].  A spatial beam takes a vector of length 3 in the same way. *)
Lemma setFixity_accepts_short_vector :
  let r := setFixity 0 (FVec [1]) None (blank D2) in
  let b1 := run [CaddNode 0 (Some [1; 1; 0]) None true] (blank D2) in
  let r1 := setFixity 0 (FVec [1]) None b1 in
  let r3 := setFixity 0 (FVec [1; 1; 0]) None (blank D3) in
  _ndf (blank D2) = 3%nat
  ∧ fst r = Return tt ∧ Node.fixity <$> nodes (snd r) = [[1]]
  ∧ Node.fixity <$> nodes b1 = [[1; 1; 0]]
  ∧ fst r1 = Return tt ∧ Node.fixity <$> nodes (snd r1) = [[1]]
  ∧ _ndf (blank D3) = 6%nat
  ∧ fst r3 = Return tt ∧ Node.fixity <$> nodes (snd r3) = [[1; 1; 0]].
Proof. by vm_compute. Qed.

(** C8 as stated fails: a beam with the single node at 3.0 has fewer than
    2 nodes, and [getLength] returns 0. *)
Lemma getLength_of_one_node :
  let b := run [CaddNode 30 None (Some EmptyString) true] (blank D2) in
  length (nodes b) = 1%nat ∧ getLength b = Return 0.
Proof. by vm_compute. Qed.

(** C8, length as the code has it.  [getLength] raises [IndexError] on a
    beam without nodes.  On a beam with at least one node it returns the
    position of the last node minus the position of the first, which is 0
    for a single node; when the positions ascend these two are the
    rightmost and the leftmost position. *)
Theorem getLength_spec (b : Beam) :
  (nodes b = [] → getLength b = Raise IndexError)
  ∧ (nodes b ≠ [] →
       ∃ leftmost rightmost,
         head (nodes b) = Some leftmost ∧ last (nodes b) = Some rightmost
         ∧ getLength b = Return (Node.x rightmost - Node.x leftmost)
         ∧ (length (nodes b) = 1%nat → getLength b = Return 0)
         ∧ (ascending b → ∀ n, n ∈ nodes b →
              Node.x leftmost ≤ Node.x n ≤ Node.x rightmost)).
Proof.
  unfold getLength. split.
  - by intros ->.
  - intros Hne. destruct (nodes b) as [|first rest] eqn:Hnodes; [done|].
    assert (is_Some (last (first :: rest))) as [rightmost Hlast].
    { rewrite last_is_Some. done. }
    exists first, rightmost. rewrite Hlast. cbn [head].
    split_and!; [done..| |].
    + intros Hlen. destruct rest; [|done]. cbn in Hlast. simplify_eq. f_equal. lia.
    + intros Ha.
      assert (∀ i j n m, (first :: rest) !! i = Some n → (first :: rest) !! j = Some m →
                (i ≤ j)%nat → Node.x n ≤ Node.x m) as Hmono.
      { intros i j n m Hi Hj Hle. revert m Hj.
        induction Hle as [|j Hle IH]; intros m Hj.
        - simplify_eq. lia.
        - destruct (lookup_lt_is_Some_2 (first :: rest) j) as [k Hk].
          { apply lookup_lt_Some in Hj. lia. }
          specialize (IH k Hk). unfold ascending in Ha. rewrite Hnodes in Ha.
          specialize (Ha j k m Hk Hj). lia. }
      intros n [i Hi]%list_elem_of_lookup. split.
      * eapply (Hmono 0%nat i); [done..|lia].
      * rewrite last_lookup in Hlast. eapply (Hmono i); [done..|].
        apply lookup_lt_Some in Hi. cbn in *. lia.
Qed.

(** C8 at scenario A: the length between the nodes at 0 and 5. *)
Lemma getLength_spec_witness :
  nodes scenarioA ≠ [] ∧ getLength scenarioA = Return 50.
Proof.
  split; [by vm_compute|].
  destruct (proj2 (getLength_spec scenarioA)) as (lo & hi & Hlo & Hhi & -> & _).
  - by vm_compute.
  - vm_compute in Hlo, Hhi. by simplify_eq.
Defined.

(** ** The extremes of an internal force *)

Lemma FmaxLoop_spec ndf index lo0 hi0 ns :
  (∀ n, n ∈ ns → ∃ F, Node.Fint n = Some F ∧ length F = (2 * ndf)%nat) →
  (index < ndf)%nat →
  ∃ lo hi, FmaxLoop ndf index (lo0, hi0) ns = Return (lo, hi)
    ∧ lo ∈ lo0 :: forcesAt ndf index ns ∧ (∀ v, v ∈ lo0 :: forcesAt ndf index ns → lo ≤ v)
    ∧ hi ∈ hi0 :: forcesAt ndf index ns ∧ (∀ v, v ∈ hi0 :: forcesAt ndf index ns → v ≤ hi)
    ∧ length (forcesAt ndf index ns) = (2 * length ns)%nat.
Proof.
  intros Hall Hidx. revert lo0 hi0.
  induction ns as [|node ns IH]; intros lo0 hi0.
  { exists lo0, hi0. cbn. split_and!; [done|by left| |by left| |done].
    - by intros v ->%list_elem_of_singleton.
    - by intros v ->%list_elem_of_singleton. }
  destruct (Hall node) as (F & HF & Hlen); [by left|].
  destruct (lookup_lt_is_Some_2 F index) as [F1 H1]; [lia|].
  destruct (lookup_lt_is_Some_2 F (index + ndf)) as [F2 H2]; [lia|].
  cbn [FmaxLoop]. unfold FmaxStep. rewrite HF, H1, H2.
  set (lo1 := if (F1 <? lo0) || (F2 <? lo0) then Z.min F1 F2 else lo0).
  set (hi1 := if (hi0 <? F1) || (hi0 <? F2) then Z.max F1 F2 else hi0).
  destruct (IH (λ n Hn, Hall n (list_elem_of_further _ _ _ Hn)) lo1 hi1)
    as (lo & hi & -> & Hlo & Hlo' & Hhi & Hhi' & Hlen').
  assert (forcesAt ndf index (node :: ns) = F1 :: F2 :: forcesAt ndf index ns) as ->.
  { unfold forcesAt. cbn. by rewrite HF, H1, H2. }
  assert (lo1 ∈ [lo0; F1; F2] ∧ lo1 ≤ lo0 ∧ lo1 ≤ F1 ∧ lo1 ≤ F2) as (Hl1 & ? & ? & ?).
  { subst lo1. rewrite !elem_of_cons.
    destruct (Z.ltb_spec F1 lo0), (Z.ltb_spec F2 lo0); cbn [orb];
      (split; [|lia]); try (destruct (Z.min_spec F1 F2) as [[_ ->]|[_ ->]]); auto. }
  assert (hi1 ∈ [hi0; F1; F2] ∧ hi0 ≤ hi1 ∧ F1 ≤ hi1 ∧ F2 ≤ hi1) as (Hh1 & ? & ? & ?).
  { subst hi1. rewrite !elem_of_cons.
    destruct (Z.ltb_spec hi0 F1), (Z.ltb_spec hi0 F2); cbn [orb];
      (split; [|lia]); try (destruct (Z.max_spec F1 F2) as [[_ ->]|[_ ->]]); auto. }
  assert (lo ≤ lo1) as Hlo1 by (apply Hlo'; by left).
  assert (hi1 ≤ hi) as Hhi1 by (apply Hhi'; by left).
  rewrite !elem_of_cons in Hl1, Hh1.
  exists lo, hi. split_and!; [done| | | | |cbn; lia].
  - rewrite !elem_of_cons. apply elem_of_cons in Hlo as [->|Hlo]; [|auto].
    destruct Hl1 as [?|[?|[?|[]%elem_of_nil]]]; auto.
  - intros v. rewrite !elem_of_cons. intros [->|[->|[->|Hv]]]; [lia..|].
    apply Hlo'. by right.
  - rewrite !elem_of_cons. apply elem_of_cons in Hhi as [->|Hhi]; [|auto].
    destruct Hh1 as [?|[?|[?|[]%elem_of_nil]]]; auto.
  - intros v. rewrite !elem_of_cons. intros [->|[->|[->|Hv]]]; [lia..|].
    apply Hhi'. by right.
Qed.

(** C9, extremum clamped at zero.  On a beam whose nodes all carry an
    internal-force array of length [2 * ndf], and for a force index below
    [ndf], [Fmax] returns a pair [(lo, hi)]: [lo] is the least and [hi] the
    greatest among 0 and the left and right values of all nodes at that
    index.  So [lo ≤ 0 ≤ hi] even when all the values have one sign. *)
Theorem Fmax_clamped_at_zero (b : Beam) (index : nat) :
  (∀ n, n ∈ nodes b → ∃ F, Node.Fint n = Some F ∧ length F = (2 * _ndf b)%nat) →
  (index < _ndf b)%nat →
  let values := forcesAt (_ndf b) index (nodes b) in
  ∃ lo hi, Fmax index b = Return (lo, hi)
    ∧ length values = (2 * length (nodes b))%nat
    ∧ lo ∈ 0 :: values ∧ (∀ v, v ∈ 0 :: values → lo ≤ v)
    ∧ hi ∈ 0 :: values ∧ (∀ v, v ∈ 0 :: values → v ≤ hi)
    ∧ lo ≤ 0 ≤ hi.
Proof.
  intros Hall Hidx values.
  destruct (FmaxLoop_spec (_ndf b) index 0 0 (nodes b) Hall Hidx)
    as (lo & hi & HF & Hlo & Hlo' & Hhi & Hhi' & Hlen).
  exists lo, hi. split_and!; try done.
  - apply Hlo'. by left.
  - apply Hhi'. by left.
Qed.

(** C9 on a beam of two nodes whose shear values, at index 1, are all
    positive: 5 and 7 at the first node, 2 and 4 at the second. *)
Lemma Fmax_clamped_at_zero_witness :
  let node1 := Node.mk D2 0 [1; 1; 0] (Some 1%nat) None [] (Some [0; 5; -3; 0; 7; 1]) true in
  let node2 := Node.mk D2 50 [0; 1; 0] (Some 2%nat) None [] (Some [0; 2; 6; 0; 4; -8]) true in
  let b := setNnodes 2 (setNodeCoords {[0; 50]} (setNodes [node1; node2] (blank D2))) in
  Fmax 1 b = Return (0, 7) ∧ Fmax 2 b = Return (-8, 6).
Proof.
  intros node1 node2 b.
  assert (∀ n, n ∈ nodes b → ∃ F, Node.Fint n = Some F ∧ length F = (2 * _ndf b)%nat) as Hall.
  { intros n Hn. cbn in Hn. apply elem_of_cons in Hn as [->|Hn]; [by eexists|].
    apply list_elem_of_singleton in Hn as ->. by eexists. }
  split.
  - destruct (Fmax_clamped_at_zero b 1 Hall) as (lo & hi & HF & _); [cbn; lia|].
    rewrite HF. vm_compute in HF. by simplify_eq.
  - destruct (Fmax_clamped_at_zero b 2 Hall) as (lo & hi & HF & _); [cbn; lia|].
    rewrite HF. vm_compute in HF. by simplify_eq.
Defined.

(** * Further properties of the registry *)

(** ** Coordinates and identifiers *)

Lemma numbered_IDs b :
  numbered b → Node.ID <$> nodes b = Some <$> seq 1 (length (nodes b)).
Proof.
  intros Hid. apply list_eq. intros i. rewrite !list_lookup_fmap.
  destruct (nodes b !! i) as [n|] eqn:Hn; cbn.
  - rewrite (Hid _ _ Hn). apply lookup_lt_Some in Hn as Hlt.
    by rewrite (lookup_seq_lt _ _ _ Hlt).
  - apply lookup_ge_None in Hn. by rewrite lookup_seq_ge.
Qed.

(** X1.  After any sequence of calls on an empty beam no two nodes are at
    the same position, the set [nodeCoords] holds exactly the positions of
    the nodes, and [_findNode] finds a node at a coordinate exactly when
    the coordinate is in [nodeCoords]; the node it finds is at that
    coordinate and is the only one there. *)
Theorem coordinates_unique (dimension : Dimension) (cs : list call) :
  let b := run cs (blank dimension) in
  NoDup (Node.x <$> nodes b)
  ∧ (∀ z, z ∈ nodeCoords b ↔ z ∈ Node.x <$> nodes b)
  ∧ (∀ z, is_Some (_findNode z b) ↔ z ∈ nodeCoords b)
  ∧ (∀ z i, _findNode z b = Some i ↔ ∃ n, nodes b !! i = Some n ∧ Node.x n = z).
Proof.
  intros b. pose proof (Inv_reachable dimension cs) as HI. fold b in HI.
  split_and!.
  - apply (inv_nodup _ HI).
  - apply (inv_coords _ HI).
  - intros z. split.
    + intros [i (n & Hn & Hx & _)%findNode_Some].
      apply (inv_coords _ HI), list_elem_of_fmap. exists n. split; [done|].
      by eapply list_elem_of_lookup_2.
    + intros Hz. destruct (findNode_Inv _ _ HI Hz) as (i & n & -> & _). done.
  - intros z i. split.
    + intros (n & Hn & Hx & _)%findNode_Some. eauto.
    + intros (n & Hn & Hx). by eapply findNode_unique; [apply (inv_nodup _ HI)|..].
Qed.

(** X2.  After any sequence of calls on an empty beam, sorted or not,
    [getNodeIDs] returns the identifiers 1, 2, ..., [Nnodes] in the order
    of the node list, and leaves the beam as it is. *)
Theorem getNodeIDs_contiguous (dimension : Dimension) (cs : list call) :
  let b := run cs (blank dimension) in
  getNodeIDs b = (Return (Some <$> seq 1 (Nnodes b)), b).
Proof.
  intros b. pose proof (Inv_reachable dimension cs) as HI. fold b in HI.
  rewrite (getNodeIDs_eq _ (inv_count _ HI)), (inv_count _ HI).
  by rewrite (numbered_IDs _ (inv_ids _ HI)).
Qed.

(** X3.  No method writes the label map: after any sequence of calls on
    an empty beam, with whatever labels, [nodeLabels] is empty. *)
Theorem nodeLabels_never_filled (dimension : Dimension) (cs : list call) :
  nodeLabels (run cs (blank dimension)) = ∅.
Proof. apply inv_labels, Inv_reachable. Qed.

(** X4.  A resort of a beam reached by any sequence of calls returns and
    changes nothing but the order of the nodes, their identifiers and the
    node identifiers of the loads: the nodes afterwards are a permutation
    of the nodes before, renumbered; the loads keep their order, force,
    coordinate and label; the counter, the coordinate set and the
    distributed loads stay. *)
Theorem resort_frame (dimension : Dimension) (cs : list call) :
  let b := run cs (blank dimension) in
  ∃ b' ns, _sortNodes b = (Return tt, b')
    ∧ ns ≡ₚ nodes b ∧ nodes b' = renumber ns
    ∧ Forall2 sameLoad (pointLoads b) (pointLoads b')
    ∧ Nnodes b' = Nnodes b ∧ nodeCoords b' = nodeCoords b
    ∧ eleLoads b' = eleLoads b ∧ _dimension b' = _dimension b.
Proof.
  intros b. pose proof (Inv_reachable dimension cs) as HI. fold b in HI.
  destruct (sortNodes_spec b HI) as (b' & Hb' & [Hd Hn Hc _ He _ (ns & Hp & Hns) Hl] & _).
  exists b', ns. by split_and!.
Qed.

(** ** A resort of a sorted beam *)

Lemma ascending_mono b i j n m :
  ascending b → nodes b !! i = Some n → nodes b !! j = Some m → (i < j)%nat →
  Node.x n < Node.x m.
Proof.
  intros Ha Hi Hj Hlt. revert m Hj. induction Hlt as [|j Hle IH]; intros m Hj.
  - by eapply Ha.
  - destruct (lookup_lt_is_Some_2 (nodes b) j) as [k Hk].
    { apply lookup_lt_Some in Hj. lia. }
    specialize (IH k Hk). specialize (Ha j k m Hk Hj). lia.
Qed.

Lemma StronglySorted_seq (R : relation nat) n :
  (∀ i j, (i < j < n)%nat → R i j) → StronglySorted R (seq 0 n).
Proof.
  induction n as [|n IH]; intros HR; [constructor|].
  rewrite seq_S. apply StronglySorted_app_2.
  - intros i j [_ Hi]%elem_of_seq ->%list_elem_of_singleton. apply HR. cbn in *. lia.
  - apply IH. intros i j ?. apply HR. lia.
  - repeat constructor.
Qed.

Lemma argsort_ascending b :
  Inv b → ascending b → argsort (Node.x <$> nodes b) = seq 0 (length (nodes b)).
Proof.
  intros HI Ha. symmetry. rewrite <- (length_fmap Node.x).
  apply argsort_unique; [apply (inv_nodup _ HI)|done|].
  apply StronglySorted_seq. intros i j [Hij Hj]. rewrite length_fmap in Hj.
  destruct (lookup_lt_is_Some_2 (nodes b) i) as [n Hn]; [lia|].
  destruct (lookup_lt_is_Some_2 (nodes b) j) as [m Hm]; [lia|].
  unfold le_key, key.
  erewrite (nth_lookup_Some _ i), (nth_lookup_Some _ j);
    [|by rewrite list_lookup_fmap, Hm|by rewrite list_lookup_fmap, Hn].
  pose proof (ascending_mono b i j n m Ha Hn Hm Hij). lia.
Qed.

Lemma renumber_numbered ns :
  (∀ i n, ns !! i = Some n → Node.ID n = Some (S i)) → renumber ns = ns.
Proof.
  intros Hid. apply list_eq. intros i. rewrite lookup_renumber.
  destruct (ns !! i) as [n|] eqn:Hn; [|done]. cbn. f_equal.
  rewrite <- (Hid _ _ Hn). symmetry. apply sameNode_refl.
Qed.

Lemma sortNodes_ascending b :
  Inv b → ascending b → _sortNodes b = (Return tt, b).
Proof.
  intros HI Ha. destruct (sortNodes_eq b HI) as (ns & pls & Hns & HF & ->).
  rewrite (argsort_ascending b HI Ha) in Hns, HF.
  apply mapM_omap in Hns. rewrite omap_lookup_seq in Hns. subst ns.
  rewrite (renumber_numbered _ (inv_ids _ HI)).
  assert (pls = pointLoads b) as ->.
  { symmetry. apply list_eq_Forall2. eapply Forall2_impl; [exact HF|].
    intros pl pl' (Hsame & i & j & Hi & Hj & Hij). cbn beta in *.
    apply lookup_seq in Hij as [-> _]. cbn in Hi.
    rewrite Hsame, Hj, <- Hi. apply sameLoad_refl. }
  f_equal. by destruct b.
Qed.

(** X5.  A resort is idempotent.  On a beam reached by any sequence of
    calls whose positions already ascend, [_sortNodes] returns and leaves
    every attribute of the beam as it is; so after one resort a second
    one changes nothing. *)
Theorem resort_idempotent (dimension : Dimension) (cs : list call) :
  let b := run cs (blank dimension) in
  (ascending b → _sortNodes b = (Return tt, b))
  ∧ (let b1 := snd (_sortNodes b) in _sortNodes b1 = (Return tt, b1)).
Proof.
  intros b. pose proof (Inv_reachable dimension cs) as HI. fold b in HI.
  split.
  - by apply sortNodes_ascending.
  - destruct (sortNodes_spec b HI) as (b1 & -> & _ & HI1 & Ha1). cbn.
    by apply sortNodes_ascending.
Qed.

(** X5 on a beam built out of order and then sorted by [addNodes]. *)
Lemma resort_idempotent_witness :
  let b := run [CaddNodes [50; 0; 25] None None;
                CaddPointLoad 25 (Vector [0; 10; 0]) (Some "P")] (blank D2) in
  ascending b ∧ _sortNodes b = (Return tt, b).
Proof.
  intros b.
  assert (ascending b) as Ha.
  { intros i n m Hi Hm. destruct i as [|[|[|i]]]; vm_compute in Hi, Hm; by simplify_eq. }
  split; [done|].
  by apply (proj1 (resort_idempotent D2
    [CaddNodes [50; 0; 25] None None;
     CaddPointLoad 25 (Vector [0; 10; 0]) (Some "P")])).
Defined.

(** ** What each method does to the beam *)

Lemma act_Inv b b' : Inv b → act b b' → Inv b'.
Proof.
  intros HI [|x fixity label Hx|x fixity label index node Hn Hx|label index node Hn
            |fixity label index node Hn|P label index node Hn|el].
  - destruct (sortNodes_spec b HI) as (b'' & -> & _ & ? & _). done.
  - by apply Inv_appended.
  - eapply Inv_replace; [done..| |done]. by rewrite Hx.
  - by eapply Inv_replace.
  - eapply Inv_replace; [done..| |]; unfold refixed; by destruct (truthy label).
  - assert (Inv (setNodes (<[index := attached (length (pointLoads b) + 1) label node]>
                             (nodes b)) b)) as HI1.
    { eapply Inv_replace; [done..| |]; unfold attached; by destruct (truthy label). }
    set (b1 := setNodes (<[index := attached (length (pointLoads b) + 1) label node]>
                           (nodes b)) b) in *.
    apply (step_Inv [] b1); [exact HI1|].
    change (loaded P label index node b)
      with (setPointLoads
              (pointLoads b1 ++ [PointLoad.mk P (Node.x node) (index + 1) (Some EmptyString)])
              b1).
    apply step_load.
    exists index, (attached (length (pointLoads b) + 1) label node).
    cbn [PointLoad.x PointLoad.nodeID]. split_and!.
    + apply list_lookup_insert_eq. by eapply lookup_lt_Some.
    + unfold attached. by destruct (truthy label).
    + replace (index + 1)%nat with (S index) by lia. rewrite <- (inv_ids _ HI _ _ Hn).
      unfold attached. by destruct (truthy label).
    + lia.
  - by destruct HI.
Qed.

Lemma acts_Inv b b' : Inv b → rtc act b b' → Inv b'.
Proof. intros HI Hs. induction Hs; eauto using act_Inv. Qed.

Lemma addNode_acts x fixity label sort b :
  Inv b →
  ∃ b', addNode x fixity label sort b
        = (Return (if decide (x ∈ nodeCoords b) then 0 else 1), b')
        ∧ rtc act b b'.
Proof.
  intros HI. destruct (decide (x ∈ nodeCoords b)) as [Hx|Hx].
  - destruct (findNode_Inv _ _ HI Hx) as (index & node & Hf & Hn & Hxn).
    rewrite (addNode_merge _ _ _ _ _ _ _ Hx Hf Hn). eexists. split; [done|].
    by apply rtc_once, act_merge.
  - rewrite (addNode_new _ _ _ _ _ Hx).
    set (newNode := Node.init (_dimension b) x (default (zeros (_ndf b)) fixity) label).
    assert (act b (appended newNode b)) as H1 by by apply act_new.
    destruct sort.
    + destruct (sortNodes_spec _ (act_Inv _ _ HI H1)) as (b' & Hs & _).
      erewrite bind_eq by exact Hs. exists b'. split; [done|].
      eapply rtc_l; [exact H1|]. apply rtc_once.
      replace b' with (snd (_sortNodes (appended newNode b))) by by rewrite Hs.
      apply act_sort.
    + eexists. split; [done|]. by apply rtc_once.
Qed.

Lemma addLabel_eq x label sort b :
  Inv b →
  addLabel x label sort b
  = match _findNode x b with
    | Some index =>
        (Return 0, setNodes (alter (Node.setLabel label) index (nodes b)) b)
    | None =>
        let newNode := Node.init (_dimension b) x (zeros (_ndf b)) label in
        if sort then (bind _sortNodes (λ _, ret 1)) (appended newNode b)
        else (Return 1, appended newNode b)
    end.
Proof.
  intros HI. unfold addLabel. mred. destruct (decide (x ∈ nodeCoords b)) as [Hx|Hx].
  - destruct (findNode_Inv _ _ HI Hx) as (index & node & Hf & Hn & Hxn).
    rewrite Hf. erewrite bind_eq by by apply setNodeAttr_Some.
    cbn. unfold ret. do 3 f_equal.
    apply list_eq. intros j. destruct (decide (index = j)) as [->|].
    + rewrite list_lookup_alter_eq, list_lookup_insert_eq by by eapply lookup_lt_Some.
      by rewrite Hn.
    + by rewrite list_lookup_alter_ne, list_lookup_insert_ne.
  - assert (_findNode x b = None) as ->.
    { apply findNode_None. by rewrite <- (inv_coords _ HI). }
    cbv zeta. unfold bind at 1. rewrite addNewNode_eq. by destruct sort.
Qed.

Lemma alter_insert {A} (f : A → A) (l : list A) i a :
  l !! i = Some a → alter f i l = <[i := f a]> l.
Proof.
  intros Ha. apply list_eq. intros j. destruct (decide (i = j)) as [->|].
  - rewrite list_lookup_alter_eq, list_lookup_insert_eq by by eapply lookup_lt_Some.
    by rewrite Ha.
  - by rewrite list_lookup_alter_ne, list_lookup_insert_ne.
Qed.

Lemma addLabel_acts x label sort b :
  Inv b →
  ∃ b', addLabel x label sort b
        = (Return (if decide (x ∈ nodeCoords b) then 0 else 1), b')
        ∧ rtc act b b'.
Proof.
  intros HI. rewrite (addLabel_eq _ _ _ _ HI).
  destruct (decide (x ∈ nodeCoords b)) as [Hx|Hx].
  - destruct (findNode_Inv _ _ HI Hx) as (index & node & -> & Hn & Hxn).
    eexists. split; [done|]. rewrite (alter_insert _ _ _ _ Hn).
    by apply rtc_once, act_label.
  - assert (_findNode x b = None) as ->.
    { apply findNode_None. by rewrite <- (inv_coords _ HI). }
    cbv zeta.
    set (newNode := Node.init (_dimension b) x (zeros (_ndf b)) label).
    assert (act b (appended newNode b)) as H1 by by apply act_new.
    destruct sort.
    + destruct (sortNodes_spec _ (act_Inv _ _ HI H1)) as (b' & Hs & _).
      erewrite bind_eq by exact Hs. exists b'. split; [done|].
      eapply rtc_l; [exact H1|]. apply rtc_once.
      replace b' with (snd (_sortNodes (appended newNode b))) by by rewrite Hs.
      apply act_sort.
    + eexists. split; [done|]. by apply rtc_once.
Qed.

Lemma setFixity_existing_eq x fixity label b index node :
  x ∈ nodeCoords b → _findNode x b = Some index → nodes b !! index = Some node →
  let f := match fixity with FInt v => replicate (_ndf b) v | FVec l => l end in
  forallb (λ v, (v =? 0) || (v =? 1)) f = true →
  (length f =? 2)%nat || (_ndf b <? length f)%nat = false →
  setFixity x fixity label b
  = (Return tt, setNodes (<[index := refixed f label node]> (nodes b)) b).
Proof.
  intros Hx Hf Hn f Hall Hlen. unfold setFixity.
  erewrite bind_eq by apply convertFixityInput_eq. fold f.
  unfold bind at 1. rewrite checkfixityInput_eq, Hall, Hlen. cbn [negb].
  mred. rewrite decide_True by done. cbv zeta. rewrite Hf.
  erewrite bind_eq by by apply setNodeAttr_Some.
  erewrite bind_eq.
  2:{ apply setNodeAttr_Some. cbn. apply list_lookup_insert_eq. by eapply lookup_lt_Some. }
  cbn [nodes setNodes]. rewrite list_insert_insert_eq. unfold refixed.
  destruct (truthy label).
  - erewrite setNodeAttr_Some.
    2:{ cbn. apply list_lookup_insert_eq. by eapply lookup_lt_Some. }
    cbn [nodes setNodes]. by rewrite list_insert_insert_eq.
  - done.
Qed.

Lemma addNode_new_sorted x fixity label b :
  Inv b → x ∉ nodeCoords b →
  let newNode := Node.init (_dimension b) x (default (zeros (_ndf b)) fixity) label in
  ∃ b', addNode x fixity label true b = (Return 1, b')
        ∧ _sortNodes (appended newNode b) = (Return tt, b')
        ∧ resorted (appended newNode b) b' ∧ Inv b' ∧ ascending b'.
Proof.
  intros HI Hx newNode. rewrite (addNode_new _ _ _ _ _ Hx). fold newNode.
  destruct (sortNodes_spec _ (Inv_appended newNode b HI Hx)) as (b' & Hs & Hr & HI' & Ha).
  erewrite bind_eq by exact Hs. by exists b'.
Qed.

Lemma setFixity_acts x fixity label b :
  Inv b → rtc act b (snd (setFixity x fixity label b)).
Proof.
  intros HI.
  set (f := match fixity with FInt v => replicate (_ndf b) v | FVec l => l end).
  destruct (forallb (λ v, (v =? 0) || (v =? 1)) f) eqn:Hall.
  2:{ unfold setFixity. erewrite bind_eq by apply convertFixityInput_eq. fold f.
      by erewrite bind_eq_raise by (by rewrite checkfixityInput_eq, Hall). }
  destruct ((length f =? 2)%nat || (_ndf b <? length f)%nat) eqn:Hlen.
  { unfold setFixity. erewrite bind_eq by apply convertFixityInput_eq. fold f.
    by erewrite bind_eq_raise by (by rewrite checkfixityInput_eq, Hall, Hlen). }
  destruct (decide (x ∈ nodeCoords b)) as [Hx|Hx].
  - destruct (findNode_Inv _ _ HI Hx) as (index & node & Hf & Hn & Hxn).
    rewrite (setFixity_existing_eq x fixity label b index node Hx Hf Hn Hall Hlen).
    by apply rtc_once, act_fix.
  - unfold setFixity. erewrite bind_eq by apply convertFixityInput_eq. fold f.
    unfold bind at 1. rewrite checkfixityInput_eq, Hall, Hlen. cbn [negb].
    mred. rewrite decide_False by done.
    destruct (addNode_acts x (Some f) label true b HI) as (b' & Hb' & Hs).
    erewrite bind_eq by exact Hb'. done.
Qed.

Lemma insert_attached b index node loadID label :
  nodes b !! index = Some node →
  (if truthy label
   then <[index := Node.setLabel label
                     (Node.setPointLoadIDs (Node.pointLoadIDs node ++ [loadID]) node)]>
          (<[index := Node.setPointLoadIDs (Node.pointLoadIDs node ++ [loadID]) node]>
             (nodes b))
   else <[index := Node.setPointLoadIDs (Node.pointLoadIDs node ++ [loadID]) node]>
          (nodes b))
  = <[index := attached loadID label node]> (nodes b).
Proof.
  intros Hn. unfold attached. destruct (truthy label); [|done].
  by rewrite list_insert_insert_eq.
Qed.

Lemma attach_eq x P label loadID index node b :
  nodes b !! index = Some node →
  (setNodeAttr (Some index)
     (λ node, Node.setPointLoadIDs (Node.pointLoadIDs node ++ [loadID]) node) ;;;
   (if truthy label then setNodeAttr (Some index) (Node.setLabel label) else ret tt) ;;;
   hit <- nodeAt (Some index) ;;
   let nodeID := (hit.1 + 1)%nat in
   let newLoad := PointLoad.mk P x nodeID (Some EmptyString) in
   modify (λ b, setPointLoads (pointLoads b ++ [newLoad]) b)) b
  = (Return tt,
     setPointLoads (pointLoads b ++ [PointLoad.mk P x (index + 1) (Some EmptyString)])
       (setNodes (<[index := attached loadID label node]> (nodes b)) b)).
Proof.
  intros Hn. erewrite bind_eq by by apply setNodeAttr_Some.
  rewrite <- (insert_attached b index node loadID label Hn).
  destruct (truthy label).
  - erewrite bind_eq.
    2:{ apply setNodeAttr_Some. cbn. apply list_lookup_insert_eq. by eapply lookup_lt_Some. }
    erewrite bind_eq.
    2:{ apply nodeAt_Some. cbn. apply list_lookup_insert_eq.
        rewrite length_insert. by eapply lookup_lt_Some. }
    done.
  - mred. erewrite bind_eq.
    2:{ apply nodeAt_Some. cbn. apply list_lookup_insert_eq. by eapply lookup_lt_Some. }
    done.
Qed.

(** The beam on which [addPointLoad] attaches the load: the beam itself
    when it has a node at [x], and else the beam after [addNode(x)]. *)
Lemma addPointLoad_eq x P label b :
  Inv b →
  let b1 := if decide (x ∈ nodeCoords b) then b
            else snd (addNode x None (Some EmptyString) true b) in
  ∃ index node,
    _findNode x b1 = Some index ∧ nodes b1 !! index = Some node ∧ Node.x node = x
    ∧ Inv b1 ∧ rtc act b b1
    ∧ addPointLoad x (Vector P) label b = (Return tt, loaded P label index node b1).
Proof.
  intros HI b1. unfold addPointLoad. mred.
  destruct (decide (x ∈ nodeCoords b)) as [Hx|Hx]; subst b1.
  - destruct (findNode_Inv _ _ HI Hx) as (index & node & Hf & Hn & Hxn).
    exists index, node. split_and!; [done..|]. mred. rewrite Hf.
    rewrite (attach_eq x P label _ index node b Hn).
    unfold loaded. by rewrite Hxn.
  - destruct (addNode_new_sorted x None (Some EmptyString) b HI Hx)
      as (b1 & Hb1 & Hs & Hr & HI1 & _).
    rewrite Hb1. cbn [snd].
    assert (x ∈ nodeCoords b1) as Hx1.
    { rewrite (rs_coords _ _ Hr). cbn. apply elem_of_union_r. by apply elem_of_singleton. }
    destruct (findNode_Inv _ _ HI1 Hx1) as (index & node & Hf & Hn & Hxn).
    exists index, node. split_and!; [done..| |].
    + destruct (addNode_acts x None (Some EmptyString) true b HI) as (b2 & Hb2 & Hacts).
      rewrite Hb1 in Hb2. by simplify_eq.
    + erewrite (bind_eq _ _ b (Some index) b1).
      2:{ erewrite bind_eq by exact Hb1. mred. by rewrite Hf. }
      rewrite (attach_eq x P label _ index node b1 Hn).
      unfold loaded. rewrite Hxn.
      assert (length (pointLoads b1) = length (pointLoads b)) as ->; [|done].
      symmetry. apply (Forall2_length _ _ _ (rs_loads _ _ Hr)).
Qed.

Lemma addPointLoad_acts x pointLoad label b :
  Inv b → rtc act b (snd (addPointLoad x pointLoad label b)).
Proof.
  intros HI. destruct pointLoad as [v|P]; [done|].
  destruct (addPointLoad_eq x P label b HI) as (index & node & _ & Hn & _ & _ & Hacts & ->).
  cbn [snd]. etrans; [exact Hacts|]. by apply rtc_once, act_attach.
Qed.

Lemma addDistLoad_acts x1 x2 distLoad label b :
  Inv b → rtc act b (snd (addDistLoad x1 x2 distLoad label b)).
Proof.
  intros HI. unfold addDistLoad. mred.
  assert (∃ b1, (if decide (x1 ∉ nodeCoords b)
                 then addNode x1 (Some (zeros (_ndf b))) (Some EmptyString) true ;;; ret tt
                 else ret tt) b = (Return tt, b1) ∧ rtc act b b1)
    as (b1 & Hb1 & Hs1).
  { destruct (decide (x1 ∉ nodeCoords b)); [|by exists b].
    destruct (addNode_acts x1 (Some (zeros (_ndf b))) (Some EmptyString) true b HI)
      as (b1 & Hb1 & Hs1).
    exists b1. by erewrite bind_eq by exact Hb1. }
  erewrite bind_eq by exact Hb1. mred.
  pose proof (acts_Inv _ _ HI Hs1) as HI1.
  assert (∃ b2, (if decide (x2 ∉ nodeCoords b1)
                 then addNode x2 (Some (zeros (_ndf b))) (Some EmptyString) true ;;; ret tt
                 else ret tt) b1 = (Return tt, b2) ∧ rtc act b1 b2)
    as (b2 & Hb2 & Hs2).
  { destruct (decide (x2 ∉ nodeCoords b1)); [|by exists b1].
    destruct (addNode_acts x2 (Some (zeros (_ndf b))) (Some EmptyString) true b1 HI1)
      as (b2 & Hb2 & Hs2).
    exists b2. by erewrite bind_eq by exact Hb2. }
  erewrite bind_eq by exact Hb2. cbn.
  etrans; [exact Hs1|]. etrans; [exact Hs2|]. apply rtc_once, act_eleLoad.
Qed.

Lemma addNodesLoop_acts xCoords fixities labels iis b :
  Inv b → rtc act b (snd (addNodesLoop xCoords fixities labels iis b)).
Proof.
  revert b. induction iis as [|ii iis IH]; intros b HI; [done|].
  cbn [addNodesLoop].
  destruct (xCoords !! ii) as [x|]; mred; [|done].
  destruct (fixities !! ii) as [fixity|]; mred; [|done].
  destruct (labels !! ii) as [label|]; mred; [|done].
  destruct (addNode_acts x fixity label false b HI) as (b1 & Hb1 & Hs1).
  erewrite bind_eq by exact Hb1. etrans; [exact Hs1|].
  apply IH. by eapply acts_Inv.
Qed.

Lemma addNodes_acts xCoords fixities labels b :
  Inv b → rtc act b (snd (addNodes xCoords fixities labels b)).
Proof.
  intros HI. unfold addNodes. mred.
  set (fs := default (replicate (length xCoords) (Some (zeros (_ndf b)))) fixities).
  set (ls := default (replicate (length xCoords) None) labels).
  pose proof (addNodesLoop_acts xCoords fs ls (seq 0 (length xCoords)) b HI) as Hs.
  destruct (addNodesLoop xCoords fs ls (seq 0 (length xCoords)) b) as [[[]|e] b1] eqn:Hb1.
  - erewrite bind_eq by exact Hb1. etrans; [exact Hs|]. apply rtc_once, act_sort.
  - by erewrite bind_eq_raise by exact Hb1.
Qed.

Lemma exec_acts c b : Inv b → rtc act b (exec c b).
Proof.
  intros HI. destruct c as [x f l s|x l s|xs fs ls|x f l|x p l|x1 x2 d l|]; cbn [exec].
  - destruct (addNode_acts x f l s b HI) as (b' & -> & ?). done.
  - destruct (addLabel_acts x l s b HI) as (b' & -> & ?). done.
  - by apply addNodes_acts.
  - by apply setFixity_acts.
  - by apply addPointLoad_acts.
  - by apply addDistLoad_acts.
  - apply rtc_once, act_sort.
Qed.

(** ** What the registry keeps of every node *)

Lemma elem_of_insert_inv {A} (l : list A) i a c :
  c ∈ <[i := a]> l → c = a ∨ c ∈ l.
Proof.
  intros [j Hj]%list_elem_of_lookup. destruct (decide (i = j)) as [->|Hne].
  - destruct (decide (j < length l)%nat).
    + rewrite list_lookup_insert_eq in Hj by done. left. congruence.
    + rewrite list_insert_ge in Hj by lia. right. by eapply list_elem_of_lookup_2.
  - rewrite list_lookup_insert_ne in Hj by done. right. by eapply list_elem_of_lookup_2.
Qed.

Lemma elem_of_renumber ns n' :
  n' ∈ renumber ns → ∃ n, n ∈ ns ∧ sameNode n n'.
Proof.
  intros [i Hi]%list_elem_of_lookup. rewrite lookup_renumber in Hi.
  apply fmap_Some in Hi as (n & Hn & ->). exists n. split; [|done].
  by eapply list_elem_of_lookup_2.
Qed.

Lemma any_ne_zeros3_false fixity :
  any_ne_zeros3 fixity = false → Forall (λ v, v = 0) fixity.
Proof.
  unfold any_ne_zeros3. intros H.
  assert (existsb (λ v, negb (v =? 0)) fixity = false) as Hex.
  { destruct (length fixity) as [|[|[|[|?]]]]; done. }
  apply Forall_forall. intros v Hv%list_elem_of_In.
  destruct (Z.eqb_spec v 0) as [|Hne]; [done|].
  assert (existsb (λ v, negb (v =? 0)) fixity = true); [|congruence].
  apply existsb_exists. exists v. split; [done|]. by apply negb_true_iff, Z.eqb_neq.
Qed.

Lemma Inv2_replace b index node node' :
  Inv2 b → nodes b !! index = Some node →
  Node.dimension node' = _dimension b → Node.Fint node' = None →
  (Node.hasReaction node' = false → Forall (λ v, v = 0) (Node.fixity node')) →
  Node.x node' = Node.x node → Node.pointLoadIDs node' ⊆ Node.pointLoadIDs node →
  Inv2 (setNodes (<[index := node']> (nodes b)) b).
Proof.
  intros [Hd HF Hr Ha] Hn Hd' HF' Hr' Hx Hids.
  assert (node ∈ nodes b) as Hin by by eapply list_elem_of_lookup_2.
  split; cbn.
  - intros n [->|?]%elem_of_insert_inv; auto.
  - intros n [->|?]%elem_of_insert_inv; auto.
  - intros n [->|?]%elem_of_insert_inv; auto.
  - intros n id [->|?]%elem_of_insert_inv Hid; cbn.
    + rewrite Hx. apply (Ha node id Hin). by apply Hids.
    + by apply Ha.
Qed.

Lemma act_Inv2 b b' : Inv b → Inv2 b → act b b' → Inv2 b'.
Proof.
  intros HI HI2 [|x fixity label Hx|x fixity label index node Hn Hx|label index node Hn
                |fixity label index node Hn|P label index node Hn|el].
  - destruct (sortNodes_spec b HI) as (b'' & -> & Hr & _ & _). cbn [snd].
    destruct (rs_nodes _ _ Hr) as (ns & Hp & Hns). destruct HI2 as [Hd HF Hre Ha].
    assert (∀ n', n' ∈ nodes b'' → ∃ n, n ∈ nodes b ∧ sameNode n n') as Hback.
    { intros n' Hn'. rewrite Hns in Hn'.
      destruct (elem_of_renumber _ _ Hn') as (n & Hn & ?). exists n. by rewrite <- Hp. }
    split.
    + intros n' (n & Hn & Hs)%Hback. rewrite Hs, (rs_dimension _ _ Hr). exact (Hd n Hn).
    + intros n' (n & Hn & Hs)%Hback. rewrite Hs. exact (HF n Hn).
    + intros n' (n & Hn & Hs)%Hback. rewrite Hs. exact (Hre n Hn).
    + intros n' id (n & Hn & Hs)%Hback Hid. rewrite Hs in Hid. cbn in Hid.
      destruct (Ha n id Hn Hid) as (pl & Hge & Hpl & Hxpl).
      destruct (Forall2_lookup_l _ _ _ _ _ (rs_loads _ _ Hr) Hpl) as (pl' & Hpl' & Hsame).
      exists pl'. split_and!; [done..|]. rewrite Hs, Hsame. done.
  - destruct HI2 as [Hd HF Hre Ha]. split; cbn.
    + intros n [?|E%list_elem_of_singleton]%elem_of_app; [auto|by subst n].
    + intros n [?|E%list_elem_of_singleton]%elem_of_app; [auto|by subst n].
    + intros n [?|E%list_elem_of_singleton]%elem_of_app; [auto|subst n].
      cbn. apply any_ne_zeros3_false.
    + intros n id [?|E%list_elem_of_singleton]%elem_of_app Hid; [by apply Ha|subst n].
      cbn in Hid. by apply elem_of_nil in Hid.
  - eapply Inv2_replace; try done.
    + cbn. apply any_ne_zeros3_false.
    + cbn. by intros ? ?%elem_of_nil.
  - destruct HI2 as [Hd HF Hre Ha].
    assert (node ∈ nodes b) as Hin by by eapply list_elem_of_lookup_2.
    eapply Inv2_replace; [done|done|cbn; auto..|done|done].
  - destruct HI2 as [Hd HF Hre Ha].
    assert (node ∈ nodes b) as Hin by by eapply list_elem_of_lookup_2.
    eapply Inv2_replace; [done|done|..]; unfold refixed; destruct (truthy label); cbn;
      auto; done.
  - destruct HI2 as [Hd HF Hre Ha].
    assert (node ∈ nodes b) as Hin by by eapply list_elem_of_lookup_2.
    unfold loaded. split; cbn.
    + intros n [->|?]%elem_of_insert_inv; [|auto].
      unfold attached. destruct (truthy label); cbn; auto.
    + intros n [->|?]%elem_of_insert_inv; [|auto].
      unfold attached. destruct (truthy label); cbn; auto.
    + intros n [->|?]%elem_of_insert_inv; [|auto].
      unfold attached. destruct (truthy label); cbn; auto.
    + assert (∀ n id, n ∈ nodes b → id ∈ Node.pointLoadIDs n →
                ∃ pl, (1 ≤ id)%nat
                  ∧ (pointLoads b ++ [PointLoad.mk P (Node.x node) (index + 1)
                                        (Some EmptyString)]) !! (id - 1)%nat = Some pl
                  ∧ PointLoad.x pl = Node.x n) as Hold.
      { intros n id Hn' Hid. destruct (Ha n id Hn' Hid) as (pl & ? & Hpl & ?).
        exists pl. split_and!; [done| |done]. by apply lookup_app_l_Some. }
      intros n id [->|?]%elem_of_insert_inv Hid; [|by apply Hold].
      assert (Node.x (attached (length (pointLoads b) + 1) label node) = Node.x node
              ∧ Node.pointLoadIDs (attached (length (pointLoads b) + 1) label node)
                = Node.pointLoadIDs node ++ [(length (pointLoads b) + 1)%nat]) as [Hx' Hids'].
      { unfold attached. by destruct (truthy label). }
      rewrite Hx'. rewrite Hids' in Hid.
      apply elem_of_app in Hid as [Hid|E%list_elem_of_singleton]; [by apply Hold|subst id].
      exists (PointLoad.mk P (Node.x node) (index + 1) (Some EmptyString)).
      split_and!; [lia| |done].
      apply list_lookup_middle. lia.
  - by destruct HI2.
Qed.

Lemma acts_Inv2 b b' : Inv b → Inv2 b → rtc act b b' → Inv2 b'.
Proof.
  intros HI HI2 Hs. induction Hs as [|b b1 b' H1 _ IH]; [done|].
  apply IH; [by eapply act_Inv|by eapply act_Inv2].
Qed.

Lemma Inv2_blank dimension : Inv2 (blank dimension).
Proof. split; cbn; try (by intros ? ?%elem_of_nil). by intros ? ? ?%elem_of_nil. Qed.

Lemma Inv2_reachable dimension cs : Inv2 (run cs (blank dimension)).
Proof.
  assert (∀ b, Inv b → Inv2 b → Inv2 (run cs b)) as H.
  { induction cs as [|c cs IH]; intros b HI HI2; [done|].
    cbn. apply IH; [by apply exec_Inv|].
    eapply acts_Inv2; [done..|]. by apply exec_acts. }
  apply H; [apply Inv_blank|apply Inv2_blank].
Qed.

(** X6.  After any sequence of calls on an empty beam, every identifier
    in the [pointLoadIDs] of a node is at least 1 and is the place, in
    [pointLoads], of a load whose coordinate is the position of that
    node. *)
Theorem attached_loads_exist (dimension : Dimension) (cs : list call) :
  let b := run cs (blank dimension) in
  ∀ n id, n ∈ nodes b → id ∈ Node.pointLoadIDs n →
    ∃ pl, (1 ≤ id)%nat ∧ pointLoads b !! (id - 1)%nat = Some pl
          ∧ PointLoad.x pl = Node.x n.
Proof. intros b. apply (inv_attached _ (Inv2_reachable dimension cs)). Qed.

(** X6 on scenario E with the label 'P': the node at 2.5 lists load 1,
    which is the first load and is at 2.5. *)
Lemma attached_loads_exist_witness :
  let b := run [CaddNodes [0; 25; 50] None None;
                CaddPointLoad 25 (Vector [0; 10; 0]) (Some "P")] (blank D2) in
  let n := Node.mk D2 25 [0; 0; 0] (Some 2%nat) (Some "P") [1%nat] None false in
  n ∈ nodes b ∧ 1%nat ∈ Node.pointLoadIDs n
  ∧ ∃ pl, (1 ≤ 1)%nat ∧ pointLoads b !! (1 - 1)%nat = Some pl
      ∧ PointLoad.x pl = Node.x n.
Proof.
  intros b n.
  assert (n ∈ nodes b) as Hn by (apply (list_elem_of_lookup_2 _ 1%nat); by vm_compute).
  assert (1%nat ∈ Node.pointLoadIDs n) as Hid by apply list_elem_of_here.
  split_and!; [done|done|].
  exact (attached_loads_exist D2
           [CaddNodes [0; 25; 50] None None;
            CaddPointLoad 25 (Vector [0; 10; 0]) (Some "P")] n 1%nat Hn Hid).
Defined.

(** X7.  After any sequence of calls on an empty beam, a node with a
    fixity entry other than 0 has [hasReaction] true: the flag is never
    missing on a restrained node (a free node can have it, see C6). *)
Theorem restrained_has_reaction (dimension : Dimension) (cs : list call) :
  let b := run cs (blank dimension) in
  ∀ n v, n ∈ nodes b → v ∈ Node.fixity n → v ≠ 0 → Node.hasReaction n = true.
Proof.
  intros b n v Hn Hv Hne.
  destruct (Node.hasReaction n) eqn:Hr; [done|].
  pose proof (inv_reaction _ (Inv2_reachable dimension cs) n Hn Hr) as H0.
  rewrite Forall_forall in H0. by specialize (H0 v Hv).
Qed.

(** X7 on a beam with a pinned support set at 2.5. *)
Lemma restrained_has_reaction_witness :
  let b := run [CaddNodes [0; 25; 50] None None;
                CsetFixity 25 (FVec [1; 1; 0]) None] (blank D2) in
  ∃ n, nodes b !! 1%nat = Some n ∧ Node.fixity n = [1; 1; 0]
       ∧ Node.hasReaction n = true.
Proof.
  intros b. eexists. split; [by vm_compute|]. split; [by vm_compute|].
  apply (restrained_has_reaction D2
    [CaddNodes [0; 25; 50] None None; CsetFixity 25 (FVec [1; 1; 0]) None] _ 1).
  - apply (list_elem_of_lookup_2 _ 1%nat). by vm_compute.
  - apply (bool_decide_unpack _). by vm_compute.
  - done.
Defined.

Lemma FmaxLoop_no_results ndf index acc ns :
  (∀ n, n ∈ ns → Node.Fint n = None) →
  FmaxLoop ndf index acc ns = match ns with [] => Return acc | _ => Raise TypeError end.
Proof.
  intros H. destruct ns as [|n ns]; [done|]. cbn. unfold FmaxStep.
  rewrite (H n); [done|by left].
Qed.

Lemma getInternalForceLoop_no_results index N ii ns xs fs :
  (∀ n, n ∈ ns → Node.Fint n = None) →
  getInternalForceLoop index N ii ns xs fs
  = match ns with [] => Return (xs, fs) | _ => Raise TypeError end.
Proof.
  intros H. destruct ns as [|n ns]; [done|]. cbn.
  rewrite (H n); [done|by left].
Qed.

(** X8.  No method of the registry writes a result: after any sequence
    of calls on an empty beam every node has [Fint] [None] and is of the
    dimension of the beam.  So, before an analysis, [Fmax], [Mmax],
    [Vmax], [getInternalForce], [getBMD] and [getSFD] raise [TypeError] on
    every beam that has a node; on the beam without nodes [Fmax] returns
    [(0, 0)] and [getInternalForce] two empty arrays. *)
Theorem no_results_before_analysis (dimension : Dimension) (cs : list call) (index : nat) :
  let b := run cs (blank dimension) in
  (∀ n, n ∈ nodes b → Node.Fint n = None ∧ Node.dimension n = dimension)
  ∧ (nodes b ≠ [] →
       Fmax index b = Raise TypeError ∧ Mmax b = Raise TypeError
       ∧ Vmax b = Raise TypeError ∧ getInternalForce index b = Raise TypeError
       ∧ getBMD b = Raise TypeError ∧ getSFD b = Raise TypeError)
  ∧ (nodes b = [] →
       Fmax index b = Return (0, 0) ∧ getInternalForce index b = Return ([], [])).
Proof.
  intros b. pose proof (Inv2_reachable dimension cs) as HI2. fold b in HI2.
  pose proof (Inv_reachable dimension cs) as HI. fold b in HI.
  assert (∀ n, n ∈ nodes b → Node.Fint n = None) as HF by apply (inv_Fint _ HI2).
  assert (_dimension b = dimension) as Hdim.
  { subst b. clear. induction cs as [|c cs IH] using rev_ind; [done|].
    rewrite run_snoc. pose proof (Inv_reachable dimension cs) as HI.
    assert (∀ b b', rtc act b b' → Inv b → _dimension b' = _dimension b) as Hkeep.
    { intros b b' Hs. induction Hs as [b|b b1 b' H1 _ IHs]; [done|]. intros HIb.
      rewrite (IHs (act_Inv _ _ HIb H1)).
      destruct H1; try done.
      destruct (sortNodes_spec b HIb) as (b'' & -> & Hr & _). apply (rs_dimension _ _ Hr). }
    rewrite (Hkeep _ _ (exec_acts c _ HI) HI). done. }
  split_and!.
  - intros n Hn. split; [by apply HF|]. rewrite <- Hdim. by apply (inv_dimension _ HI2).
  - intros Hne. unfold Mmax, Vmax, getBMD, getSFD, Fmax, getInternalForce.
    rewrite !(FmaxLoop_no_results _ _ _ _ HF).
    rewrite !(getInternalForceLoop_no_results _ _ _ _ _ _ HF).
    destruct (nodes b); [done|]. by destruct (_dimension b).
  - intros Hnil. unfold Fmax, getInternalForce.
    rewrite (inv_count _ HI), Hnil. done.
Qed.

(** ** The effect of each method *)

Lemma resorted_frame b b' n :
  resorted b b' → n ∈ nodes b → ∃ n', n' ∈ nodes b' ∧ sameNode n n'.
Proof.
  intros Hr Hn. destruct (rs_nodes _ _ Hr) as (ns & Hp & ->).
  rewrite <- Hp in Hn. apply list_elem_of_lookup in Hn as [j Hj].
  exists (Node._setID (Some (S j)) n). split; [|done].
  apply list_elem_of_lookup. exists j. by rewrite lookup_renumber, Hj.
Qed.

Lemma Forall2_sameLoad_refl pls : Forall2 sameLoad pls pls.
Proof. apply Forall_Forall2_diag, Forall_forall. intros ? _. apply sameLoad_refl. Qed.

Lemma Forall2_sameLoad_trans l1 l2 l3 :
  Forall2 sameLoad l1 l2 → Forall2 sameLoad l2 l3 → Forall2 sameLoad l1 l3.
Proof.
  intros H12. revert l3. induction H12 as [|p1 p2 l1 l2 H _ IH]; intros l3 H23.
  - by inversion H23.
  - inversion H23 as [|? p3 ? l3' H' H23']; subst. constructor.
    + by eapply sameLoad_trans.
    + by apply IH.
Qed.

(** What [addNode] changes, in both of its cases. *)
Lemma addNode_effect x fixity label sort b :
  Inv b →
  ∃ b' n, addNode x fixity label sort b
          = (Return (if decide (x ∈ nodeCoords b) then 0 else 1), b')
    ∧ Inv b'
    ∧ nodeCoords b' = nodeCoords b ∪ {[x]}
    ∧ Nnodes b' = (if decide (x ∈ nodeCoords b) then Nnodes b else S (Nnodes b))
    ∧ eleLoads b' = eleLoads b ∧ _dimension b' = _dimension b
    ∧ Forall2 sameLoad (pointLoads b) (pointLoads b')
    ∧ nodeOf x b' = Some n
    ∧ sameNode (Node.init (_dimension b) x (default (zeros (_ndf b)) fixity) label) n
    ∧ (∀ m, m ∈ nodes b → Node.x m ≠ x → ∃ m', m' ∈ nodes b' ∧ sameNode m m').
Proof.
  intros HI. destruct (decide (x ∈ nodeCoords b)) as [Hx|Hx].
  - destruct (findNode_Inv _ _ HI Hx) as (index & node & Hf & Hn & Hxn).
    rewrite (addNode_merge _ _ _ _ _ _ _ Hx Hf Hn).
    assert (Inv (setNodes (<[index := merged b x fixity label node]> (nodes b)) b)) as HI'.
    { eapply Inv_replace; [done..| |done]. by rewrite Hxn. }
    eexists _, (merged b x fixity label node).
    split_and!; [done|done| |done|done|done| | |reflexivity|].
    + cbn. apply set_eq. intros z. rewrite elem_of_union, elem_of_singleton.
      split; [by left|]. by intros [?| ->].
    + apply Forall2_sameLoad_refl.
    + apply nodeOf_Some; [done|]. split; [|done]. cbn.
      eapply list_elem_of_lookup_2, list_lookup_insert_eq. by eapply lookup_lt_Some.
    + intros m [j Hj]%list_elem_of_lookup Hm. exists m. split; [|apply sameNode_refl].
      cbn. apply list_elem_of_lookup. exists j.
      rewrite list_lookup_insert_ne; [done|]. intros ->. by simplify_eq.
  - set (newNode := Node.init (_dimension b) x (default (zeros (_ndf b)) fixity) label).
    pose proof (Inv_appended newNode b HI Hx) as HI1.
    assert (Node._setID (Some (S (Nnodes b))) newNode ∈ nodes (appended newNode b)) as Hnew.
    { cbn. apply elem_of_app. right. by apply list_elem_of_singleton. }
    destruct sort.
    + destruct (addNode_new_sorted x fixity label b HI Hx) as (b' & Hb' & _ & Hr & HI' & _).
      destruct (resorted_frame _ _ _ Hr Hnew) as (n & Hn & Hsame).
      exists b', n. rewrite Hb'. split_and!; [done|done|..].
      * by rewrite (rs_coords _ _ Hr).
      * by rewrite (rs_Nnodes _ _ Hr).
      * by rewrite (rs_eleLoads _ _ Hr).
      * by rewrite (rs_dimension _ _ Hr).
      * apply (rs_loads _ _ Hr).
      * apply nodeOf_Some; [done|]. split; [done|]. by rewrite Hsame.
      * eapply sameNode_trans; [|exact Hsame]. done.
      * intros m Hm _. apply (resorted_frame _ _ _ Hr). cbn. apply elem_of_app. by left.
    + rewrite (addNode_new _ _ _ _ _ Hx). fold newNode.
      exists (appended newNode b), (Node._setID (Some (S (Nnodes b))) newNode).
      split_and!; [done|done|done|done|done|done| | |done|].
      * apply Forall2_sameLoad_refl.
      * by apply nodeOf_Some.
      * intros m Hm _. exists m. split; [|apply sameNode_refl]. cbn. apply elem_of_app. by left.
Qed.

(** X9.  [addNode] at a coordinate that is not in the beam returns 1 and
    adds one node: [Nnodes] grows by one, the coordinate joins
    [nodeCoords], and the node at the coordinate is the one
    [Node.__init__] builds from the arguments (free when no fixity is
    given, with no load attached), with an identifier.  Every node that
    was there is still there, the same up to its identifier, and the
    point loads are the same up to the identifier of their node.  Without
    a sort the new node is the last of the list, with [Nnodes] as
    identifier. *)
Theorem addNode_new_effect (dimension : Dimension) (cs : list call)
    (x : Z) (fixity : option (list Z)) (label : Label) (sort : bool) :
  let b := run cs (blank dimension) in
  x ∉ nodeCoords b →
  ∃ b' n, addNode x fixity label sort b = (Return 1, b')
    ∧ Nnodes b' = S (Nnodes b)
    ∧ nodeCoords b' = nodeCoords b ∪ {[x]}
    ∧ nodeOf x b' = Some n
    ∧ sameNode (Node.init (_dimension b) x (default (zeros (_ndf b)) fixity) label) n
    ∧ (∀ m, m ∈ nodes b → ∃ m', m' ∈ nodes b' ∧ sameNode m m')
    ∧ Forall2 sameLoad (pointLoads b) (pointLoads b')
    ∧ (sort = false →
         nodes b' = nodes b ++ [Node._setID (Some (S (Nnodes b)))
            (Node.init (_dimension b) x (default (zeros (_ndf b)) fixity) label)]).
Proof.
  intros b Hx. pose proof (Inv_reachable dimension cs) as HI. fold b in HI.
  destruct (addNode_effect x fixity label sort b HI)
    as (b' & n & Hb' & _ & Hc & HN & _ & _ & Hl & Hn & Hs & Hfr).
  rewrite decide_False in Hb' by done. rewrite decide_False in HN by done.
  exists b', n. split_and!; try done.
  - intros m Hm. apply Hfr; [done|]. intros <-. apply Hx, (inv_coords _ HI).
    apply list_elem_of_fmap. eauto.
  - intros ->. rewrite (addNode_new _ _ _ _ _ Hx) in Hb'. by simplify_eq.
Qed.

(** X9 on scenario A: a node at 3.0 with label 'D'. *)
Lemma addNode_new_effect_witness :
  let cs := [CaddNodes [0; 50] (Some [fix111; fix111]) (Some [Some "A"; Some "B"])] in
  let b := run cs (blank D2) in
  (30 ∉ nodeCoords b) ∧
  ∃ b' n, addNode 30 None (Some "D") true b = (Return 1, b')
    ∧ Nnodes b' = 3%nat ∧ nodeOf 30 b' = Some n
    ∧ Node.label n = Some "D" ∧ Node.fixity n = [0; 0; 0] ∧ Node.hasReaction n = false.
Proof.
  intros cs b. split; [by vm_compute|].
  destruct (addNode_new_effect D2 cs 30 None (Some "D") true)
    as (b' & n & Hb' & HN & _ & Hn & Hs & _); [by vm_compute|].
  exists b', n. split_and!; [done|by rewrite HN|done|by rewrite Hs..].
Defined.

(** X10.  [addLabel] at a coordinate that is in the beam returns 0 and
    changes nothing but the label of the node there, which becomes the
    label of the call even when that is empty or [None]: the fixity, the
    attached loads, the identifier and all other nodes stay, and there is
    no resort.  (So, unlike [addNode], it keeps the attachments.) *)
Theorem addLabel_existing_effect (dimension : Dimension) (cs : list call)
    (x : Z) (label : Label) (sort : bool) :
  let b := run cs (blank dimension) in
  x ∈ nodeCoords b →
  ∃ index node,
    nodes b !! index = Some node ∧ Node.x node = x
    ∧ addLabel x label sort b
      = (Return 0, setNodes (<[index := Node.setLabel label node]> (nodes b)) b).
Proof.
  intros b Hx. pose proof (Inv_reachable dimension cs) as HI. fold b in HI.
  destruct (findNode_Inv _ _ HI Hx) as (index & node & Hf & Hn & Hxn).
  exists index, node. split_and!; [done..|].
  by rewrite (addLabel_eq _ _ _ _ HI), Hf, (alter_insert _ _ _ _ Hn).
Qed.

(** X10 on scenario E: relabelling the loaded node at 2.5 with the empty
    label keeps its load. *)
Lemma addLabel_existing_effect_witness :
  let cs := [CaddNodes [0; 25; 50] None None;
             CaddPointLoad 25 (Vector [0; 10; 0]) (Some "P")] in
  let b := run cs (blank D2) in
  (25 ∈ nodeCoords b) ∧
  ∃ index node,
    nodes b !! index = Some node ∧ Node.x node = 25
    ∧ addLabel 25 (Some EmptyString) true b
      = (Return 0,
         setNodes (<[index := Node.setLabel (Some EmptyString) node]> (nodes b)) b).
Proof.
  intros cs b. split; [by vm_compute|].
  apply (addLabel_existing_effect D2 cs 25 (Some EmptyString) true).
  by vm_compute.
Defined.

(** X11.  [setFixity] at a coordinate that is in the beam, with a vector
    that passes the check, returns and updates the node there in place:
    its fixity is the vector, [hasReaction] is true, its label is the
    label of the call when that is non-empty and else the label it had;
    its attached loads, its identifier and all other nodes stay, and
    there is no resort. *)
Theorem setFixity_existing_effect (dimension : Dimension) (cs : list call)
    (x : Z) (fixity : FixityInput) (label : Label) :
  let b := run cs (blank dimension) in
  let f := match fixity with FInt v => replicate (_ndf b) v | FVec l => l end in
  x ∈ nodeCoords b →
  (∀ v, v ∈ f → v = 0 ∨ v = 1) → length f ≠ 2%nat → (length f ≤ _ndf b)%nat →
  ∃ index node node',
    nodes b !! index = Some node ∧ Node.x node = x
    ∧ setFixity x fixity label b
      = (Return tt, setNodes (<[index := node']> (nodes b)) b)
    ∧ node' = refixed f label node
    ∧ Node.fixity node' = f ∧ Node.hasReaction node' = true
    ∧ Node.label node' = (if truthy label then label else Node.label node)
    ∧ Node.pointLoadIDs node' = Node.pointLoadIDs node
    ∧ Node.ID node' = Node.ID node ∧ Node.x node' = x.
Proof.
  intros b f Hx Hall H2 Hle. pose proof (Inv_reachable dimension cs) as HI. fold b in HI.
  destruct (findNode_Inv _ _ HI Hx) as (index & node & Hf & Hn & Hxn).
  exists index, node, (refixed f label node).
  split_and!; [done|done| |done|..]; try (unfold refixed; by destruct (truthy label)).
  apply (setFixity_existing_eq x fixity label b index node Hx Hf Hn).
  - apply forallb_forall. intros v Hv%list_elem_of_In.
    destruct (Hall v Hv) as [-> | ->]; done.
  - apply orb_false_iff. split; [by apply Nat.eqb_neq|apply Nat.ltb_ge; exact Hle].
Qed.

(** X11 on scenario A: a roller at 5 without a label keeps the label 'B'. *)
Lemma setFixity_existing_effect_witness :
  let cs := [CaddNodes [0; 50] (Some [fix111; fix111]) (Some [Some "A"; Some "B"])] in
  let b := run cs (blank D2) in
  ∃ index node node',
    nodes b !! index = Some node ∧ Node.x node = 50
    ∧ setFixity 50 (FVec [0; 1; 0]) None b
      = (Return tt, setNodes (<[index := node']> (nodes b)) b)
    ∧ node' = refixed [0; 1; 0] None node
    ∧ Node.fixity node' = [0; 1; 0] ∧ Node.hasReaction node' = true
    ∧ Node.label node' = Node.label node
    ∧ Node.pointLoadIDs node' = Node.pointLoadIDs node
    ∧ Node.ID node' = Node.ID node ∧ Node.x node' = 50.
Proof.
  intros cs b.
  apply (setFixity_existing_effect D2 cs 50 (FVec [0; 1; 0]) None).
  - by vm_compute.
  - intros v. rewrite !elem_of_cons, elem_of_nil. intros [->|[->|[->|[]]]]; auto.
  - done.
  - vm_compute. lia.
Defined.

Lemma setFixity_outcome x fixity label b :
  Inv b →
  let f := match fixity with FInt v => replicate (_ndf b) v | FVec l => l end in
  if forallb (λ v, (v =? 0) || (v =? 1)) f
     && negb ((length f =? 2)%nat || (_ndf b <? length f)%nat)
  then fst (setFixity x fixity label b) = Return tt
  else setFixity x fixity label b = (Raise ValueError, b).
Proof.
  intros HI f.
  destruct (forallb (λ v, (v =? 0) || (v =? 1)) f) eqn:Hall; cbn [andb].
  2:{ unfold setFixity. erewrite bind_eq by apply convertFixityInput_eq. fold f.
      by erewrite bind_eq_raise by (by rewrite checkfixityInput_eq, Hall). }
  destruct ((length f =? 2)%nat || (_ndf b <? length f)%nat) eqn:Hlen; cbn [negb].
  { unfold setFixity. erewrite bind_eq by apply convertFixityInput_eq. fold f.
    by erewrite bind_eq_raise by (by rewrite checkfixityInput_eq, Hall, Hlen). }
  destruct (decide (x ∈ nodeCoords b)) as [Hx|Hx].
  - destruct (findNode_Inv _ _ HI Hx) as (index & node & Hf & Hn & Hxn).
    by rewrite (setFixity_existing_eq x fixity label b index node Hx Hf Hn Hall Hlen).
  - unfold setFixity. erewrite bind_eq by apply convertFixityInput_eq. fold f.
    unfold bind at 1. rewrite checkfixityInput_eq, Hall, Hlen. cbn [negb].
    mred. rewrite decide_False by done.
    destruct (addNode_acts x (Some f) label true b HI) as (b' & Hb' & Hs).
    by erewrite bind_eq by exact Hb'.
Qed.

(** X12.  On a beam reached by any sequence of calls, [setFixity] returns
    exactly when every entry of the vector (the integer repeated [ndf]
    times, when an integer is given) is 0 or 1, its length is not 2 and
    its length is at most [ndf]; otherwise it raises [ValueError] and the
    beam is as before the call.  An integer is accepted exactly when it is
    0 or 1. *)
Theorem setFixity_accepts_iff (dimension : Dimension) (cs : list call)
    (x : Z) (fixity : FixityInput) (label : Label) :
  let b := run cs (blank dimension) in
  let f := match fixity with FInt v => replicate (_ndf b) v | FVec l => l end in
  (fst (setFixity x fixity label b) = Return tt
   ↔ (∀ v, v ∈ f → v = 0 ∨ v = 1) ∧ length f ≠ 2%nat ∧ (length f ≤ _ndf b)%nat)
  ∧ (fst (setFixity x fixity label b) ≠ Return tt →
     setFixity x fixity label b = (Raise ValueError, b))
  ∧ (∀ v, fixity = FInt v →
       (fst (setFixity x fixity label b) = Return tt ↔ v = 0 ∨ v = 1)).
Proof.
  intros b f. pose proof (Inv_reachable dimension cs) as HI. fold b in HI.
  pose proof (setFixity_outcome x fixity label b HI) as Hout. cbv zeta in Hout. fold f in Hout.
  assert (forallb (λ v, (v =? 0) || (v =? 1)) f = true ↔ ∀ v, v ∈ f → v = 0 ∨ v = 1) as Hall.
  { rewrite forallb_forall. split.
    - intros H v Hv%list_elem_of_In. specialize (H v Hv). lia.
    - intros H v Hv%list_elem_of_In. destruct (H v Hv) as [-> | ->]; done. }
  assert ((length f =? 2)%nat || (_ndf b <? length f)%nat = false
          ↔ length f ≠ 2%nat ∧ (length f ≤ _ndf b)%nat) as Hlen.
  { rewrite orb_false_iff, Nat.eqb_neq, Nat.ltb_ge. done. }
  assert (fst (setFixity x fixity label b) = Return tt
          ↔ (∀ v, v ∈ f → v = 0 ∨ v = 1) ∧ length f ≠ 2%nat ∧ (length f ≤ _ndf b)%nat)
    as Hiff.
  { rewrite <- Hall, <- Hlen.
    destruct (forallb _ f); cbn [andb] in Hout.
    - destruct (_ || _); cbn [negb] in Hout.
      + rewrite Hout. cbn. split; [done|]. by intros [_ ?].
      + done.
    - rewrite Hout. cbn. split; [done|]. by intros [? _]. }
  split_and!; [done| |].
  - intros Hne. destruct (forallb _ f && _); [done|done].
  - intros v ->. rewrite Hiff. subst f. rewrite length_replicate.
    assert (_ndf b = 3%nat ∨ _ndf b = 6%nat) as Hndf
      by (unfold _ndf; destruct (_dimension b); auto).
    split.
    + intros (H & _). apply H, elem_of_replicate. split; [done|lia].
    + intros Hv. split_and!; [|lia..]. by intros v' [-> _]%elem_of_replicate.
Qed.

(** X12 on scenario A: the integer 1 is accepted, the vector [[1, 0]]
    and the value 2 are not. *)
Lemma setFixity_accepts_iff_witness :
  let cs := [CaddNodes [0; 50] (Some [fix111; fix111]) (Some [Some "A"; Some "B"])] in
  let b := run cs (blank D2) in
  fst (setFixity 50 (FInt 1) None b) = Return tt
  ∧ setFixity 50 (FVec [1; 0]) None b = (Raise ValueError, b)
  ∧ setFixity 50 (FInt 2) None b = (Raise ValueError, b).
Proof.
  intros cs b. split_and!.
  - apply (proj2 (proj2 (setFixity_accepts_iff D2 cs 50 (FInt 1) None)) 1 eq_refl). by right.
  - apply (proj1 (proj2 (setFixity_accepts_iff D2 cs 50 (FVec [1; 0]) None))). by vm_compute.
  - apply (proj1 (proj2 (setFixity_accepts_iff D2 cs 50 (FInt 2) None))). by vm_compute.
Defined.

(** ** Point loads *)

Lemma nodeOf_None x b : Inv b → x ∉ nodeCoords b → nodeOf x b = None.
Proof.
  intros HI Hx. unfold nodeOf.
  assert (_findNode x b = None) as ->; [|done].
  apply findNode_None. by rewrite <- (inv_coords _ HI).
Qed.

Lemma nodeOf_lookup x b index node :
  _findNode x b = Some index → nodes b !! index = Some node → nodeOf x b = Some node.
Proof. intros Hf Hn. unfold nodeOf. by rewrite Hf. Qed.

Lemma union_singleton_elem (x : Z) (X : gset Z) : x ∈ X → X = X ∪ {[x]}.
Proof.
  intros Hx. apply set_eq. intros z. rewrite elem_of_union, elem_of_singleton.
  split; [auto|]. by intros [?| ->].
Qed.

(** What [addPointLoad] changes; [old] is the node at [x] before the
    call, if there is one. *)
Lemma addPointLoad_spec x P label b :
  Inv b →
  let old := nodeOf x b in
  ∃ b' pls index node,
    addPointLoad x (Vector P) label b = (Return tt, b')
    ∧ Inv b'
    ∧ pointLoads b' = pls ++ [PointLoad.mk P x (S index) (Some EmptyString)]
    ∧ Forall2 sameLoad (pointLoads b) pls
    ∧ nodes b' !! index = Some node ∧ Node.x node = x
    ∧ Node.pointLoadIDs node
      = from_option Node.pointLoadIDs [] old ++ [S (length (pointLoads b))]
    ∧ Node.label node
      = (if truthy label then label else from_option Node.label (Some EmptyString) old)
    ∧ Node.fixity node = from_option Node.fixity (zeros (_ndf b)) old
    ∧ nodeCoords b' = nodeCoords b ∪ {[x]}
    ∧ Nnodes b' = (if decide (x ∈ nodeCoords b) then Nnodes b else S (Nnodes b))
    ∧ eleLoads b' = eleLoads b ∧ _dimension b' = _dimension b.
Proof.
  intros HI old.
  pose proof (acts_Inv _ _ HI (addPointLoad_acts x (Vector P) label b HI)) as HI'.
  destruct (addPointLoad_eq x P label b HI)
    as (index & node & Hf & Hn & Hxn & HI1 & _ & Heq).
  cbv zeta in Hf, Hn, HI1, Heq. rewrite Heq in HI'. cbn [snd] in HI'.
  set (b1 := if decide (x ∈ nodeCoords b) then b
             else snd (addNode x None (Some EmptyString) true b)) in *.
  assert (Forall2 sameLoad (pointLoads b) (pointLoads b1)
          ∧ nodeCoords b1 = nodeCoords b ∪ {[x]}
          ∧ Nnodes b1 = (if decide (x ∈ nodeCoords b) then Nnodes b else S (Nnodes b))
          ∧ eleLoads b1 = eleLoads b ∧ _dimension b1 = _dimension b
          ∧ Node.pointLoadIDs node = from_option Node.pointLoadIDs [] old
          ∧ Node.label node = from_option Node.label (Some EmptyString) old
          ∧ Node.fixity node = from_option Node.fixity (zeros (_ndf b)) old)
    as (HF & Hco & HN & He & Hd & Hids & Hlab & Hfix).
  { subst b1 old. destruct (decide (x ∈ nodeCoords b)) as [Hx|Hx].
    - rewrite (nodeOf_lookup _ _ _ _ Hf Hn). cbn [from_option].
      split_and!; [apply Forall2_sameLoad_refl|by apply union_singleton_elem|done..].
    - rewrite (nodeOf_None _ _ HI Hx). cbn [from_option].
      destruct (addNode_effect x None (Some EmptyString) true b HI)
        as (b2 & n & Heq2 & HI2 & Hco & HN & He & Hd & HF & Hno & Hsame & _).
      rewrite Heq2 in Hf, Hn |- *. cbn [snd] in Hf, Hn |- *.
      rewrite decide_False in HN by done.
      rewrite (nodeOf_lookup _ _ _ _ Hf Hn) in Hno. simplify_eq.
      split_and!; [done..| | |]; by rewrite Hsame. }
  assert (index < length (nodes b1))%nat as Hlt by by eapply lookup_lt_Some.
  assert (length (pointLoads b1) = length (pointLoads b)) as Hlen
    by (symmetry; apply (Forall2_length _ _ _ HF)).
  exists (loaded P label index node b1), (pointLoads b1), index,
    (attached (S (length (pointLoads b))) label node).
  split_and!; [done|done| |done| | | | | |done..].
  - unfold loaded. cbn. by rewrite Hxn, Nat.add_1_r.
  - unfold loaded. cbn. rewrite Hlen, Nat.add_1_r. by apply list_lookup_insert_eq.
  - unfold attached. by destruct (truthy label).
  - unfold attached. destruct (truthy label); cbn; by rewrite Hids.
  - unfold attached. by destruct (truthy label).
  - unfold attached. by destruct (truthy label).
Qed.

(** X13.  [addPointLoad] with a vector returns on every beam reached by
    calls: it appends one load, which carries the vector, the coordinate
    and an empty label, and whose [nodeID] is the identifier of the node
    at the coordinate; the loads that were there stay in their order, the
    same up to their [nodeID] (none is deleted or overwritten).  The node
    at the coordinate, created free and without label if there was none,
    gets the place of the load, counted from 1, at the end of its
    [pointLoadIDs]; its label becomes the label of the call only when that
    is non-empty.  A load without [__iter__] raises [Exception] and leaves
    the beam as it is. *)
Theorem addPointLoad_effect (dimension : Dimension) (cs : list call)
    (x : Z) (P : list Z) (label : Label) :
  let b := run cs (blank dimension) in
  let old := nodeOf x b in
  (∀ v, addPointLoad x (Scalar v) label b = (Raise Exception, b))
  ∧ ∃ b' pls pl node,
      addPointLoad x (Vector P) label b = (Return tt, b')
      ∧ pointLoads b' = pls ++ [pl] ∧ Forall2 sameLoad (pointLoads b) pls
      ∧ PointLoad.P pl = P ∧ PointLoad.x pl = x
      ∧ PointLoad.label pl = Some EmptyString
      ∧ nodeOf x b' = Some node
      ∧ Node.ID node = Some (PointLoad.nodeID pl)
      ∧ Node.pointLoadIDs node
        = from_option Node.pointLoadIDs [] old ++ [length (pointLoads b')]
      ∧ Node.label node
        = (if truthy label then label else from_option Node.label (Some EmptyString) old)
      ∧ Node.fixity node = from_option Node.fixity (zeros (_ndf b)) old
      ∧ nodeCoords b' = nodeCoords b ∪ {[x]}.
Proof.
  intros b old. split; [done|].
  pose proof (Inv_reachable dimension cs) as HI. fold b in HI.
  destruct (addPointLoad_spec x P label b HI)
    as (b' & pls & index & node & Heq & HI' & Hpl & HF & Hn & Hx & Hids & Hlab & Hfix
        & Hco & _).
  exists b', pls, (PointLoad.mk P x (S index) (Some EmptyString)), node.
  split_and!; [done..| | | |done|done|done].
  - apply (nodeOf_Some _ _ _ HI'). split; [|done]. by eapply list_elem_of_lookup_2.
  - apply (inv_ids _ HI' _ _ Hn).
  - rewrite Hids, Hpl, length_app, <- (Forall2_length _ _ _ HF). cbn.
    by rewrite Nat.add_1_r.
Qed.

(** X14.  The three directional point loads return on every beam reached
    by calls and append a load at the coordinate whose vector has [ndf]
    entries, all zero but the magnitude: at index 0 for
    [addHorizontalLoad], at index 1 for [addVerticalLoad], and at the last
    index (2 on a planar, 5 on a spatial beam) for [addMoment]. *)
Theorem directional_loads (dimension : Dimension) (cs : list call)
    (x v : Z) (label : Label) :
  let b := run cs (blank dimension) in
  let appends (m : M unit) (P : list Z) :=
    ∃ b' pls pl, m b = (Return tt, b') ∧ pointLoads b' = pls ++ [pl]
      ∧ Forall2 sameLoad (pointLoads b) pls
      ∧ PointLoad.P pl = P ∧ PointLoad.x pl = x in
  appends (addHorizontalLoad x v label) (<[0%nat := v]> (zeros (_ndf b)))
  ∧ appends (addVerticalLoad x v label) (<[1%nat := v]> (zeros (_ndf b)))
  ∧ appends (addMoment x v label) (<[(_ndf b - 1)%nat := v]> (zeros (_ndf b))).
Proof.
  intros b appends.
  pose proof (Inv_reachable dimension cs) as HI. fold b in HI.
  assert (∀ P, appends (addPointLoad x (Vector P) label) P) as Happ.
  { intros P. destruct (addPointLoad_spec x P label b HI)
      as (b' & pls & index & node & Heq & _ & Hpl & HF & _).
    by exists b', pls, (PointLoad.mk P x (S index) (Some EmptyString)). }
  subst appends. cbn beta in *.
  unfold addHorizontalLoad, addVerticalLoad, addMoment, _ndf.
  rewrite !bind_self. cbn beta zeta.
  split_and!; destruct (_dimension b); apply Happ.
Qed.

(** ** Distributed loads *)

(** [if x not in self.nodeCoords: self.addNode(x, fixity)] *)
Lemma ensureNode_spec x fixity b :
  Inv b →
  ∃ b', (if decide (x ∉ nodeCoords b)
         then addNode x fixity (Some EmptyString) true ;;; ret tt
         else ret tt) b = (Return tt, b')
    ∧ Inv b'
    ∧ nodeCoords b' = nodeCoords b ∪ {[x]}
    ∧ eleLoads b' = eleLoads b ∧ _dimension b' = _dimension b
    ∧ Forall2 sameLoad (pointLoads b) (pointLoads b')
    ∧ (∀ m, m ∈ nodes b → ∃ m', m' ∈ nodes b' ∧ sameNode m m').
Proof.
  intros HI. destruct (decide (x ∉ nodeCoords b)) as [Hx|Hx].
  - destruct (addNode_effect x fixity (Some EmptyString) true b HI)
      as (b' & n & Heq & HI' & Hco & _ & He & Hd & HF & _ & _ & Hkeep).
    exists b'. erewrite bind_eq by exact Heq.
    split_and!; [done..|]. intros m Hm. apply Hkeep; [done|].
    intros <-. apply Hx, (inv_coords _ HI), list_elem_of_fmap. eauto.
  - apply dec_stable in Hx. exists b.
    split_and!; [done|done|by apply union_singleton_elem|done|done| |].
    + apply Forall2_sameLoad_refl.
    + intros m Hm. exists m. split; [done|apply sameNode_refl].
Qed.

(** X15.  [addDistLoad] returns on every beam reached by calls, whatever
    the order of [x1] and [x2] (also when they are equal): it appends one
    element load with the two coordinates, the vector and the label as
    given, and makes both coordinates nodes of the beam.  A node that is
    already at one of them is not replaced: every node that was there is
    still there, the same up to its identifier, and the point loads are
    the same up to the identifier of their node.  The two directional
    forms pass a vector with as many entries as the beam has dimensions,
    with the magnitude at index 1 for the vertical and 0 for the
    horizontal load. *)
Theorem addDistLoad_effect (dimension : Dimension) (cs : list call)
    (x1 x2 : Z) (distLoad : list Z) (label : Label) :
  let b := run cs (blank dimension) in
  let ndm := match _dimension b with D2 => 2%nat | D3 => 3%nat end in
  (∃ b', addDistLoad x1 x2 distLoad label b = (Return tt, b')
     ∧ eleLoads b' = eleLoads b ++ [EleLoad.mk x1 x2 distLoad label]
     ∧ nodeCoords b' = nodeCoords b ∪ {[x1; x2]}
     ∧ Nnodes b' = size (nodeCoords b ∪ {[x1; x2]})
     ∧ Forall2 sameLoad (pointLoads b) (pointLoads b')
     ∧ (∀ m, m ∈ nodes b → ∃ m', m' ∈ nodes b' ∧ sameNode m m'))
  ∧ (∀ q, addDistLoadVertical x1 x2 q label b
          = addDistLoad x1 x2 (<[1%nat := q]> (zeros ndm)) label b)
  ∧ (∀ q, addDistLoadHorizontal x1 x2 q label b
          = addDistLoad x1 x2 (<[0%nat := q]> (zeros ndm)) label b).
Proof.
  intros b ndm.
  pose proof (Inv_reachable dimension cs) as HI. fold b in HI.
  split_and!.
  - unfold addDistLoad. mred.
    destruct (ensureNode_spec x1 (Some (zeros (_ndf b))) b HI)
      as (b1 & Heq1 & HI1 & Hco1 & He1 & Hd1 & HF1 & Hk1).
    erewrite bind_eq by exact Heq1. mred.
    destruct (ensureNode_spec x2 (Some (zeros (_ndf b))) b1 HI1)
      as (b2 & Heq2 & HI2 & Hco2 & He2 & Hd2 & HF2 & Hk2).
    erewrite bind_eq by exact Heq2.
    eexists. split; [done|]. cbn.
    assert (nodeCoords b2 = nodeCoords b ∪ {[x1; x2]}) as Hco.
    { rewrite Hco2, Hco1. apply set_eq. intros z.
      rewrite !elem_of_union, !elem_of_singleton. tauto. }
    split_and!.
    + by rewrite He2, He1.
    + done.
    + by rewrite <- Hco, (inv_count _ HI2), (Inv_size _ HI2).
    + by eapply Forall2_sameLoad_trans.
    + intros m Hm. destruct (Hk1 m Hm) as (m1 & Hm1 & Hs1).
      destruct (Hk2 m1 Hm1) as (m2 & Hm2 & Hs2).
      exists m2. split; [done|]. by eapply sameNode_trans.
  - intros q. unfold addDistLoadVertical. rewrite bind_self. cbn beta zeta.
    subst ndm. by destruct (_dimension b).
  - intros q. unfold addDistLoadHorizontal. rewrite bind_self. cbn beta zeta.
    subst ndm. by destruct (_dimension b).
Qed.

(** ** Nothing is removed *)

Lemma step_grows ts b b' :
  Inv b → step ts b b' →
  nodeCoords b ⊆ nodeCoords b'
  ∧ nodeCoords b' ⊆ nodeCoords b ∪ list_to_set ts
  ∧ (Nnodes b ≤ Nnodes b')%nat
  ∧ eleLoads b `prefix_of` eleLoads b'.
Proof.
  intros HI [|n Hts Hx|index node node' Hn Hts ? ?|pl Hpl|el].
  - destruct (sortNodes_spec b HI) as (b'' & -> & Hr & _ & _). cbn.
    rewrite (rs_coords _ _ Hr), (rs_Nnodes _ _ Hr), (rs_eleLoads _ _ Hr).
    split_and!; [done| |done..]. apply union_subseteq_l.
  - cbn. split_and!; [apply union_subseteq_l| |lia|done].
    apply union_mono_l. apply singleton_subseteq_l. by apply elem_of_list_to_set.
  - cbn. split_and!; [done| |done..]. apply union_subseteq_l.
  - cbn. split_and!; [done| |done..]. apply union_subseteq_l.
  - cbn. split_and!; [done| |done|]; [apply union_subseteq_l|by apply prefix_app_r].
Qed.

Lemma steps_grows ts b b' :
  Inv b → rtc (step ts) b b' →
  nodeCoords b ⊆ nodeCoords b'
  ∧ nodeCoords b' ⊆ nodeCoords b ∪ list_to_set ts
  ∧ (Nnodes b ≤ Nnodes b')%nat
  ∧ eleLoads b `prefix_of` eleLoads b'.
Proof.
  intros HI Hs. induction Hs as [b|b b1 b' H1 _ IH].
  - split_and!; [done| |done..]. apply union_subseteq_l.
  - destruct (step_grows _ _ _ HI H1) as (Ha & Hb & Hc & Hd).
    destruct (IH (step_Inv _ _ _ HI H1)) as (Ha' & Hb' & Hc' & Hd').
    split_and!; [by etrans|..|lia|by etrans].
    etrans; [exact Hb'|]. apply union_least; [done|apply union_subseteq_r].
Qed.

Lemma run_grows cs b :
  Inv b →
  nodeCoords b ⊆ nodeCoords (run cs b)
  ∧ nodeCoords (run cs b) ⊆ nodeCoords b ∪ list_to_set (cs ≫= targets)
  ∧ (Nnodes b ≤ Nnodes (run cs b))%nat
  ∧ eleLoads b `prefix_of` eleLoads (run cs b).
Proof.
  revert b. induction cs as [|c cs IH]; intros b HI.
  { split_and!; [done| |done..]. apply union_subseteq_l. }
  destruct (steps_grows _ _ _ HI (exec_steps c b HI)) as (Ha & Hb & Hc & Hd).
  destruct (IH _ (exec_Inv c b HI)) as (Ha' & Hb' & Hc' & Hd').
  cbn [run foldl] in *. fold (run cs (exec c b)) in *.
  split_and!; [by etrans|..|lia|by etrans].
  etrans; [exact Hb'|]. cbn. rewrite list_to_set_app_L.
  apply union_least.
  - etrans; [exact Hb|]. apply union_mono_l, union_subseteq_l.
  - etrans; [|apply union_subseteq_r]. apply union_subseteq_r.
Qed.

(** X16.  No call removes anything.  Let [b] be a beam reached by calls
    and [b'] the beam after any further calls, whether they returned or
    raised.  Every coordinate of [b] is a coordinate of [b'], and every
    new one is a coordinate named by one of the calls; the counter does
    not fall; the element loads of [b] open the list of [b'] unchanged;
    and every point load of [b] is in its place in [b'], the same up to
    its [nodeID].  (So a load is never deleted or overwritten by a later
    load at its coordinate.) *)
Theorem nothing_removed (dimension : Dimension) (before after : list call) :
  let b := run before (blank dimension) in
  let b' := run after b in
  nodeCoords b ⊆ nodeCoords b'
  ∧ nodeCoords b' ⊆ nodeCoords b ∪ list_to_set (after ≫= targets)
  ∧ (Nnodes b ≤ Nnodes b')%nat
  ∧ eleLoads b `prefix_of` eleLoads b'
  ∧ (∀ k pl, pointLoads b !! k = Some pl →
       ∃ pl', pointLoads b' !! k = Some pl' ∧ sameLoad pl pl').
Proof.
  intros b b'. pose proof (Inv_reachable dimension before) as HI. fold b in HI.
  destruct (run_grows after b HI) as (Ha & Hb & Hc & Hd).
  split_and!; [done..|]. intros k pl Hk. by apply run_steps_loads.
Qed.

(** ** Several nodes at once *)

(** The loop of [addNodes] from index [s] on is the sequence of
    [addNode(..., sort=False)] calls on the entries that all three lists
    have, and an [IndexError] after them when a list is too short. *)
Lemma addNodesLoop_calls xCoords fs ls s m b :
  Inv b → (s + m = length xCoords)%nat →
  let adds := zip_with (λ x fl, CaddNode x fl.1 fl.2 false)
                (drop s xCoords) (zip (drop s fs) (drop s ls)) in
  addNodesLoop xCoords fs ls (seq s m) b
  = (if decide (length adds = m) then Return tt else Raise IndexError, run adds b).
Proof.
  revert s b. induction m as [|m IH]; intros s b HI Hlen adds.
  { subst adds. rewrite drop_ge by lia. done. }
  cbn [seq addNodesLoop].
  destruct (lookup_lt_is_Some_2 xCoords s) as [x Hx]; [lia|].
  subst adds. rewrite (drop_S _ _ _ Hx), Hx. mred.
  destruct (fs !! s) as [f|] eqn:Hf; mred.
  2:{ apply lookup_ge_None in Hf. rewrite (drop_ge fs) by done. done. }
  rewrite (drop_S _ _ _ Hf).
  destruct (ls !! s) as [l|] eqn:Hl; mred.
  2:{ apply lookup_ge_None in Hl. rewrite (drop_ge ls) by done. done. }
  rewrite (drop_S _ _ _ Hl). cbn [zip zip_with fst snd length].
  destruct (addNode_run x f l false b HI) as (b1 & Hb1 & _).
  erewrite bind_eq by exact Hb1.
  assert (exec (CaddNode x f l false) b = b1) as Hex by (cbn [exec]; by rewrite Hb1).
  rewrite IH; [|rewrite <- Hex; by apply exec_Inv|lia].
  cbn [run foldl]. rewrite Hex. fold (run (zip_with (λ x fl, CaddNode x fl.1 fl.2 false)
    (drop (S s) xCoords) (zip (drop (S s) fs) (drop (S s) ls))) b1).
  f_equal. repeat case_decide; done || lia.
Qed.

(** [addNodes] on a beam that keeps the invariant. *)
Lemma addNodes_calls xCoords fixities labels b :
  Inv b →
  let fs := default (replicate (length xCoords) (Some (zeros (_ndf b)))) fixities in
  let ls := default (replicate (length xCoords) None) labels in
  let adds := zip_with (λ x fl, CaddNode x fl.1 fl.2 false) xCoords (zip fs ls) in
  addNodes xCoords fixities labels b
  = if decide (length xCoords ≤ length fs ∧ length xCoords ≤ length ls)%nat
    then (Return tt, run (adds ++ [CsortNodes]) b)
    else (Raise IndexError, run adds b).
Proof.
  intros HI fs ls adds.
  unfold addNodes. mred. fold fs ls.
  pose proof (addNodesLoop_calls xCoords fs ls 0 (length xCoords) b HI eq_refl) as Hloop.
  cbv zeta in Hloop. rewrite !drop_0 in Hloop.
  change (zip_with _ xCoords (zip fs ls)) with adds in Hloop.
  assert (length adds = length xCoords `min` (length fs `min` length ls))%nat as Hlen.
  { subst adds. by rewrite length_zip_with, length_zip. }
  destruct (decide (length xCoords ≤ length fs ∧ length xCoords ≤ length ls)%nat)
    as [Hok|Hshort].
  - rewrite decide_True in Hloop by lia.
    erewrite bind_eq by exact Hloop.
    destruct (sortNodes_spec _ (run_Inv adds b HI)) as (b' & Hs & _).
    cbn beta. rewrite run_snoc. cbn [exec]. by rewrite Hs.
  - rewrite decide_False in Hloop by lia.
    by erewrite bind_eq_raise by exact Hloop.
Qed.

(** The coordinates after a sequence of [addNode] calls. *)
Lemma run_adds_coords xs (fls : list (option (list Z) * Label)) sort b :
  Inv b → (length xs ≤ length fls)%nat →
  nodeCoords (run (zip_with (λ x fl, CaddNode x fl.1 fl.2 sort) xs fls) b)
  = nodeCoords b ∪ list_to_set xs.
Proof.
  revert fls b. induction xs as [|x xs IH]; intros fls b HI Hlen.
  { cbn. by rewrite (right_id_L ∅ (∪)). }
  destruct fls as [|fl fls]; [cbn in Hlen; lia|].
  cbn [zip_with run foldl].
  fold (run (zip_with (λ x fl, CaddNode x fl.1 fl.2 sort) xs fls)
          (exec (CaddNode x fl.1 fl.2 sort) b)).
  rewrite IH; [|by apply exec_Inv|cbn in Hlen; lia].
  destruct (addNode_effect x fl.1 fl.2 sort b HI) as (b1 & n & Hb1 & _ & Hco & _).
  cbn [exec]. rewrite Hb1. cbn [snd list_to_set]. rewrite Hco.
  by rewrite (assoc_L (∪)).
Qed.

(** X17.  [addNodes] is [addNode] with [sort=False] on the entries of the
    coordinates, the fixities and the labels taken together, followed by
    one resort.  When a list of fixities or of labels is given that is
    shorter than the coordinates, the nodes up to the missing entry are
    added, the call raises [IndexError] and the resort is not made: the
    beam stays as the calls of [addNode] left it.  Here [b] is any beam
    reached by calls. *)
Theorem addNodes_as_calls (dimension : Dimension) (cs : list call)
    (xCoords : list Z) (fixities : option (list (option (list Z))))
    (labels : option (list Label)) :
  let b := run cs (blank dimension) in
  let fs := default (replicate (length xCoords) (Some (zeros (_ndf b)))) fixities in
  let ls := default (replicate (length xCoords) None) labels in
  let adds := zip_with (λ x fl, CaddNode x fl.1 fl.2 false) xCoords (zip fs ls) in
  addNodes xCoords fixities labels b
  = if decide (length xCoords ≤ length fs ∧ length xCoords ≤ length ls)%nat
    then (Return tt, run (adds ++ [CsortNodes]) b)
    else (Raise IndexError, run adds b).
Proof.
  intros b. apply addNodes_calls, Inv_reachable.
Qed.

(** ** The sort invariant *)

Lemma ascending_positions b :
  ascending b ↔
  ∀ i x y, (Node.x <$> nodes b) !! i = Some x → (Node.x <$> nodes b) !! S i = Some y →
           x < y.
Proof.
  unfold ascending. setoid_rewrite list_lookup_fmap. split.
  - intros H i x y (n & Hn & ->)%fmap_Some (m & Hm & ->)%fmap_Some. eauto.
  - intros H i n m Hn Hm. apply (H i); by rewrite ?Hn, ?Hm.
Qed.

(** C1 as stated fails: [addNode] with [sort=True] at a coordinate that is
    already in the beam returns before any resort.  After
    [addNode(5, sort=False)] and [addNode(0, sort=False)] the call
    [addNode(5)] returns 0 and the positions are still 5, 0. *)
Lemma merge_does_not_resort :
  let b := run [CaddNode 50 None (Some EmptyString) false;
                CaddNode 0 None (Some EmptyString) false] (blank D2) in
  let r := addNode 50 None (Some EmptyString) true b in
  fst r = Return 0
  ∧ Node.x <$> nodes (snd r) = [50; 0]
  ∧ ¬ ascending (snd r).
Proof.
  intros b r.
  assert (Node.x <$> nodes (snd r) = [50; 0]) as Hpos by by vm_compute.
  split_and!; [by vm_compute|done|].
  intros Ha. pose proof (proj1 (ascending_positions (snd r)) Ha) as Hp.
  rewrite Hpos in Hp. clear Ha. rename Hp into Ha.
  specialize (Ha 0%nat 50 0 eq_refl eq_refl). lia.
Qed.

(** C1, sort invariant as the code has it.  Let [b] be the beam after any
    sequence of calls on an empty beam.  The node at index [i] of [b] has
    identifier [i+1], sorted or not.  A resort of [b] returns: afterwards
    the positions ascend strictly, the node at index [i] has identifier
    [i+1], and the nodes are the nodes of [b] in another order,
    renumbered.  The same holds, with the new node among them, after
    [addNode] with [sort=True] at a coordinate that is not in [b]; and
    after [addNodes] whenever its lists are long enough for it to return:
    then the positions are those of [b] and the given ones, and every node
    of [b] at another coordinate is still there, the same up to its
    identifier.  [addNode] with [sort=True] at a coordinate that is in [b]
    makes no resort: it returns 0 and leaves every position at its index,
    so the positions ascend afterwards exactly when they did before. *)
Theorem sort_invariant (dimension : Dimension) (cs : list call) :
  let b := run cs (blank dimension) in
  numbered b
  ∧ (∃ b' ns, _sortNodes b = (Return tt, b') ∧ ascending b' ∧ numbered b'
       ∧ ns ≡ₚ nodes b ∧ nodes b' = renumber ns)
  ∧ (∀ x fixity label, x ∉ nodeCoords b →
       ∃ b' ns, addNode x fixity label true b = (Return 1, b')
         ∧ ascending b' ∧ numbered b'
         ∧ ns ≡ₚ nodes b ++ [Node._setID (Some (S (Nnodes b)))
                  (Node.init (_dimension b) x (default (zeros (_ndf b)) fixity) label)]
         ∧ nodes b' = renumber ns)
  ∧ (∀ xCoords fixities labels,
       (∀ fs, fixities = Some fs → (length xCoords ≤ length fs)%nat) →
       (∀ ls, labels = Some ls → (length xCoords ≤ length ls)%nat) →
       ∃ b', addNodes xCoords fixities labels b = (Return tt, b')
         ∧ ascending b' ∧ numbered b'
         ∧ (∀ z, z ∈ Node.x <$> nodes b' ↔ z ∈ Node.x <$> nodes b ∨ z ∈ xCoords)
         ∧ (∀ n, n ∈ nodes b → Node.x n ∉ xCoords →
              ∃ n', n' ∈ nodes b' ∧ sameNode n n'))
  ∧ (∀ x fixity label, x ∈ nodeCoords b →
       ∃ b', addNode x fixity label true b = (Return 0, b')
         ∧ numbered b'
         ∧ Node.x <$> nodes b' = Node.x <$> nodes b
         ∧ (ascending b' ↔ ascending b)).
Proof.
  intros b. pose proof (Inv_reachable dimension cs) as HI. fold b in HI.
  split_and!.
  - apply (inv_ids _ HI).
  - destruct (sortNodes_spec b HI) as (b' & Hb' & Hr & HI' & Ha).
    destruct (rs_nodes _ _ Hr) as (ns & Hp & Hns).
    exists b', ns. split_and!; [done|done|apply (inv_ids _ HI')|done|done].
  - intros x fixity label Hx.
    destruct (addNode_new_sorted x fixity label b HI Hx) as (b' & Hb' & _ & Hr & HI' & Ha).
    destruct (rs_nodes _ _ Hr) as (ns & Hp & Hns).
    exists b', ns. split_and!; [done|done|apply (inv_ids _ HI')|done|done].
  - intros xCoords fixities labels Hf Hl.
    destruct (addNodes_run xCoords fixities labels b HI) as (o & b' & Hb' & Hs & Ha & Hok).
    rewrite (Hok Hf Hl) in *. pose proof (steps_Inv _ _ _ HI Hs) as HI'.
    exists b'. split_and!; [done|by apply Ha|apply (inv_ids _ HI')| |].
    + assert (nodeCoords b' = nodeCoords b ∪ list_to_set xCoords) as Hco.
      { pose proof (addNodes_calls xCoords fixities labels b HI) as Hc.
        cbv zeta in Hc.
        set (fs := default (replicate (length xCoords) (Some (zeros (_ndf b)))) fixities)
          in *.
        set (ls := default (replicate (length xCoords) None) labels) in *.
        assert (length xCoords ≤ length fs)%nat as Hlf.
        { subst fs. destruct fixities as [fs0|]; cbn; [by apply Hf|].
          by rewrite length_replicate. }
        assert (length xCoords ≤ length ls)%nat as Hll.
        { subst ls. destruct labels as [ls0|]; cbn; [by apply Hl|].
          by rewrite length_replicate. }
        rewrite decide_True in Hc by done. rewrite Hb' in Hc.
        injection Hc as ->. rewrite run_snoc. cbn [exec].
        destruct (sortNodes_spec
                    (run (zip_with (λ x fl, CaddNode x fl.1 fl.2 false) xCoords
                            (zip fs ls)) b))
          as (b1 & Hs1 & Hr & _); [by apply run_Inv|].
        rewrite Hs1. cbn [snd].
        rewrite (rs_coords _ _ Hr). apply run_adds_coords; [done|].
        rewrite length_zip. by apply Nat.min_glb. }
      intros z. rewrite <- (inv_coords _ HI'), <- (inv_coords _ HI), Hco.
      by rewrite elem_of_union, elem_of_list_to_set.
    + intros n Hn Hx. exact (steps_frame _ _ _ _ HI Hs Hn Hx).
  - intros x fixity label Hx.
    destruct (findNode_Inv _ _ HI Hx) as (index & node & Hfn & Hn & Hxn).
    rewrite (addNode_merge _ _ _ _ _ _ _ Hx Hfn Hn).
    assert (Node.x <$> <[index := merged b x fixity label node]> (nodes b)
            = Node.x <$> nodes b) as Hpos.
    { rewrite list_fmap_insert. apply list_insert_id.
      rewrite list_lookup_fmap, Hn. cbn. by rewrite Hxn. }
    eexists. split_and!; [done| |exact Hpos|].
    + eapply inv_ids, Inv_replace; [done..| |done]. cbn. done.
    + rewrite !ascending_positions. cbn [nodes setNodes]. by rewrite Hpos.
Qed.

(** C1 at a beam built out of order: nodes at 5, 0 and 2.5 added with
    [sort=False], then one more at 1.0 with [sort=True]. *)
Lemma sort_invariant_witness :
  let b := run [CaddNode 50 None None false; CaddNode 0 None None false;
                CaddNode 25 None None false] (blank D2) in
  (10 ∉ nodeCoords b) ∧
  (∃ b' ns, addNode 10 None None true b = (Return 1, b')
     ∧ ascending b' ∧ numbered b'
     ∧ ns ≡ₚ nodes b ++ [Node._setID (Some (S (Nnodes b)))
              (Node.init (_dimension b) 10 (default (zeros (_ndf b)) None) None)]
     ∧ nodes b' = renumber ns).
Proof.
  split; [by vm_compute|].
  apply (proj1 (proj2 (proj2 (sort_invariant D2
    [CaddNode 50 None None false; CaddNode 0 None None false;
     CaddNode 25 None None false])))).
  by vm_compute.
Defined.

(** ** The constructor *)

Lemma initFixities_eq fixities NnewNodes b :
  _initFixities fixities NnewNodes b
  = if decide (fixities = [] ∨ length fixities = NnewNodes)
    then (Return (if decide (fixities = [])
                  then replicate NnewNodes (Some (zeros (_ndf b))) else fixities), b)
    else (Raise Exception, b).
Proof.
  unfold _initFixities. mred. destruct (decide (fixities = [])) as [->|Hne].
  - cbn [length Nat.eqb]. rewrite length_replicate, Nat.eqb_refl. cbn [negb].
    by rewrite decide_True by auto.
  - assert ((length fixities =? 0)%nat = false) as ->
      by (apply Nat.eqb_neq; by destruct fixities).
    destruct (decide (length fixities = NnewNodes)) as [Heq|Hlen].
    + rewrite (proj2 (Nat.eqb_eq _ _) Heq). cbn [negb]. by rewrite decide_True by auto.
    + rewrite (proj2 (Nat.eqb_neq _ _) Hlen). cbn [negb].
      by rewrite decide_False by (by intros [?|?]).
Qed.

(** X18.  The constructor, given a fixity for every coordinate or none at
    all, and a label for every coordinate or none at all, returns a beam
    whose coordinates are the given ones, with one node for each distinct
    coordinate, in ascending order of position whatever the order they
    were given in. *)
Theorem EulerBeam_nodes (xcoords : option (list Z))
    (fixities : option (list (option (list Z)))) (labels : option (list Label))
    (dimension : Dimension) :
  let xs := default [] xcoords in
  let fs := default [] fixities in
  let ls := default [] labels in
  fs = [] ∨ length fs = length xs →
  ls = [] ∨ (length xs ≤ length ls)%nat →
  ∃ b, EulerBeam xcoords fixities labels dimension = (Return tt, b)
    ∧ nodeCoords b = list_to_set xs
    ∧ Nnodes b = size (nodeCoords b)
    ∧ length (nodes b) = Nnodes b
    ∧ ascending b.
Proof.
  intros xs fs ls Hfs Hls. unfold EulerBeam. cbv zeta. fold xs fs ls.
  erewrite bind_eq; [|by rewrite initFixities_eq, decide_True].
  destruct xs as [|x xs'] eqn:Hxs.
  { cbn. exists (blank dimension). by split_and!. }
  rewrite <- Hxs in *. assert (length xs ≠ 0%nat) as Hn0 by (rewrite Hxs; done).
  apply Nat.eqb_neq in Hn0 as Hn0'. rewrite Hn0'. cbn [negb].
  pose proof (addNodes_calls xs
    (Some (if decide (fs = [])
           then replicate (length xs) (Some (zeros (_ndf (blank dimension)))) else fs))
    (Some (if (length ls =? 0)%nat then replicate (length xs) None else ls))
    (blank dimension) (Inv_blank dimension)) as Heq.
  cbv zeta in Heq. cbn [default from_option id] in Heq.
  set (fs' := if decide (fs = []) then _ else fs) in *.
  set (ls' := if (length ls =? 0)%nat then replicate (length xs) None else ls) in *.
  assert (length xs ≤ length fs')%nat as Hlf.
  { subst fs'. case_decide; [by rewrite length_replicate|]. destruct Hfs; [done|lia]. }
  assert (length xs ≤ length ls')%nat as Hll.
  { subst ls'. destruct ls as [|l ls0]; [by cbn; rewrite length_replicate|].
    cbn [length Nat.eqb]. destruct Hls; [done|]. done. }
  rewrite decide_True in Heq by done. rewrite Heq.
  set (adds := zip_with (λ x fl, CaddNode x fl.1 fl.2 false) xs (zip fs' ls')) in *.
  eexists. split; [done|].
  pose proof (run_Inv adds _ (Inv_blank dimension)) as HI1.
  rewrite run_snoc. cbn [exec].
  destruct (sortNodes_spec _ HI1) as (b' & -> & Hr & HI' & Ha). cbn [snd].
  assert (nodeCoords b' = list_to_set xs) as Hco.
  { rewrite (rs_coords _ _ Hr). subst adds.
    rewrite run_adds_coords; [|apply Inv_blank|rewrite length_zip; by apply Nat.min_glb].
    cbn. by rewrite (left_id_L ∅ (∪)). }
  split_and!; [done| | |done].
  - by rewrite (inv_count _ HI'), (Inv_size _ HI').
  - by rewrite (inv_count _ HI').
Qed.

(** X18 on three coordinates given out of order, one of them twice. *)
Lemma EulerBeam_nodes_witness :
  ∃ b, EulerBeam (Some [50; 0; 25; 0]) None (Some [Some "B"; None; None; Some "A"]) D2
       = (Return tt, b)
    ∧ nodeCoords b = list_to_set [50; 0; 25; 0]
    ∧ Nnodes b = size (nodeCoords b)
    ∧ length (nodes b) = Nnodes b
    ∧ ascending b.
Proof.
  apply (EulerBeam_nodes (Some [50; 0; 25; 0]) None
           (Some [Some "B"; None; None; Some "A"]) D2).
  - by left.
  - right. cbn. lia.
Defined.

(** X19.  The constructor rejects a list of fixities whose length is not
    the number of coordinates: it raises [Exception] before any node is
    made.  A list of labels that is shorter than the coordinates (and not
    empty) is found only inside [addNodes]: the constructor raises
    [IndexError] with the nodes up to the missing label already in the
    beam. *)
Theorem EulerBeam_rejects (xcoords : option (list Z))
    (fixities : option (list (option (list Z)))) (labels : option (list Label))
    (dimension : Dimension) :
  let xs := default [] xcoords in
  let fs := default [] fixities in
  let ls := default [] labels in
  (fs ≠ [] → length fs ≠ length xs →
     EulerBeam xcoords fixities labels dimension = (Raise Exception, blank dimension))
  ∧ (fs = [] ∨ length fs = length xs → ls ≠ [] → (length ls < length xs)%nat →
     ∃ b, EulerBeam xcoords fixities labels dimension = (Raise IndexError, b)
       ∧ nodeCoords b = list_to_set (take (length ls) xs)
       ∧ Nnodes b = size (nodeCoords b)).
Proof.
  intros xs fs ls. split.
  - intros Hne Hlen. unfold EulerBeam. cbv zeta. fold xs fs ls.
    erewrite bind_eq_raise; [done|].
    rewrite initFixities_eq, decide_False; [done|]. by intros [?|?].
  - intros Hfs Hls Hlt. unfold EulerBeam. cbv zeta. fold xs fs ls.
    erewrite bind_eq; [|by rewrite initFixities_eq, decide_True].
    assert (length xs ≠ 0%nat) as Hn0 by lia.
    apply Nat.eqb_neq in Hn0 as Hn0'. rewrite Hn0'. cbn [negb].
    assert (length ls ≠ 0%nat) as Hl0 by (by destruct ls).
    apply Nat.eqb_neq in Hl0 as Hl0'. rewrite Hl0'.
    pose proof (addNodes_calls xs
      (Some (if decide (fs = [])
             then replicate (length xs) (Some (zeros (_ndf (blank dimension)))) else fs))
      (Some ls) (blank dimension) (Inv_blank dimension)) as Heq.
    cbv zeta in Heq. cbn [default from_option id] in Heq. unfold Label in *.
    set (fs' := if decide (fs = []) then _ else fs) in *.
    assert (length xs ≤ length fs')%nat as Hlf.
    { subst fs'. case_decide; [by rewrite length_replicate|]. destruct Hfs; [done|lia]. }
    rewrite decide_False in Heq by lia. rewrite Heq.
    eexists. split; [done|].
    match goal with
    | |- nodeCoords ?b0 = _ ∧ _ => assert (Inv b0) as HI1 by apply run_Inv, Inv_blank
    end.
    split; [|by rewrite (inv_count _ HI1), (Inv_size _ HI1)].
    rewrite <- zip_with_take_l.
    rewrite run_adds_coords; [|apply Inv_blank|rewrite length_take; apply Nat.le_min_l].
    cbn. rewrite (left_id_L ∅ (∪)). rewrite length_zip.
    by replace (length fs' `min` length ls)%nat with (length ls) by lia.
Qed.

(** X19 on two coordinates with three fixities, and on three coordinates
    with two labels. *)
Lemma EulerBeam_rejects_witness :
  EulerBeam (Some [0; 50]) (Some [fix111; fix111; fix111]) None D2
  = (Raise Exception, blank D2)
  ∧ ∃ b, EulerBeam (Some [50; 0; 25]) None (Some [Some "A"; Some "B"]) D2
         = (Raise IndexError, b)
      ∧ nodeCoords b = list_to_set (take 2 [50; 0; 25])
      ∧ Nnodes b = size (nodeCoords b).
Proof.
  split.
  - by apply (proj1 (EulerBeam_rejects (Some [0; 50])
                       (Some [fix111; fix111; fix111]) None D2)).
  - apply (proj2 (EulerBeam_rejects (Some [50; 0; 25]) None
                    (Some [Some "A"; Some "B"]) D2)).
    + by left.
    + done.
    + cbn. lia.
Defined.

(** ** Queries on the nodes *)

Lemma step_dimension ts b b' : Inv b → step ts b b' → _dimension b' = _dimension b.
Proof.
  intros HI [|n ? ?|index node node' ? ? ? ?|pl ?|el]; try done.
  destruct (sortNodes_spec b HI) as (b'' & -> & Hr & _). apply (rs_dimension _ _ Hr).
Qed.

Lemma steps_dimension ts b b' :
  Inv b → rtc (step ts) b b' → _dimension b' = _dimension b.
Proof.
  intros HI Hs. induction Hs as [b|b b1 b' H1 _ IH]; [done|].
  rewrite (IH (step_Inv _ _ _ HI H1)). by eapply step_dimension.
Qed.

Lemma run_dimension cs dimension : _dimension (run cs (blank dimension)) = dimension.
Proof.
  induction cs as [|c cs IH] using rev_ind; [done|].
  rewrite run_snoc.
  rewrite (steps_dimension _ _ _ (Inv_reachable dimension cs) (exec_steps c _
             (Inv_reachable dimension cs))).
  done.
Qed.

(** X20.  The nodes of a beam are of the kind of the beam.  So on a planar
    beam reached by calls [getFixityType] returns for every node, with
    ['free'] exactly for the fixity [[0, 0, 0]] and ['unsupported'] for
    every fixity that is not of length 3 (as [[1]], which [setFixity]
    accepts); on a spatial beam it raises [Exception] for every node. *)
Theorem getFixityType_by_dimension (dimension : Dimension) (cs : list call)
    (n : Node.t) :
  let b := run cs (blank dimension) in
  n ∈ nodes b →
  match dimension with
  | D2 => ∃ s, getFixityType n = Return s
           ∧ s ∈ ["free"; "roller"; "pinned"; "fixed"; "unsupported"]
           ∧ (s = "free" ↔ Node.fixity n = [0; 0; 0])
           ∧ (length (Node.fixity n) ≠ 3%nat → s = "unsupported")
  | D3 => getFixityType n = Raise Exception
  end.
Proof.
  intros b Hn.
  pose proof (inv_dimension _ (Inv2_reachable dimension cs) n Hn) as Hd.
  rewrite run_dimension in Hd. unfold getFixityType. rewrite Hd.
  destruct dimension; [|done].
  repeat case_decide; eexists; (split; [done|]);
    (split; [rewrite !elem_of_cons; tauto|]);
    (split; [split; [done|congruence]|]);
    intros Hlen; try done;
    match goal with H : Node.fixity n = _ |- _ => by rewrite H in Hlen end.
Qed.

(** X20 on the two nodes of scenario A, which are fixed. *)
Lemma getFixityType_by_dimension_witness :
  let b := run [CaddNodes [0; 50] (Some [fix111; fix111]) None] (blank D2) in
  let n := Node.mk D2 0 [1; 1; 1] (Some 1%nat) None [] None true in
  n ∈ nodes b ∧
  ∃ s, getFixityType n = Return s
    ∧ s ∈ ["free"; "roller"; "pinned"; "fixed"; "unsupported"]
    ∧ (s = "free" ↔ Node.fixity n = [0; 0; 0])
    ∧ (length (Node.fixity n) ≠ 3%nat → s = "unsupported").
Proof.
  intros b n.
  assert (n ∈ nodes b) as Hn by (apply (list_elem_of_lookup_2 _ 0%nat); by vm_compute).
  split; [done|].
  exact (getFixityType_by_dimension D2
           [CaddNodes [0; 50] (Some [fix111; fix111]) None] n Hn).
Defined.

(** X21.  [getxLims] raises [IndexError] on a beam without nodes.  On a
    beam reached by calls that has a node it returns the positions of the
    first and of the last node, both coordinates of the beam, and
    [getLength] returns their difference; when the positions ascend they
    are the least and the greatest coordinate of the beam. *)
Theorem getxLims_spec (dimension : Dimension) (cs : list call) :
  let b := run cs (blank dimension) in
  (nodes b = [] → getxLims b = Raise IndexError)
  ∧ (nodes b ≠ [] →
       ∃ lo hi, getxLims b = Return (lo, hi) ∧ getLength b = Return (hi - lo)
         ∧ lo ∈ nodeCoords b ∧ hi ∈ nodeCoords b
         ∧ (ascending b → ∀ z, z ∈ nodeCoords b → lo ≤ z ≤ hi)).
Proof.
  intros b. pose proof (Inv_reachable dimension cs) as HI. fold b in HI.
  unfold getxLims, getLength. split; [by intros ->|].
  intros Hne.
  destruct (nodes b) as [|first rest] eqn:Hnodes; [done|].
  assert (is_Some (last (first :: rest))) as [rightmost Hlast]
    by (by rewrite last_is_Some).
  rewrite Hlast. cbn [head]. exists (Node.x first), (Node.x rightmost).
  assert (nodes b !! 0%nat = Some first) as H0 by by rewrite Hnodes.
  assert (nodes b !! (length (nodes b) - 1)%nat = Some rightmost) as Hl.
  { rewrite Hnodes, Nat.sub_1_r. rewrite last_lookup in Hlast. exact Hlast. }
  split_and!; [done|done| | |].
  - apply (inv_coords _ HI), list_elem_of_fmap. exists first.
    split; [done|]. by eapply list_elem_of_lookup_2.
  - apply (inv_coords _ HI), list_elem_of_fmap. exists rightmost.
    split; [done|]. by eapply list_elem_of_lookup_2.
  - intros Ha z Hz. apply (inv_coords _ HI), list_elem_of_fmap in Hz as (n & -> & Hn).
    apply list_elem_of_lookup in Hn as [i Hi].
    apply lookup_lt_Some in Hi as Hlt. split.
    + destruct i as [|i]; [simplify_eq; lia|].
      pose proof (ascending_mono b 0 (S i) first n Ha H0 Hi). lia.
    + destruct (decide (i = length (nodes b) - 1)%nat) as [->|Hneq]; [simplify_eq; lia|].
      pose proof (ascending_mono b i (length (nodes b) - 1) n rightmost Ha Hi Hl). lia.
Qed.

(** X21 on scenario A. *)
Lemma getxLims_spec_witness :
  let b := run [CaddNodes [0; 50] (Some [fix111; fix111]) None] (blank D2) in
  nodes b ≠ [] ∧
  ∃ lo hi, getxLims b = Return (lo, hi) ∧ getLength b = Return (hi - lo)
    ∧ lo ∈ nodeCoords b ∧ hi ∈ nodeCoords b
    ∧ (ascending b → ∀ z, z ∈ nodeCoords b → lo ≤ z ≤ hi).
Proof.
  intros b. split; [by vm_compute|].
  apply (proj2 (getxLims_spec D2 [CaddNodes [0; 50] (Some [fix111; fix111]) None])).
  by vm_compute.
Defined.

(** ** The force diagrams *)

Lemma take_insert_pair {A} (l : list A) k a c :
  (S k < length l)%nat →
  take (S (S k)) (<[S k := c]> (<[k := a]> l)) = take k l ++ [a; c].
Proof.
  revert l. induction k as [|k IH]; intros l Hlt.
  - destruct l as [|? [|? l]]; cbn in *; try lia. by rewrite take_0.
  - destruct l as [|? l]; cbn in *; [lia|]. f_equal. apply IH. lia.
Qed.

Lemma take_insert_pair_keep {A} (l : list A) k a c :
  take k (<[S k := c]> (<[k := a]> l)) = take k l.
Proof. rewrite !take_insert_ge by lia. done. Qed.

(** The loop of [getInternalForce] from the node at index [ii] on, when
    the arrays have room for the nodes that are left. *)
Lemma getInternalForceLoop_spec ndf index N ii ns xs fs :
  length xs = (2 * N)%nat → length fs = (2 * N)%nat → (ii + length ns = N)%nat →
  (∀ n, n ∈ ns → Node._Nforce n = ndf
     ∧ ∃ F, Node.Fint n = Some F ∧ length F = (2 * ndf)%nat) →
  (index < ndf)%nat →
  getInternalForceLoop index N ii ns xs fs
  = Return (take (2 * ii) xs ++ (ns ≫= λ n, [Node.x n; Node.x n]),
            take (2 * ii) fs ++ forcesAt ndf index ns).
Proof.
  intros Hxs Hfs Hii Hall Hidx. revert ii xs fs Hxs Hfs Hii.
  induction ns as [|node ns IH]; intros ii xs fs Hxs Hfs Hii.
  { cbn in *. rewrite !take_ge by lia. by rewrite !app_nil_r. }
  destruct (Hall node) as (HN & F & HF & Hlen); [by left|].
  destruct (lookup_lt_is_Some_2 F index) as [F1 H1]; [lia|].
  destruct (lookup_lt_is_Some_2 F (index + ndf)) as [F2 H2]; [lia|].
  cbn [getInternalForceLoop length] in *. rewrite HF.
  unfold Node.getInternalForces. rewrite HF, HN. cbn [mbind option_bind].
  rewrite H1. cbn [mbind option_bind]. rewrite H2. cbn [mbind option_bind].
  assert ((ii <? N)%nat = true) as -> by (apply Nat.ltb_lt; lia).
  rewrite IH; [| |by rewrite !length_insert..|lia].
  2:{ intros n Hn. apply Hall. by right. }
  assert (forcesAt ndf index (node :: ns) = F1 :: F2 :: forcesAt ndf index ns) as ->.
  { unfold forcesAt. cbn. by rewrite HF, H1, H2. }
  replace (2 * S ii)%nat with (S (S (2 * ii))) by lia.
  rewrite !take_insert_pair by lia. cbn [mbind list_bind].
  by rewrite <- !app_assoc.
Qed.

(** X22.  On a beam whose counter is its number of nodes and whose nodes
    are of the kind of the beam and carry an internal-force array of
    length [2 * ndf], [getInternalForce] at a force index below [ndf]
    returns two arrays of [2 * Nnodes] cells: every position twice, in the
    order of the nodes, and the left and the right force of every node.
    [Fmax] at that index returns a pair that bounds every cell of the
    force array and is attained at 0 or at one of the cells. *)
Theorem getInternalForce_spec (b : Beam) (index : nat) :
  Nnodes b = length (nodes b) →
  (∀ n, n ∈ nodes b → Node.dimension n = _dimension b
     ∧ ∃ F, Node.Fint n = Some F ∧ length F = (2 * _ndf b)%nat) →
  (index < _ndf b)%nat →
  ∃ xcoords force lo hi,
    getInternalForce index b = Return (xcoords, force)
    ∧ xcoords = (nodes b ≫= λ n, [Node.x n; Node.x n])
    ∧ force = forcesAt (_ndf b) index (nodes b)
    ∧ length xcoords = (2 * Nnodes b)%nat ∧ length force = (2 * Nnodes b)%nat
    ∧ Fmax index b = Return (lo, hi)
    ∧ (∀ v, v ∈ force → lo ≤ v ≤ hi)
    ∧ lo ∈ 0 :: force ∧ hi ∈ 0 :: force ∧ lo ≤ 0 ≤ hi.
Proof.
  intros HN Hall Hidx.
  destruct (FmaxLoop_spec (_ndf b) index 0 0 (nodes b)) as
    (lo & hi & HF & Hlo & Hlo' & Hhi & Hhi' & Hlen); [|done|].
  { intros n Hn. by destruct (Hall n Hn). }
  exists (nodes b ≫= λ n, [Node.x n; Node.x n]), (forcesAt (_ndf b) index (nodes b)), lo, hi.
  split_and!; [|done|done| |by rewrite Hlen, HN|done| |done|done|..].
  - unfold getInternalForce.
    rewrite (getInternalForceLoop_spec (_ndf b)); [done|by rewrite length_replicate; lia..
                                                   |by rewrite HN| |done].
    intros n Hn. destruct (Hall n Hn) as [Hd ?]. split; [|done].
    unfold Node._Nforce, _ndf. by rewrite Hd.
  - rewrite HN. clear. induction (nodes b) as [|n ns IH]; [done|].
    cbn [mbind list_bind] in *. cbn [app length]. rewrite IH. lia.
  - intros v Hv. split; [apply Hlo'|apply Hhi']; by right.
  - apply Hlo'. by left.
  - apply Hhi'. by left.
Qed.

(** X22 on a beam of two nodes with results: the shear diagram and its
    extremes. *)
Lemma getInternalForce_spec_witness :
  let node1 := Node.mk D2 0 [1; 1; 0] (Some 1%nat) None [] (Some [0; 5; -3; 0; 7; 1]) true in
  let node2 := Node.mk D2 50 [0; 1; 0] (Some 2%nat) None [] (Some [0; 2; 6; 0; 4; -8]) true in
  let b := setNnodes 2 (setNodeCoords {[0; 50]} (setNodes [node1; node2] (blank D2))) in
  getSFD b = Return ([0; 0; 50; 50], [5; 7; 2; 4]) ∧ Vmax b = Return (0, 7).
Proof.
  intros node1 node2 b.
  destruct (getInternalForce_spec b 1) as
    (xs & fs & lo & hi & Hg & -> & -> & _ & _ & HF & Hb & Hlo & Hhi & H0).
  - done.
  - intros n Hn. cbn in Hn. apply elem_of_cons in Hn as [->|Hn]; [by eauto|].
    apply list_elem_of_singleton in Hn as ->. by eauto.
  - cbn. lia.
  - unfold getSFD, Vmax. rewrite Hg, HF. split; [done|].
    change (forcesAt (_ndf b) 1 (nodes b)) with [5; 7; 2; 4] in Hb, Hlo, Hhi.
    assert (lo ≤ 7 ≤ hi) as H7 by (apply Hb; repeat constructor).
    rewrite !elem_of_cons, elem_of_nil in Hlo, Hhi.
    assert (lo = 0) as -> by lia. assert (hi = 7) as -> by lia. done.
Defined.
